(** * Programmable-matter motion coordination: a shallow embedding

    This development embeds the adversarial path finders
    ([app/algorithms/minimax.py], [app/algorithms/expectimax.py]) and the
    reservation, success-metric and target-swap steps of the orchestrator
    ([app/controllers/simulation.py]) and states the properties the
    specification gives for them.

    Conventions.
    - Python integers are [Z].  Python floats are modelled by exact
      rationals ([Qc], canonical fractions with Leibniz equality); the
      weights 1.0, 1.5, 3.0 and the thresholds 0.01 and 0.95 are exact
      fractions, [float('-inf')] and [float('inf')] are the two extra
      points of [Val].
    - The shared mutable objects (the grid and the element objects held
      by [controller.elements]) form an explicit [World]; code that
      mutates them is written in a state-and-exception monad [M].
    - Recursion that Python bounds by [depth >= max_depth] carries a
      [fuel] argument; lemmas show how much fuel is enough. *)

From Stdlib Require Import ZArith QArith Qcanon Lia String.
From stdpp Require Import base numbers option gmap list.

Local Open Scope Z_scope.

(** ** Elements *)

Inductive Topology := vonNeumann | moore.

#[global] Instance Topology_eq_dec : EqDecision Topology.
Proof. solve_decision. Defined.

Module Element.

(** Modelled from the spec: the element class of [app/models/element.py]
    is not among the sources; section 3 of the specification gives it as
    [{id, x, y, target_x?, target_y?}]. *)
Record t := mk {
  id : Z;
  x : Z;
  y : Z;
  target_x : option Z;
  target_y : option Z
}.

#[global] Instance t_eq_dec : EqDecision t.
Proof. solve_decision. Defined.

Definition pos (e : t) : Z * Z := (x e, y e).

Definition set_pos (p : Z * Z) (e : t) : t :=
  mk (id e) p.1 p.2 (target_x e) (target_y e).

Definition set_target (tx ty : option Z) (e : t) : t :=
  mk (id e) (x e) (y e) tx ty.

(** Modelled from the spec: [has_target()] holds when both target
    coordinates are present. *)
Definition has_target (e : t) : bool :=
  match target_x e, target_y e with
  | Some _, Some _ => true
  | _, _ => false
  end.

(** [e.x == e.target_x and e.y == e.target_y]; a missing coordinate
    ([None]) is equal to no integer. *)
Definition at_target (e : t) : bool :=
  bool_decide (target_x e = Some (x e)) && bool_decide (target_y e = Some (y e)).

(** Modelled from the spec: [distance_to_target()] is the Manhattan
    distance to the target (0 for a missing coordinate, which no caller
    modelled here reaches). *)
Definition distance_to_target (e : t) : Z :=
  Z.abs (x e - default (x e) (target_x e)) + Z.abs (y e - default (y e) (target_y e)).

End Element.

(** ** GridWorld *)

Inductive Cell := Empty | Wall | Occupied (agent : Z).

Module Grid.

(** Modelled from the spec: the grid class of [app/models/grid.py] is
    not among the sources.  Sections 3 and 4.1 of the specification give
    an H x W array of cells, each [Empty], [Wall] or [Occupied id].  The
    walls never change during a run and are kept as a set; the occupancy
    is a finite map from a cell to the id of the agent standing on it. *)
Record t := mk {
  width : Z;
  height : Z;
  walls : gset (Z * Z);
  occupancy : gmap (Z * Z) Z
}.

Definition cell (g : t) (p : Z * Z) : Cell :=
  if bool_decide (p ∈ walls g) then Wall
  else match occupancy g !! p with
       | Some a => Occupied a
       | None => Empty
       end.

Definition is_valid_position (g : t) (px py : Z) : bool :=
  (0 <=? px) && (px <? width g) && (0 <=? py) && (py <? height g).

Definition is_wall (g : t) (px py : Z) : bool :=
  bool_decide ((px, py) ∈ walls g).

Definition is_element (g : t) (px py : Z) : bool :=
  bool_decide (is_Some (occupancy g !! (px, py))).

Definition vonNeumann_steps : list (Z * Z) :=
  [(0, -1); (1, 0); (0, 1); (-1, 0)].

Definition moore_steps : list (Z * Z) :=
  vonNeumann_steps ++ [(-1, -1); (1, -1); (1, 1); (-1, 1)].

Definition steps (topology : Topology) : list (Z * Z) :=
  match topology with
  | vonNeumann => vonNeumann_steps
  | moore => moore_steps
  end.

(** Modelled from the spec: [neighbors(x, y, topology)] returns only
    in-bounds cells, four under von Neumann and eight under Moore.  The
    order of enumeration is not given by the specification; the one
    taken here is up, right, down, left, then the diagonals. *)
Definition get_neighbors (g : t) (px py : Z) (topology : Topology) : list (Z * Z) :=
  filter (λ p, is_valid_position g p.1 p.2 = true)
         (map (λ d, (px + d.1, py + d.2)) (steps topology)).

(** Modelled from the spec: [remove] clears the element's cell and
    [place] marks it with the element's id. *)
Definition remove_element (g : t) (e : Element.t) : t :=
  mk (width g) (height g) (walls g) (delete (Element.pos e) (occupancy g)).

Definition add_element (g : t) (e : Element.t) : t :=
  mk (width g) (height g) (walls g) (<[Element.pos e := Element.id e]> (occupancy g)).

(** The moves a search considers from a cell: the neighbours that are
    neither a wall nor occupied,
    [[(nx, ny) for nx, ny in neighbors
       if not grid.is_wall(nx, ny) and not grid.is_element(nx, ny)]]. *)
Definition free_neighbors (g : t) (px py : Z) (topology : Topology) : list (Z * Z) :=
  filter (λ p, negb (is_wall g p.1 p.2) && negb (is_element g p.1 p.2) = true)
         (get_neighbors g px py topology).

End Grid.

(** ** The shared world and the monad of code that mutates it *)

Record World := mkWorld {
  grid : Grid.t;
  elements : list Element.t   (* [controller.elements], in insertion order *)
}.

Inductive exn :=
| KeyError (key : Z)
| NameError (name : string).

Inductive Res (A : Type) :=
| Ok (a : A)
| Raise (e : exn)
| OutOfFuel.
Arguments Ok {A} a.
Arguments Raise {A} e.
Arguments OutOfFuel {A}.

Definition M (A : Type) : Type := World → Res A * World.

Definition ret {A} (a : A) : M A := λ w, (Ok a, w).

Definition raise {A} (e : exn) : M A := λ w, (Raise e, w).

Definition out_of_fuel {A} : M A := λ w, (OutOfFuel, w).

Definition bind {A B} (m : M A) (k : A → M B) : M B :=
  λ w, match m w with
       | (Ok a, w') => k a w'
       | (Raise e, w') => (Raise e, w')
       | (OutOfFuel, w') => (OutOfFuel, w')
       end.

Notation "x <- m ;; k" := (bind m (λ x, k))
  (at level 100, m at next level, k at level 200, only parsing).

(** [controller.elements.get(element_id)] *)
Definition lookup_element (i : Z) (els : list Element.t) : option Element.t :=
  List.find (λ e, Element.id e =? i) els.

(** Assignment to the fields of the object stored under key [i]. *)
Fixpoint update_element (i : Z) (f : Element.t → Element.t) (els : list Element.t)
  : list Element.t :=
  match els with
  | [] => []
  | e :: rest =>
      if Element.id e =? i then f e :: rest else e :: update_element i f rest
  end.

(** [controller.elements[element_id]] *)
Definition get_element (i : Z) : M Element.t :=
  λ w, match lookup_element i (elements w) with
       | Some e => (Ok e, w)
       | None => (Raise (KeyError i), w)
       end.

(** The three statements that every simulated move consists of:
    [grid.remove_element(element); element.x, element.y = nx, ny;
     grid.add_element(element)]. *)
Definition place_at (e : Element.t) (p : Z * Z) (w : World) : World :=
  let g1 := Grid.remove_element (grid w) e in
  let e' := Element.set_pos p e in
  mkWorld (Grid.add_element g1 e')
          (update_element (Element.id e) (Element.set_pos p) (elements w)).

(** [old_x, old_y = element.x, element.y] followed by the simulated move
    of the object stored under [i]; the old position is the result. *)
Definition simulate_move (i : Z) (p : Z * Z) : M (Z * Z) :=
  λ w, match lookup_element i (elements w) with
       | Some e => (Ok (Element.pos e), place_at e p w)
       | None => (Raise (KeyError i), w)
       end.

(** [range(start, stop, step)] for a step of 1 or -1. *)
Definition py_range (start stop step : Z) : list Z :=
  if 0 <? step then seqZ start (stop - start)
  else if step <? 0 then map (λ k, start - k) (seqZ 0 (start - stop))
  else [].

Definition sign_to (from to : Z) : Z :=
  if from <? to then 1 else if to <? from then -1 else 0.

Definition manhattan (p q : Z * Z) : Z :=
  Z.abs (p.1 - q.1) + Z.abs (p.2 - q.2).

(** ** Extended integers: Python numbers together with the two infinities *)

Inductive Val := NegInf | Fin (v : Z) | PosInf.

Module Val.

Definition leb (a b : Val) : bool :=
  match a, b with
  | NegInf, _ => true
  | _, PosInf => true
  | Fin u, Fin v => u <=? v
  | _, _ => false
  end.

Definition ltb (a b : Val) : bool := negb (leb b a).

(** Python's [max(a, b)] keeps [a] unless [b] is greater. *)
Definition max (a b : Val) : Val := if ltb a b then b else a.

(** Python's [min(a, b)] keeps [a] unless [b] is smaller. *)
Definition min (a b : Val) : Val := if ltb b a then b else a.

Definition add (a : Val) (k : Z) : Val :=
  match a with
  | Fin v => Fin (v + k)
  | other => other
  end.

End Val.


(** [list.sort(key=..., reverse=True)]: stable, largest key first. *)
Fixpoint insert_desc {A} (key : A → Z) (a : A) (l : list A) : list A :=
  match l with
  | [] => [a]
  | b :: rest => if key a <? key b then b :: insert_desc key a rest else a :: b :: rest
  end.

Definition sort_desc {A} (key : A → Z) (l : list A) : list A :=
  foldr (insert_desc key) [] l.

(** The random draws a call consumes: the outcome of
    [random.random() < 0.3] and the index [random.choice] lands on. *)
Record Rand := mkRand {
  coin : bool;
  pick : nat
}.

(** [random.choice] on the non-empty list [a :: l]. *)
Definition choice {A} (r : Rand) (a : A) (l : list A) : A :=
  nth (pick r mod S (length l)) (a :: l) a.

(** The baseline path finder [astar_pathfind] is an external collaborator
    (its module is not among the sources); it reads the grid and returns a
    path and a node count. *)
Definition Pathfinder : Type :=
  Grid.t → Z → Z → Z → Z → Topology → option (list (Z * Z)) * Z.

(** [[(nx, ny) for nx, ny in valid_moves if ny < start_y]] *)
Definition upward (row : Z) (moves : list (Z * Z)) : list (Z * Z) :=
  filter (λ p, p.2 < row) moves.

(** [path.extend(sub_path[1:])] guarded by [sub_path and len(sub_path) > 1] *)
Definition extend_path (path : list (Z * Z)) (sub : option (list (Z * Z)) * Z) (nodes : Z)
  : option (list (Z * Z)) * Z :=
  match sub with
  | (Some (_ :: (_ :: _) as tl), sub_nodes) => (Some (path ++ tl), nodes + sub_nodes)
  | _ => (Some path, nodes)
  end.

(** * Minimax with alpha-beta pruning ([app/algorithms/minimax.py]) *)

Module Minimax.

Definition calculate_threat_level
    (our_start_x our_start_y our_goal_x our_goal_y
     their_start_x their_start_y their_goal_x their_goal_y : Z)
    (bottom_row_priority : bool) : Z :=
  let distance_to_our_start :=
    Z.abs (their_start_x - our_start_x) + Z.abs (their_start_y - our_start_y) in
  let distance_to_our_goal :=
    Z.abs (their_start_x - our_goal_x) + Z.abs (their_start_y - our_goal_y) in
  let our_dx := our_goal_x - our_start_x in
  let our_dy := our_goal_y - our_start_y in
  let their_dx := their_goal_x - their_start_x in
  let their_dy := their_goal_y - their_start_y in
  let cross_product := our_dx * their_dy - our_dy * their_dx in
  let threat := 0 in
  let proximity_threat :=
    20 - Z.min (Z.min distance_to_our_start distance_to_our_goal) 20 in
  let threat := threat + proximity_threat in
  let threat :=
    if bottom_row_priority && (their_start_y <? our_start_y)
       && (Z.abs (their_start_x - our_start_x) <=? 1)
    then threat + 50 else threat in
  let threat := if Z.abs cross_product <? 10 then threat + 5 else threat + 15 in
  let threat :=
    if (Z.min our_start_x our_goal_x <=? their_start_x)
       && (their_start_x <=? Z.max our_start_x our_goal_x)
       && (Z.min our_start_y our_goal_y <=? their_start_y)
       && (their_start_y <=? Z.max our_start_y our_goal_y)
    then threat + 20 else threat in
  threat.

(** The body of the loop of [find_potential_adversaries] for one entry
    of [controller.elements]: the scored candidate it appends, if any. *)
Definition adversary_candidate
    (element_id start_x start_y goal_x goal_y : Z) (bottom_row_priority : bool)
    (min_x max_x min_y max_y : Z) (other : Element.t) : option (Z * Z) :=
  if Element.id other =? element_id then None
  else if negb ((min_x <=? Element.x other) && (Element.x other <=? max_x)
                && (min_y <=? Element.y other) && (Element.y other <=? max_y))
  then None
  else match Element.target_x other, Element.target_y other with
       | Some tx, Some ty =>
           if negb (negb (Element.x other =? tx) || negb (Element.y other =? ty))
           then None
           else if bottom_row_priority && (Element.y other <? start_y)
                   && (Z.abs (Element.x other - start_x) <=? 1)
           then Some (Element.id other, 100)
           else
             let other_min_x := Z.min (Element.x other) tx in
             let other_max_x := Z.max (Element.x other) tx in
             let other_min_y := Z.min (Element.y other) ty in
             let other_max_y := Z.max (Element.y other) ty in
             let x_overlap := (min_x <=? other_max_x) && (other_min_x <=? max_x) in
             let y_overlap := (min_y <=? other_max_y) && (other_min_y <=? max_y) in
             if x_overlap && y_overlap
             then Some (Element.id other,
                        calculate_threat_level start_x start_y goal_x goal_y
                          (Element.x other) (Element.y other) tx ty
                          bottom_row_priority)
             else None
       | _, _ => None
       end.

Definition find_potential_adversaries
    (els : list Element.t) (element_id start_x start_y goal_x goal_y : Z)
    (bottom_row_priority : bool) : list Z :=
  let min_x := Z.min start_x goal_x - 2 in
  let max_x := Z.max start_x goal_x + 2 in
  let min_y := Z.min start_y goal_y - 2 in
  let max_y := Z.max start_y goal_y + 2 in
  let min_y := if bottom_row_priority then Z.min (start_y - 3) goal_y else min_y in
  let max_y := if bottom_row_priority then Z.min (start_y + 1) (goal_y + 1) else max_y in
  let adversaries :=
    omap (adversary_candidate element_id start_x start_y goal_x goal_y
            bottom_row_priority min_x max_x min_y max_y) els in
  let max_adversaries := if bottom_row_priority then 3%nat else 2%nat in
  map fst (take max_adversaries (sort_desc snd adversaries)).

(** [-15] (and a further [-30] for a blocked upward corridor of a
    bottom-row element) when a wall or an element stands between the
    element and the goal on one axis. *)
Definition blocked_on (g : Grid.t) (cells : list (Z * Z)) : bool :=
  existsb (λ p, Grid.is_wall g p.1 p.2 || Grid.is_element g p.1 p.2) cells.

Definition evaluate_state
    (g : Grid.t) (element : Element.t) (goal_x goal_y : Z)
    (adversaries : list Z) (els : list Element.t) (bottom_row_priority : bool) : Z :=
  let ex := Element.x element in
  let ey := Element.y element in
  let distance := Z.abs (ex - goal_x) + Z.abs (ey - goal_y) in
  let distance_score := -10 * distance in
  let distance_score :=
    if bottom_row_priority then
      let vertical_distance := ey - goal_y in
      let vertical_score := vertical_distance * 20 in
      let distance_score := -5 * distance + vertical_score in
      if 9 <=? ey then distance_score - 100 else distance_score
    else distance_score in
  let path_penalty := 0 in
  let dx_sign := sign_to ex goal_x in
  let dy_sign := sign_to ey goal_y in
  let path_penalty :=
    if negb (dx_sign =? 0)
       && blocked_on g (map (λ cx, (cx, ey)) (py_range (ex + dx_sign) (goal_x + dx_sign) dx_sign))
    then path_penalty - 15 else path_penalty in
  let path_penalty :=
    if negb (dy_sign =? 0)
       && blocked_on g (map (λ cy, (ex, cy)) (py_range (ey + dy_sign) (goal_y + dy_sign) dy_sign))
    then (if bottom_row_priority && (dy_sign <? 0)
          then path_penalty - 15 - 30 else path_penalty - 15)
    else path_penalty in
  let neighbors := Grid.get_neighbors g ex ey vonNeumann in
  let free p := negb (Grid.is_wall g p.1 p.2) && negb (Grid.is_element g p.1 p.2) in
  let free_neighbors := Z.of_nat (length (filter (λ p, free p = true) neighbors)) in
  let mobility_score := 5 * free_neighbors in
  let upward_path_score :=
    if bottom_row_priority && existsb (λ p, (p.2 <? ey) && free p) neighbors
    then 50 else 0 in
  let adversary_penalty :=
    foldl (λ penalty adv_id,
             match lookup_element adv_id els with
             | Some adv =>
                 let adv_distance :=
                   Z.abs (ex - Element.x adv) + Z.abs (ey - Element.y adv) in
                 if adv_distance <=? 2 then penalty - (3 - adv_distance) * 10 else penalty
             | None => penalty
             end) 0 adversaries in
  if bottom_row_priority
  then distance_score + path_penalty + mobility_score + upward_path_score + adversary_penalty
  else distance_score + path_penalty + mobility_score + adversary_penalty.


(** The loop of a MAX node: simulate each move of our element, value
    it, restore the position, and stop at a beta cutoff. *)
Fixpoint max_loop (child : Val → Val → M Val) (element_id : Z)
    (moves : list (Z * Z)) (value alpha beta : Val) : M Val :=
  match moves with
  | [] => ret value
  | p :: rest =>
      old <- simulate_move element_id p ;;
      move_value <- child alpha beta ;;
      _ <- simulate_move element_id old ;;
      let value := Val.max value move_value in
      let alpha := Val.max alpha value in
      if Val.leb beta alpha then ret value
      else max_loop child element_id rest value alpha beta
  end.

(** The loop of a MIN node over the moves of one adversary; the entry
    equal to the adversary's own cell is "stay in place" and touches
    nothing. *)
Fixpoint min_loop (child : Val → Val → M Val) (adversary_id : Z)
    (moves : list (Z * Z)) (value alpha beta : Val) : M Val :=
  match moves with
  | [] => ret value
  | p :: rest =>
      adversary <- get_element adversary_id ;;
      move_value <-
        (if bool_decide (p = Element.pos adversary) then child alpha beta
         else
           old <- simulate_move adversary_id p ;;
           move_value <- child alpha beta ;;
           _ <- simulate_move adversary_id old ;;
           ret move_value) ;;
      let value := Val.min value move_value in
      let beta := Val.min beta value in
      if Val.leb beta alpha then ret value
      else min_loop child adversary_id rest value alpha beta
  end.

(** The moves of an adversary: free neighbours other than our element's
    cell, then "stay", and three more "stay" entries for a bottom-row
    adversary of a bottom-row element. *)
Definition adversary_moves (g : Grid.t) (element adversary : Element.t)
    (topology : Topology) (bottom_row_priority : bool) : list (Z * Z) :=
  let neighbors := Grid.get_neighbors g (Element.x adversary) (Element.y adversary) topology in
  let valid_moves :=
    filter (λ p, negb (Grid.is_wall g p.1 p.2)
                 && negb ((p.1 =? Element.x element) && (p.2 =? Element.y element))
                 && negb (Grid.is_element g p.1 p.2) = true) neighbors in
  let valid_moves := valid_moves ++ [Element.pos adversary] in
  if (9 <=? Element.y adversary) && bottom_row_priority
  then valid_moves ++ replicate 3 (Element.pos adversary)
  else valid_moves.

Fixpoint minimax_value (fuel : nat) (element_id : Z) (adversaries : list Z)
    (depth max_depth : Z) (is_max : bool) (alpha beta : Val) (topology : Topology)
    (goal_x goal_y : Z) (bottom_row_priority : bool) {struct fuel} : M Val :=
  element <- get_element element_id ;;
  λ w,
  if max_depth <=? depth then
    (Ok (Fin (evaluate_state (grid w) element goal_x goal_y adversaries
                (elements w) bottom_row_priority)), w)
  else if (Element.x element =? goal_x) && (Element.y element =? goal_y) then
    (Ok (Fin 1000), w)
  else
    match fuel with
    | O => (OutOfFuel, w)
    | S fuel =>
        if is_max then
          let valid_moves :=
            Grid.free_neighbors (grid w) (Element.x element) (Element.y element) topology in
          let valid_moves :=
            if bottom_row_priority then
              match upward (Element.y element) valid_moves with
              | [] => valid_moves
              | upward_moves => upward_moves
              end
            else valid_moves in
          match valid_moves with
          | [] =>
              let penalty :=
                evaluate_state (grid w) element goal_x goal_y adversaries
                  (elements w) bottom_row_priority in
              (Ok (Fin (penalty - 20)), w)
          | _ =>
              max_loop
                (λ alpha beta,
                   minimax_value fuel element_id adversaries (depth + 1) max_depth
                     false alpha beta topology goal_x goal_y bottom_row_priority)
                element_id valid_moves NegInf alpha beta w
          end
        else
          match adversaries with
          | [] =>
              minimax_value fuel element_id adversaries (depth + 1) max_depth
                true alpha beta topology goal_x goal_y bottom_row_priority w
          | adversary_id :: remaining_adversaries =>
              match lookup_element adversary_id (elements w) with
              | Some adversary =>
                  min_loop
                    (λ alpha beta,
                       minimax_value fuel element_id remaining_adversaries (depth + 1)
                         max_depth true alpha beta topology goal_x goal_y
                         bottom_row_priority)
                    adversary_id
                    (adversary_moves (grid w) element adversary topology bottom_row_priority)
                    PosInf alpha beta w
              | None => (Ok PosInf, w)
              end
          end
    end.

(** [any(grid.is_element(start_x, y) for y in range(start_y-1, goal_y-1, -1))] *)
Definition vertical_blocked (g : Grid.t) (start_x start_y goal_y : Z) : bool :=
  existsb (λ cy, Grid.is_element g start_x cy) (py_range (start_y - 1) (goal_y - 1) (-1)).

(** The loop of [minimax_pathfind] over the first moves. *)
Fixpoint root_loop (child : Val → M Val) (element_id : Z) (original : Z * Z)
    (bottom_row_priority : bool) (start_y : Z) (moves : list (Z * Z))
    (best_move : option (Z * Z)) (best_value alpha : Val) (nodes_explored : Z)
    : M (option (Z * Z) * Z) :=
  match moves with
  | [] => ret (best_move, nodes_explored)
  | p :: rest =>
      _ <- simulate_move element_id p ;;
      value <- child alpha ;;
      let nodes_explored := nodes_explored + 1 in
      let value :=
        if bottom_row_priority && (p.2 <? start_y) then Val.add value 50 else value in
      _ <- simulate_move element_id original ;;
      let better := Val.ltb best_value value in
      let best_value := if better then value else best_value in
      let best_move := if better then Some p else best_move in
      let alpha := Val.max alpha best_value in
      root_loop child element_id original bottom_row_priority start_y rest
        best_move best_value alpha nodes_explored
  end.

Section Pathfind.

Variable astar_pathfind : Pathfinder.

Definition minimax_pathfind (rnd : Rand) (start_x start_y goal_x goal_y : Z)
    (element_id : Z) (topology : Topology) (max_depth : Z)
    : M (option (list (Z * Z)) * Z) :=
  λ w,
  let g := grid w in
  if negb (Grid.is_valid_position g start_x start_y)
     || negb (Grid.is_valid_position g goal_x goal_y) then (Ok (None, 0), w)
  else if Grid.is_wall g start_x start_y || Grid.is_wall g goal_x goal_y then
    (Ok (None, 0), w)
  else if (start_x =? goal_x) && (start_y =? goal_y) then
    (Ok (Some [(start_x, start_y)], 1), w)
  else
    match lookup_element element_id (elements w) with
    | None => (Ok (None, 0), w)
    | Some element =>
        let num_elements := Z.of_nat (length (elements w)) in
        let max_depth :=
          if 10 <? num_elements then Z.max 1 (max_depth - 1) else max_depth in
        let bottom_row_priority := 9 <=? Element.y element in
        let original := Element.pos element in
        let adversaries :=
          find_potential_adversaries (elements w) element_id
            start_x start_y goal_x goal_y bottom_row_priority in
        let valid_moves := Grid.free_neighbors g start_x start_y topology in
        let fast_path :=
          if bottom_row_priority then
            match upward start_y valid_moves with
            | [] => None
            | up :: ups =>
                let vertical_blocked := vertical_blocked g start_x start_y goal_y in
                if vertical_blocked && bool_decide (topology = moore)
                   && (1 <? Z.of_nat (length (up :: ups)))
                then Some (choice rnd up ups)
                else if negb vertical_blocked then Some up
                else None
            end
          else None in
        match fast_path with
        | Some first => (Ok (Some [(start_x, start_y); first], 1), w)
        | None =>
            match valid_moves with
            | [] => (Ok (Some [(start_x, start_y)], 1), w)
            | _ =>
                let random_choice :=
                  if bottom_row_priority && coin rnd then
                    match upward start_y valid_moves with
                    | [] => None
                    | up :: ups => Some (choice rnd up ups)
                    end
                  else None in
                (searched <-
                   (match random_choice with
                    | Some first => ret (Some first, 0)
                    | None =>
                        root_loop
                          (λ alpha,
                             minimax_value (Z.to_nat max_depth) element_id adversaries
                               1 max_depth false alpha PosInf topology goal_x goal_y
                               bottom_row_priority)
                          element_id original bottom_row_priority start_y valid_moves
                          None NegInf NegInf 0
                    end) ;;
                 match searched with
                 | (None, nodes_explored) => ret (None, nodes_explored)
                 | (Some best_move, nodes_explored) =>
                     let path := [(start_x, start_y); best_move] in
                     if bottom_row_priority then ret (Some path, nodes_explored)
                     else
                       λ w,
                       match lookup_element element_id (elements w) with
                       | None => (Raise (KeyError element_id), w)
                       | Some element =>
                           let g1 := Grid.remove_element (grid w) element in
                           let sub :=
                             astar_pathfind g1 best_move.1 best_move.2 goal_x goal_y topology in
                           let g2 := Grid.add_element g1 element in
                           (Ok (extend_path path sub nodes_explored),
                            mkWorld g2 (elements w))
                       end
                 end) w
            end
        end
    end.

End Pathfind.

End Minimax.

(** * Expectimax ([app/algorithms/expectimax.py]) *)

(** Python numbers of the expectimax search: a rational or
    [float('-inf')]. *)
Inductive QVal := NegInfQ | FinQ (q : Qc).

Module QVal.

Definition ltb (a b : QVal) : bool :=
  match a, b with
  | NegInfQ, FinQ _ => true
  | FinQ u, FinQ v => bool_decide (u < v)%Qc
  | _, NegInfQ => false
  end.

Definition max (a b : QVal) : QVal := if ltb a b then b else a.

Definition add (a : QVal) (k : Qc) : QVal :=
  match a with
  | FinQ q => FinQ (q + k)
  | NegInfQ => NegInfQ
  end.

(** [total + probability * value] for a positive probability. *)
Definition add_scaled (total : QVal) (probability : Qc) (value : QVal) : QVal :=
  match total, value with
  | FinQ t, FinQ v => FinQ (t + probability * v)
  | _, _ => NegInfQ
  end.

End QVal.

Inductive NodeType := max_node | chance_node.

Module Expectimax.

Definition qabs (q : Qc) : Qc := if decide (q < 0)%Qc then (- q)%Qc else q.

Definition calculate_interference_score
    (our_start_x our_start_y our_goal_x our_goal_y
     their_x their_y their_target_x their_target_y : Z) (is_bottom_row : bool) : Z :=
  let distance_to_our_pos :=
    Z.abs (their_x - our_start_x) + Z.abs (their_y - our_start_y) in
  let distance_to_our_goal :=
    Z.abs (their_x - our_goal_x) + Z.abs (their_y - our_goal_y) in
  let on_our_path :=
    if our_start_x =? our_goal_x then
      (their_x =? our_start_x) && (Z.min our_start_y our_goal_y <=? their_y)
      && (their_y <=? Z.max our_start_y our_goal_y)
    else if our_start_y =? our_goal_y then
      (their_y =? our_start_y) && (Z.min our_start_x our_goal_x <=? their_x)
      && (their_x <=? Z.max our_start_x our_goal_x)
    else
      let in_box :=
        (Z.min our_start_x our_goal_x <=? their_x)
        && (their_x <=? Z.max our_start_x our_goal_x)
        && (Z.min our_start_y our_goal_y <=? their_y)
        && (their_y <=? Z.max our_start_y our_goal_y) in
      if in_box then
        let dx := our_goal_x - our_start_x in
        let dy := our_goal_y - our_start_y in
        let ratio : Qc :=
          (Qc_of_Z ((their_x - our_start_x) * dx + (their_y - our_start_y) * dy)
           / Qc_of_Z (dx * dx + dy * dy))%Qc in
        let capped : Qc := if decide (1 < ratio)%Qc then 1%Qc else ratio in
        let t : Qc := if decide (0 < capped)%Qc then capped else 0%Qc in
        let proj_x := (Qc_of_Z our_start_x + t * Qc_of_Z dx)%Qc in
        let proj_y := (Qc_of_Z our_start_y + t * Qc_of_Z dy)%Qc in
        let dist_to_line :=
          (qabs (Qc_of_Z their_x - proj_x) + qabs (Qc_of_Z their_y - proj_y))%Qc in
        bool_decide (dist_to_line ≤ 1)%Qc
      else false in
  let our_dx := our_goal_x - our_start_x in
  let our_dy := our_goal_y - our_start_y in
  let their_dx := their_target_x - their_x in
  let their_dy := their_target_y - their_y in
  let cross_mag := Z.abs (our_dx * their_dy - our_dy * their_dx) in
  let dot_product := our_dx * their_dx + our_dy * their_dy in
  let path_intersection :=
    if 5 <? cross_mag then 20 else if dot_product <? 0 then 10 else 5 in
  let bottom_row_factor :=
    if is_bottom_row then
      if (their_y <? our_start_y) && (Z.abs (their_x - our_start_x) <=? 1) then 50
      else if (their_y <? our_start_y) && (their_x =? our_start_x) then 40
      else 0
    else 0 in
  let proximity_score :=
    Z.max 0 (10 - Z.min distance_to_our_pos distance_to_our_goal) in
  proximity_score * 2 + (if on_our_path then 30 else 0)
  + path_intersection + bottom_row_factor.

Definition interference_candidate
    (element_id start_x start_y goal_x goal_y : Z) (is_bottom_row : bool)
    (min_x max_x min_y max_y : Z) (other : Element.t) : option (Z * Z) :=
  if Element.id other =? element_id then None
  else if negb ((min_x <=? Element.x other) && (Element.x other <=? max_x)
                && (min_y <=? Element.y other) && (Element.y other <=? max_y))
  then None
  else match Element.target_x other, Element.target_y other with
       | Some tx, Some ty =>
           if negb (Element.x other =? tx) || negb (Element.y other =? ty)
           then Some (Element.id other,
                      calculate_interference_score start_x start_y goal_x goal_y
                        (Element.x other) (Element.y other) tx ty is_bottom_row)
           else None
       | _, _ => None
       end.

Definition find_interfering_elements
    (els : list Element.t) (element_id start_x start_y goal_x goal_y : Z)
    (is_bottom_row : bool) : list Z :=
  let min_x := Z.min start_x goal_x - 2 in
  let max_x := Z.max start_x goal_x + 2 in
  let min_y := Z.min start_y goal_y - 2 in
  let max_y := Z.max start_y goal_y + 2 in
  let min_y := if is_bottom_row then Z.min (start_y - 3) goal_y else min_y in
  let max_y := if is_bottom_row then Z.min (start_y + 1) (goal_y + 1) else max_y in
  let potential_interference :=
    omap (interference_candidate element_id start_x start_y goal_x goal_y
            is_bottom_row min_x max_x min_y max_y) els in
  let max_elements := if is_bottom_row then 3%nat else 2%nat in
  map fst (take max_elements (sort_desc snd potential_interference)).

(** Reading an integer variable inside a function body.  [env] lists
    the integer-valued names bound at that point (parameters and locals
    assigned so far); the module itself binds only [heapq], [math],
    [random] and its five functions.  A name bound nowhere raises
    [NameError]. *)
Definition load_name (env : list (string * Z)) (name : string) : Res Z :=
  match List.find (λ b, String.eqb b.1 name) env with
  | Some b => Ok b.2
  | None => Raise (NameError name)
  end.

Definition blocked_on (g : Grid.t) (cells : list (Z * Z)) : bool :=
  existsb (λ p, Grid.is_wall g p.1 p.2 || Grid.is_element g p.1 p.2) cells.

Definition evaluate_state
    (g : Grid.t) (element : Element.t) (goal_x goal_y : Z)
    (interfering_elements : list Z) (els : list Element.t) (is_bottom_row : bool)
    : Res Qc :=
  let ex := Element.x element in
  let ey := Element.y element in
  let distance := Z.abs (ex - goal_x) + Z.abs (ey - goal_y) in
  let distance_score := -10 * distance in
  let rest (distance_score : Z) : Qc :=
    let path_clearness := 0 in
    let dx_sign := sign_to ex goal_x in
    let path_clearness :=
      if negb (dx_sign =? 0)
         && blocked_on g (map (λ cx, (cx, ey)) (py_range (ex + dx_sign) (goal_x + dx_sign) dx_sign))
      then path_clearness - 15 else path_clearness in
    let dy_sign := sign_to ey goal_y in
    let path_clearness :=
      if negb (dy_sign =? 0)
         && blocked_on g (map (λ cy, (ex, cy)) (py_range (ey + dy_sign) (goal_y + dy_sign) dy_sign))
      then (if is_bottom_row && (dy_sign <? 0)
            then path_clearness - 15 - 25 else path_clearness - 15)
      else path_clearness in
    let neighbors := Grid.get_neighbors g ex ey vonNeumann in
    let free p := negb (Grid.is_wall g p.1 p.2) && negb (Grid.is_element g p.1 p.2) in
    let free_neighbors := Z.of_nat (length (filter (λ p, free p = true) neighbors)) in
    let mobility_score := 5 * free_neighbors in
    let upward_path_score :=
      if is_bottom_row && existsb (λ p, (p.2 <? ey) && free p) neighbors
      then 40 else 0 in
    let interference_penalty :=
      foldl (λ penalty other_id,
               match lookup_element other_id els with
               | Some other =>
                   let other_distance :=
                     Z.abs (ex - Element.x other) + Z.abs (ey - Element.y other) in
                   let penalty :=
                     if other_distance <=? 2
                     then penalty - (3 - other_distance) * 10 else penalty in
                   if is_bottom_row && (Element.y other <? ey)
                      && (Z.abs (Element.x other - ex) <=? 1)
                   then penalty - 20 else penalty
               | None => penalty
               end) 0 interfering_elements in
    if is_bottom_row
    then (Qc_of_Z distance_score + Qc_of_Z path_clearness * Q2Qc (3 # 2)
          + Qc_of_Z mobility_score + Qc_of_Z upward_path_score
          + Qc_of_Z interference_penalty)%Qc
    else Qc_of_Z (distance_score + path_clearness + mobility_score + interference_penalty) in
  if is_bottom_row then
    match load_name [("goal_x", goal_x); ("goal_y", goal_y); ("distance", distance);
                     ("distance_score", distance_score)]%string "start_y" with
    | Ok start_y =>
        let vertical_progress := start_y - ey in
        let vertical_score := 20 * vertical_progress in
        let distance_score := if 9 <=? ey then distance_score - 100 else distance_score in
        let distance_score := distance_score + vertical_score in
        Ok (rest distance_score)
    | Raise e => Raise e
    | OutOfFuel => OutOfFuel
    end
  else Ok (rest distance_score).

Definition lift {A B} (f : A → B) (r : Res A) : M B :=
  λ w, match r with
       | Ok a => (Ok (f a), w)
       | Raise e => (Raise e, w)
       | OutOfFuel => (OutOfFuel, w)
       end.

(** The loop of a MAX node (no pruning). *)
Fixpoint max_loop (child : M QVal) (element_id : Z)
    (moves : list (Z * Z)) (value : QVal) : M QVal :=
  match moves with
  | [] => ret value
  | p :: rest =>
      old <- simulate_move element_id p ;;
      move_value <- child ;;
      _ <- simulate_move element_id old ;;
      max_loop child element_id rest (QVal.max value move_value)
  end.

(** The moves enumerated at a chance node: the free neighbours of the
    interfering element other than our element's cell, then "stay". *)
Definition chance_moves (g : Grid.t) (element other : Element.t)
    (topology : Topology) : list (Z * Z) :=
  let neighbors := Grid.get_neighbors g (Element.x other) (Element.y other) topology in
  let valid_moves :=
    filter (λ p, negb (Grid.is_wall g p.1 p.2)
                 && negb ((p.1 =? Element.x element) && (p.2 =? Element.y element))
                 && negb (Grid.is_element g p.1 p.2) = true) neighbors in
  valid_moves ++ [Element.pos other].

(** The weight given to one move of the interfering element. *)
Definition move_weight (g : Grid.t) (other : Element.t) (p : Z * Z) : Qc :=
  if (p.1 =? Element.x other) && (p.2 =? Element.y other) then
    if Grid.height g - 3 <=? Element.y other then Q2Qc 3 else Q2Qc (3 # 2)
  else 1%Qc.

(** The dictionary [move_weights], filled in the order of the moves. *)
Definition move_weights (g : Grid.t) (other : Element.t) (moves : list (Z * Z))
  : gmap (Z * Z) Qc :=
  foldl (λ weights p, <[p := move_weight g other p]> weights) ∅ moves.

(** [sum(move_weights.values())] *)
Definition total_weight (weights : gmap (Z * Z) Qc) : Qc :=
  map_fold (λ _ weight total, (weight + total)%Qc) 0%Qc weights.

(** [move_weights[(nx, ny)] / total_weight]; every move of the loop was
    entered into the dictionary before. *)
Definition probability (weights : gmap (Z * Z) Qc) (total : Qc) (p : Z * Z) : Qc :=
  (default 0%Qc (weights !! p) / total)%Qc.

(** The sum of a list of rationals. *)
Definition qsum (l : list Qc) : Qc := foldr Qcplus 0%Qc l.

Definition negligible (probability : Qc) : bool :=
  bool_decide (probability < Q2Qc (1 # 100))%Qc.

(** The loop of a chance node: the probability-weighted sum over the
    moves that are not negligible. *)
Fixpoint chance_loop (next : M QVal) (other_id : Z)
    (weights : gmap (Z * Z) Qc) (total : Qc)
    (moves : list (Z * Z)) (total_value : QVal) : M QVal :=
  match moves with
  | [] => ret total_value
  | p :: rest =>
      let probability := probability weights total p in
      if negligible probability then
        chance_loop next other_id weights total rest total_value
      else
        other <- get_element other_id ;;
        move_value <-
          (if bool_decide (p = Element.pos other) then next
           else
             old <- simulate_move other_id p ;;
             move_value <- next ;;
             _ <- simulate_move other_id old ;;
             ret move_value) ;;
        chance_loop next other_id weights total rest
          (QVal.add_scaled total_value probability move_value)
  end.

Fixpoint expectimax_value (fuel : nat) (element_id : Z) (interfering_elements : list Z)
    (depth max_depth : Z) (node_type : NodeType) (topology : Topology)
    (goal_x goal_y : Z) (is_bottom_row : bool) {struct fuel} : M QVal :=
  element <- get_element element_id ;;
  λ w,
  if max_depth <=? depth then
    lift FinQ (evaluate_state (grid w) element goal_x goal_y interfering_elements
                 (elements w) is_bottom_row) w
  else if (Element.x element =? goal_x) && (Element.y element =? goal_y) then
    (Ok (FinQ (Q2Qc 1000)), w)
  else
    match fuel with
    | O => (OutOfFuel, w)
    | S fuel =>
        match node_type with
        | max_node =>
            let valid_moves :=
              Grid.free_neighbors (grid w) (Element.x element) (Element.y element) topology in
            let valid_moves :=
              if is_bottom_row then
                match upward (Element.y element) valid_moves with
                | [] => valid_moves
                | upward_moves => upward_moves
                end
              else valid_moves in
            match valid_moves with
            | [] =>
                lift (λ v, FinQ (v - Q2Qc 20))
                  (evaluate_state (grid w) element goal_x goal_y interfering_elements
                     (elements w) is_bottom_row) w
            | _ =>
                let next_node_type :=
                  match interfering_elements with
                  | [] => max_node
                  | _ => chance_node
                  end in
                max_loop
                  (expectimax_value fuel element_id interfering_elements (depth + 1)
                     max_depth next_node_type topology goal_x goal_y is_bottom_row)
                  element_id valid_moves NegInfQ w
            end
        | chance_node =>
            match interfering_elements with
            | [] =>
                expectimax_value fuel element_id [] (depth + 1) max_depth max_node
                  topology goal_x goal_y is_bottom_row w
            | other_id :: remaining_elements =>
                (* the next interfering element at this depth, or our
                   element again one level deeper *)
                let next :=
                  match remaining_elements with
                  | [] =>
                      expectimax_value fuel element_id [] (depth + 1) max_depth max_node
                        topology goal_x goal_y is_bottom_row
                  | _ =>
                      expectimax_value fuel element_id remaining_elements depth max_depth
                        chance_node topology goal_x goal_y is_bottom_row
                  end in
                match lookup_element other_id (elements w) with
                | None => next w
                | Some other =>
                    let valid_moves := chance_moves (grid w) element other topology in
                    let weights := move_weights (grid w) other valid_moves in
                    chance_loop next other_id weights (total_weight weights)
                      valid_moves (FinQ 0) w
                end
            end
        end
    end.

(** The loop of [expectimax_pathfind] over the first moves. *)
Fixpoint root_loop (child : M QVal) (element_id : Z) (original : Z * Z)
    (is_bottom_row : bool) (start_y : Z) (moves : list (Z * Z))
    (best_move : option (Z * Z)) (best_value : QVal) (nodes_explored : Z)
    : M (option (Z * Z) * Z) :=
  match moves with
  | [] => ret (best_move, nodes_explored)
  | p :: rest =>
      _ <- simulate_move element_id p ;;
      value <- child ;;
      let nodes_explored := nodes_explored + 1 in
      let value :=
        if is_bottom_row && (p.2 <? start_y) then QVal.add value (Q2Qc 100) else value in
      _ <- simulate_move element_id original ;;
      let better := QVal.ltb best_value value in
      let best_value := if better then value else best_value in
      let best_move := if better then Some p else best_move in
      root_loop child element_id original is_bottom_row start_y rest
        best_move best_value nodes_explored
  end.

(** The first move of the escape fast path of a bottom-row element,
    given its upward moves [up :: ups]. *)
Definition escape_move (rnd : Rand) (topology : Topology)
    (start_x start_y goal_x : Z) (up : Z * Z) (ups : list (Z * Z)) : Z * Z :=
  if bool_decide (topology = moore) && (1 <? Z.of_nat (length (up :: ups))) then
    let target_dx := goal_x - start_x in
    let diagonal_toward_target :=
      filter (λ p, ((0 <? target_dx) && (start_x <? p.1))
                   || ((target_dx <? 0) && (p.1 <? start_x)) = true) (up :: ups) in
    if 1 <? Z.abs target_dx then
      match diagonal_toward_target with
      | d :: ds => choice rnd d ds
      | [] => up
      end
    else up
  else
    let straight_up := (start_x, start_y - 1) in
    if bool_decide (straight_up ∈ up :: ups) then straight_up else up.

Section Pathfind.

Variable astar_pathfind : Pathfinder.

Definition expectimax_pathfind (rnd : Rand) (start_x start_y goal_x goal_y : Z)
    (element_id : Z) (topology : Topology) (max_depth : Z)
    : M (option (list (Z * Z)) * Z) :=
  λ w,
  let g := grid w in
  if negb (Grid.is_valid_position g start_x start_y)
     || negb (Grid.is_valid_position g goal_x goal_y) then (Ok (None, 0), w)
  else if Grid.is_wall g start_x start_y || Grid.is_wall g goal_x goal_y then
    (Ok (None, 0), w)
  else if (start_x =? goal_x) && (start_y =? goal_y) then
    (Ok (Some [(start_x, start_y)], 1), w)
  else
    match lookup_element element_id (elements w) with
    | None => (Ok (None, 0), w)
    | Some element =>
        let num_elements := Z.of_nat (length (elements w)) in
        let max_depth :=
          if 15 <? num_elements then 1
          else if 10 <? num_elements then 2 else max_depth in
        let is_bottom_row := Grid.height g - 3 <=? Element.y element in
        let interfering_elements :=
          find_interfering_elements (elements w) element_id
            start_x start_y goal_x goal_y is_bottom_row in
        let original := Element.pos element in
        let valid_moves := Grid.free_neighbors g start_x start_y topology in
        let fast_path :=
          if is_bottom_row then
            match upward start_y valid_moves with
            | [] => None
            | up :: ups => Some (escape_move rnd topology start_x start_y goal_x up ups)
            end
          else None in
        match fast_path with
        | Some first => (Ok (Some [(start_x, start_y); first], 1), w)
        | None =>
            match valid_moves with
            | [] => (Ok (Some [(start_x, start_y)], 1), w)
            | _ =>
                (searched <-
                   root_loop
                     (expectimax_value
                        (Z.to_nat max_depth + length interfering_elements)
                        element_id interfering_elements 1 max_depth max_node
                        topology goal_x goal_y is_bottom_row)
                     element_id original is_bottom_row start_y valid_moves
                     None NegInfQ 0 ;;
                 match searched with
                 | (None, nodes_explored) => ret (None, nodes_explored)
                 | (Some best_move, nodes_explored) =>
                     let path := [(start_x, start_y); best_move] in
                     if is_bottom_row then ret (Some path, nodes_explored)
                     else
                       λ w,
                       match lookup_element element_id (elements w) with
                       | None => (Raise (KeyError element_id), w)
                       | Some element =>
                           let g1 := Grid.remove_element (grid w) element in
                           let sub :=
                             astar_pathfind g1 best_move.1 best_move.2 goal_x goal_y topology in
                           let g2 := Grid.add_element g1 element in
                           (Ok (extend_path path sub nodes_explored),
                            mkWorld g2 (elements w))
                       end
                 end) w
            end
        end
    end.

End Pathfind.

End Expectimax.

(** * The orchestrator ([app/controllers/simulation.py]) *)

Record Move := mkMove {
  agentId : Z;
  from : Z * Z;
  to : Z * Z
}.

Module Simulation.

(** Modelled from the spec: [move(id, x, y)] of section 4.1 fails,
    changing nothing, if the destination is out of bounds, a wall or
    occupied; otherwise it updates the cell array and the element's
    stored position together. *)
Definition move_element (i : Z) (p : Z * Z) : M bool :=
  element <- get_element i ;;
  λ w,
  let g := grid w in
  if Grid.is_valid_position g p.1 p.2 && negb (Grid.is_wall g p.1 p.2)
     && negb (Grid.is_element g p.1 p.2)
  then (Ok true, place_at element p w)
  else (Ok false, w).

(** One round of parallel movement in centralized mode, lines 222-233:
    [planned_moves] pairs an element (by id) with its next scheduled
    cell, already in the order of the sort.  The result is the list of
    moves this round appends to [total_moves]. *)
Fixpoint commit_centralized (planned_moves : list (Z * (Z * Z)))
    (positions_taken : gset (Z * Z)) (round_moves : list Move) : M (list Move) :=
  match planned_moves with
  | [] => ret round_moves
  | (element_id, pos) :: rest =>
      if bool_decide (pos ∈ positions_taken) then
        commit_centralized rest positions_taken round_moves
      else
        success <- move_element element_id pos ;;
        if (success : bool) then
          element <- get_element element_id ;;
          let move := mkMove element_id (Element.pos element) pos in
          commit_centralized rest ({[pos]} ∪ positions_taken) (round_moves ++ [move])
        else commit_centralized rest positions_taken round_moves
  end.

Definition centralized_round (planned_moves : list (Z * (Z * Z))) : M (list Move) :=
  commit_centralized planned_moves ∅ [].

(** The reservation pass of independent mode, lines 883-894. *)
Fixpoint reserve (moves_this_round : list (Z * (Z * Z)))
    (reservations : gmap (Z * Z) Z) (valid_moves_this_round : list (Z * (Z * Z)))
    : list (Z * (Z * Z)) :=
  match moves_this_round with
  | [] => valid_moves_this_round
  | (element_id, next) :: rest =>
      match reservations !! next with
      | None =>
          reserve rest (<[next := element_id]> reservations)
            (valid_moves_this_round ++ [(element_id, next)])
      | Some _ => reserve rest reservations valid_moves_this_round
      end
  end.

(** The execution pass, lines 896-920: the moves appended to
    [total_moves], [executed_move_count] and the blocked set. *)
Fixpoint execute (valid_moves_this_round : list (Z * (Z * Z)))
    (round_moves : list Move) (executed_move_count : Z) (blocked_elements : gset Z)
    : M (list Move * Z * gset Z) :=
  match valid_moves_this_round with
  | [] => ret (round_moves, executed_move_count, blocked_elements)
  | (element_id, next) :: rest =>
      element <- get_element element_id ;;
      let old_pos := Element.pos element in
      success <- move_element element_id next ;;
      if (success : bool) then
        execute rest (round_moves ++ [mkMove element_id old_pos next])
          (executed_move_count + 1) (blocked_elements ∖ {[element_id]})
      else execute rest round_moves executed_move_count blocked_elements
  end.

Definition independent_round (moves_this_round : list (Z * (Z * Z)))
    (blocked_elements : gset Z) : M (list Move * Z * gset Z) :=
  execute (reserve moves_this_round ∅ []) [] 0 blocked_elements.

(** The success metrics that close [_transform_independent],
    lines 941-958. *)
Definition total_with_targets (els : list Element.t) : Z :=
  Z.of_nat (length (filter (λ e, Element.has_target e = true) els)).

Definition elements_at_target (els : list Element.t) : Z :=
  Z.of_nat (length (filter (λ e, Element.has_target e && Element.at_target e = true) els)).

Definition success_rate (els : list Element.t) : Qc :=
  if 0 <? total_with_targets els
  then (Qc_of_Z (elements_at_target els) / Qc_of_Z (total_with_targets els))%Qc
  else 0%Qc.

Definition success (els : list Element.t) : bool :=
  bool_decide (Q2Qc (95 # 100) < success_rate els)%Qc.

(** ** Target swapping, lines 1089-1141 *)

(** [blocked_new_dist + other_new_dist < blocked_curr_dist + other_curr_dist] *)
Definition swap_improves (blocked other : Element.t) : bool :=
  match Element.target_x blocked, Element.target_y blocked,
        Element.target_x other, Element.target_y other with
  | Some btx, Some bty, Some otx, Some oty =>
      let blocked_curr_dist := Element.distance_to_target blocked in
      let other_curr_dist := Element.distance_to_target other in
      let blocked_new_dist :=
        Z.abs (Element.x blocked - otx) + Z.abs (Element.y blocked - oty) in
      let other_new_dist :=
        Z.abs (Element.x other - btx) + Z.abs (Element.y other - bty) in
      blocked_new_dist + other_new_dist <? blocked_curr_dist + other_curr_dist
  | _, _, _, _ => false
  end.

(** The two nested loops: the first pair, in loop order, that improves. *)
Fixpoint find_swap (blocked_element_objects other_elements : list Element.t)
  : option (Element.t * Element.t) :=
  match blocked_element_objects with
  | [] => None
  | blocked :: rest =>
      match List.find (swap_improves blocked) other_elements with
      | Some other => Some (blocked, other)
      | None => find_swap rest other_elements
      end
  end.

(** The targets of the two objects exchanged, everything else as it was. *)
Definition exchange_targets (blocked other : Element.t) (els : list Element.t)
  : list Element.t :=
  let els :=
    update_element (Element.id blocked)
      (Element.set_target (Element.target_x other) (Element.target_y other)) els in
  update_element (Element.id other)
    (Element.set_target (Element.target_x blocked) (Element.target_y blocked)) els.

(** [blocked_elements] is a set; the list gives the order in which
    Python happens to iterate over it. *)
Definition blocked_objects (blocked_elements : list Z) (els : list Element.t)
  : list Element.t :=
  filter (λ e, Element.has_target e = true)
         (omap (λ eid, lookup_element eid els) blocked_elements).

Definition unsettled_others (blocked_elements : list Z) (els : list Element.t)
  : list Element.t :=
  filter (λ e, negb (bool_decide (Element.id e ∈ blocked_elements))
               && Element.has_target e && negb (Element.at_target e) = true) els.

Definition _swap_targets_for_blocked_elements (blocked_elements : list Z)
    (els : list Element.t) : bool * list Element.t :=
  match blocked_elements with
  | [] => (false, els)
  | _ =>
      match blocked_objects blocked_elements els with
      | [] => (false, els)
      | blocked_element_objects =>
          match unsettled_others blocked_elements els with
          | [] => (false, els)
          | other_elements =>
              match find_swap blocked_element_objects other_elements with
              | Some (blocked, other) => (true, exchange_targets blocked other els)
              | None => (false, els)
              end
          end
      end
  end.

(** The schedule of the swap in [_transform_independent],
    lines 523-528. *)
Definition swap_frequency (topology : Topology) : Z :=
  match topology with
  | vonNeumann => 15
  | moore => 20
  end.

Definition swap_attempted (topology : Topology) (current_step : Z)
    (blocked_elements : list Z) : bool :=
  (100 <? current_step)
  && negb (bool_decide (blocked_elements = []))
  && (current_step mod swap_frequency topology =? 0).

(** What the loop of [_transform_independent] carries from tick to tick
    and the swap block resets: [stuck_counter], [position_history] and
    [blocked_elements] (lines 476-483). *)
Record Tracking := mkTracking {
  stuck_counter : gmap Z Z;
  position_history : gmap Z (list (Z * Z));
  blocked_elements : list Z
}.

(** The block "special target swapping for stuck elements" of one tick
    of the loop, lines 521-536.  The first component of the result tells
    whether the block reached [print("Attempting target reassignment for
    blocked elements...")] and the call that follows it. *)
Definition swap_block (topology : Topology) (current_step : Z) (t : Tracking)
    (els : list Element.t) : bool * Tracking * list Element.t :=
  if (100 <? current_step) && negb (bool_decide (blocked_elements t = [])) then
    let swap_frequency := match topology with vonNeumann => 15 | moore => 20 end in
    if current_step mod swap_frequency =? 0 then
      let (target_swapped, els') :=
        _swap_targets_for_blocked_elements (blocked_elements t) els in
      if target_swapped then (true, mkTracking ∅ ∅ [], els') else (true, t, els')
    else (false, t, els)
  else (false, t, els).

End Simulation.

(** * Invariant I1 *)

(** I1: the object stored under an id stands on a cell that the grid
    marks with that id. *)
Definition I1 (w : World) : Prop :=
  ∀ i e, lookup_element i (elements w) = Some e →
         Grid.occupancy (grid w) !! Element.pos e = Some i.

Definition free_cell (w : World) (p : Z * Z) : Prop :=
  Grid.occupancy (grid w) !! p = None.


Definition present (i : Z) (w : World) : Prop :=
  is_Some (lookup_element i (elements w)).

(** The two ways a call can end: it returns a value and leaves the world
    as it found it, or it raises. *)
Definition returns_restoring {A} (m : M A) (w : World) : Prop :=
  ∃ a, m w = (Ok a, w).

Definition raises {A} (m : M A) (w : World) : Prop :=
  ∃ e w', m w = (Raise e, w').

(** A call that may raise only when [flag] is set: it returns and
    restores the world, or ([flag] being set) it raises. *)
Definition returns_or_raises {A} (flag : bool) (m : M A) (w : World) : Prop :=
  returns_restoring m w ∨ (flag = true ∧ raises m w).

(** A decidable form of I1 for concrete worlds. *)
Definition I1b (w : World) : bool :=
  forallb (λ e, bool_decide (Grid.occupancy (grid w) !! Element.pos e = Some (Element.id e)))
          (elements w).

(** [element.y >= grid.height - 3] for the element stored under [i]. *)
Definition in_bottom_rows (i : Z) (w : World) : bool :=
  match lookup_element i (elements w) with
  | Some e => Grid.height (grid w) - 3 <=? Element.y e
  | None => false
  end.

(** * Concrete worlds *)

Module Scenario.

(** The border of a [width] x [height] grid, walled as the simulation
    does ([boundary_size = 1]). *)
Definition border (width height : Z) : gset (Z * Z) :=
  list_to_set
    (flat_map (λ cx, [(cx, 0); (cx, height - 1)]) (seqZ 0 width)
     ++ flat_map (λ cy, [(0, cy); (width - 1, cy)]) (seqZ 0 height)).

(** A world from a list of elements: each is placed on its cell. *)
Definition world (width height : Z) (els : list Element.t) : World :=
  mkWorld
    (Grid.mk width height (border width height)
       (list_to_map (map (λ e, (Element.pos e, Element.id e)) els)))
    els.

(** The baseline path finder is never reached in the scenarios below;
    this one finds nothing. *)
Definition no_path : Pathfinder := λ _ _ _ _ _ _, (None, 0).

Definition rnd0 : Rand := mkRand false 0.

(** A 12 x 12 grid.  Element 0 stands in the bottom rows at (5, 10)
    with target (5, 2); the cell above it is free, but element 1, without
    a target, stands further up in its column at (5, 8). *)
Definition blocked_column : World :=
  world 12 12 [Element.mk 0 5 10 (Some 5) (Some 2); Element.mk 1 5 8 None None].

(** The same grid with element 1 directly above element 0, so that
    element 0 can only move sideways. *)
Definition no_way_up : World :=
  world 12 12 [Element.mk 0 5 10 (Some 5) (Some 2); Element.mk 1 5 9 None None].

(** Element 0 walled in by three elements and the border. *)
Definition enclosed : World :=
  world 12 12 [Element.mk 0 5 10 (Some 5) (Some 2); Element.mk 1 5 9 None None;
               Element.mk 2 4 10 None None; Element.mk 3 6 10 None None].

(** Two elements in the middle of the grid, away from the bottom rows. *)
Definition midfield : World :=
  world 12 12 [Element.mk 0 5 5 (Some 5) (Some 2); Element.mk 1 6 4 (Some 3) (Some 4)].

(** Element 0 standing on its target (5, 2). *)
Definition on_goal : World :=
  world 12 12 [Element.mk 0 5 2 (Some 5) (Some 2)].

(** A grid 80 rows tall: element 0 at (5, 71) with target (5, 2) and a
    free column above it, element 1 beside it. *)
Definition tall : World :=
  world 12 80 [Element.mk 0 5 71 (Some 5) (Some 2); Element.mk 1 6 71 None None].

(** Three elements in a row on an open field; the two outer ones are
    scheduled to step onto the same free cell (5, 4). *)
Definition contested : World :=
  world 12 12 [Element.mk 0 4 4 (Some 6) (Some 4); Element.mk 1 6 4 (Some 4) (Some 4);
               Element.mk 2 5 6 (Some 5) (Some 5)].

(** Twenty elements with targets, laid out in two rows of ten; all but
    element 19 stand on their target. *)
Definition nineteen_of_twenty : list Element.t :=
  map (λ k, Element.mk k (1 + k mod 10) (1 + k / 10)
              (Some (1 + k mod 10)) (Some (if k =? 19 then 5 else 1 + k / 10)))
      (seqZ 0 20).

(** The state in which the callers start a path search (lines 174-185:
    [grid.remove_element(element)] comes before [find_path]): [midfield]
    with element 0 taken off the grid, still stored at (5, 5). *)
Definition lifted : World :=
  mkWorld (Grid.remove_element (grid midfield) (Element.mk 0 5 5 (Some 5) (Some 2)))
          (elements midfield).

(** Two elements each standing next to the other's target: element 0
    at (1, 1) with target (5, 5), element 1 at (5, 4) with target (1, 2). *)
Definition crossed : list Element.t :=
  [Element.mk 0 1 1 (Some 5) (Some 5); Element.mk 1 5 4 (Some 1) (Some 2)].

End Scenario.

(** * Further parts of the sources *)

(** The list [adversaries] of [find_potential_adversaries] as it is just
    before the sort: the scored candidates in the order of
    [controller.elements]. *)
Definition minimax_candidates
    (els : list Element.t) (element_id start_x start_y goal_x goal_y : Z)
    (bottom_row_priority : bool) : list (Z * Z) :=
  let min_x := Z.min start_x goal_x - 2 in
  let max_x := Z.max start_x goal_x + 2 in
  let min_y := Z.min start_y goal_y - 2 in
  let max_y := Z.max start_y goal_y + 2 in
  let min_y := if bottom_row_priority then Z.min (start_y - 3) goal_y else min_y in
  let max_y := if bottom_row_priority then Z.min (start_y + 1) (goal_y + 1) else max_y in
  omap (Minimax.adversary_candidate element_id start_x start_y goal_x goal_y
          bottom_row_priority min_x max_x min_y max_y) els.

(** The list [potential_interference] of [find_interfering_elements]
    before the sort. *)
Definition expectimax_candidates
    (els : list Element.t) (element_id start_x start_y goal_x goal_y : Z)
    (is_bottom_row : bool) : list (Z * Z) :=
  let min_x := Z.min start_x goal_x - 2 in
  let max_x := Z.max start_x goal_x + 2 in
  let min_y := Z.min start_y goal_y - 2 in
  let max_y := Z.max start_y goal_y + 2 in
  let min_y := if is_bottom_row then Z.min (start_y - 3) goal_y else min_y in
  let max_y := if is_bottom_row then Z.min (start_y + 1) (goal_y + 1) else max_y in
  omap (Expectimax.interference_candidate element_id start_x start_y goal_x goal_y
          is_bottom_row min_x max_x min_y max_y) els.

(** An element that has a target and does not stand on it. *)
Definition unsettled (e : Element.t) : Prop :=
  ∃ tx ty, Element.target_x e = Some tx ∧ Element.target_y e = Some ty
           ∧ Element.pos e ≠ (tx, ty).

(** A list is in descending order of [key]: what [list.sort(key=...,
    reverse=True)] establishes. *)
Definition descending {A} (key : A → Z) (l : list A) : Prop :=
  ∀ i j a b, (i < j)%nat → l !! i = Some a → l !! j = Some b → key b ≤ key a.


(** The closing metrics of [_transform_centralized], lines 239-251. *)
Definition all_at_target (els : list Element.t) : bool :=
  forallb Element.at_target (filter (λ e, Element.has_target e = true) els).

Definition total_elements (els : list Element.t) : Z :=
  Z.of_nat (length (filter (λ e, Element.has_target e = true) els)).

Definition at_target_count (els : list Element.t) : Z :=
  Z.of_nat (length (filter (λ e, Element.has_target e && Element.at_target e = true) els)).

Definition centralized_success_rate (els : list Element.t) : Qc :=
  if 0 <? total_elements els
  then (Qc_of_Z (at_target_count els) / Qc_of_Z (total_elements els))%Qc
  else 0%Qc.

(** The sum of the distances that remain, [distance_to_target()] summed
    over the elements: the measure a target swap is meant to lower. *)
Definition total_distance (els : list Element.t) : Z :=
  foldr (λ e acc, Element.distance_to_target e + acc) 0 els.

(** ** The order in which the requests of a round are served, lines 875-878 *)







(** ** Position history and pattern detection, lines 556-602 *)

(** [l[-n:]] for a positive [n]: the last [n] entries, or all of [l]
    when it is shorter. *)
Definition last_n {A} (n : nat) (l : list A) : list A := drop (length l - n) l.

(** The update of [position_history] and [stuck_counter] for one
    element of one tick, lines 556-572.  [None] stands for the [IndexError]
    that [position_history[element_id][-1]] raises on an empty list. *)
Definition record_position (element_id : Z) (current_pos : Z * Z)
    (t : Simulation.Tracking) : option Simulation.Tracking :=
  match Simulation.position_history t !! element_id with
  | None =>
      Some (Simulation.mkTracking (Simulation.stuck_counter t)
              (<[element_id := [current_pos]]> (Simulation.position_history t))
              (Simulation.blocked_elements t))
  | Some history =>
      match last history with
      | None => None
      | Some previous =>
          let (history, stuck_counter) :=
            if bool_decide (previous ≠ current_pos)
            then (history ++ [current_pos], <[element_id := 0]> (Simulation.stuck_counter t))
            else (history,
                  <[element_id := default 0 (Simulation.stuck_counter t !! element_id) + 1]>
                    (Simulation.stuck_counter t)) in
          let history :=
            if (8 <? length history)%nat then last_n 8 history else history in
          Some (Simulation.mkTracking stuck_counter
                  (<[element_id := history]> (Simulation.position_history t))
                  (Simulation.blocked_elements t))
      end
  end.

(** The pattern detection of one element, lines 574-602: the pair
    [(is_deadlocked, pattern_length)] for its recorded positions.  Under the
    guard on the length every negative index used here exists. *)
Definition detect_pattern (topology : Topology) (positions : list (Z * Z)) : bool * Z :=
  let n := length positions in
  if (4 <=? n)%nat then
    let (is_deadlocked, pattern_length) :=
      if (length (remove_dups (last_n 4 positions)) <=? 2)%nat
         && bool_decide (positions !! (n - 4)%nat = positions !! (n - 2)%nat)
         && bool_decide (positions !! (n - 3)%nat = positions !! (n - 1)%nat)
      then (true, 2) else (false, 0) in
    let (is_deadlocked, pattern_length) :=
      if (8 <=? n)%nat && bool_decide (last_n 4 positions = take 4 (last_n 8 positions))
      then (true, 4) else (is_deadlocked, pattern_length) in
    if bool_decide (topology = vonNeumann)
       && (length (remove_dups (last_n 3 positions)) <=? 2)%nat
       && negb is_deadlocked
    then
      let all_same_x :=
        forallb (λ pos : Z * Z, bool_decide (Some pos.1 = fst <$> last positions))
                (last_n 3 positions) in
      let all_same_y :=
        forallb (λ pos : Z * Z, bool_decide (Some pos.2 = snd <$> last positions))
                (last_n 3 positions) in
      if all_same_x || all_same_y then (true, 2) else (is_deadlocked, pattern_length)
    else (is_deadlocked, pattern_length)
  else (false, 0).

(** A recorded history as the loop keeps it: not empty, at most eight
    positions, no position recorded twice in a row. *)
Definition history_ok (history : list (Z * Z)) : Prop :=
  history ≠ [] ∧ (length history ≤ 8)%nat
  ∧ ∀ i p q, history !! i = Some p → history !! S i = Some q → p ≠ q.

(** The four tests of [detect_pattern] as opaque booleans. *)
Ltac detect_pattern_tests :=
  unfold detect_pattern; cbv zeta;
  match goal with
  | |- context [forallb ?f ?l || forallb ?g ?l] => generalize (forallb f l || forallb g l)
  end;
  match goal with |- context [?c && negb _] => generalize c end;
  match goal with
  | |- context [if ?c then (true, 4) else _] => generalize c
  end;
  match goal with
  | |- context [if ?c then (true, 2) else (false, 0)] => generalize c
  end.

(** * Frame lemmas of a simulated move *)

Lemma lookup_element_id i els e :
  lookup_element i els = Some e → Element.id e = i.
Proof.
  unfold lookup_element. intros H. apply find_some in H as [_ H]. lia.
Qed.

Lemma lookup_update_eq i f els :
  (∀ e, Element.id (f e) = Element.id e) →
  lookup_element i (update_element i f els) = f <$> lookup_element i els.
Proof.
  intros Hf. induction els as [|e els IH]; simpl; [done|].
  destruct (Element.id e =? i) eqn:E; simpl.
  - by rewrite Hf, E.
  - by rewrite E.
Qed.

Lemma lookup_update_ne i j f els :
  (∀ e, Element.id (f e) = Element.id e) → i ≠ j →
  lookup_element j (update_element i f els) = lookup_element j els.
Proof.
  intros Hf Hij. induction els as [|e els IH]; simpl; [done|].
  destruct (Element.id e =? i) eqn:E; simpl.
  - rewrite Hf. destruct (Element.id e =? j) eqn:E'; [lia|done].
  - destruct (Element.id e =? j); done.
Qed.

Lemma set_pos_pos p e : Element.pos (Element.set_pos p e) = p.
Proof. by destruct p. Qed.

Lemma set_pos_id p e : Element.id (Element.set_pos p e) = Element.id e.
Proof. done. Qed.

Lemma set_pos_back p e : Element.set_pos (Element.pos e) (Element.set_pos p e) = e.
Proof. by destruct e. Qed.

Lemma update_element_back i p e els :
  lookup_element i els = Some e →
  update_element i (Element.set_pos (Element.pos e)) (update_element i (Element.set_pos p) els)
  = els.
Proof.
  induction els as [|a els IH]; simpl; [done|].
  destruct (Element.id a =? i) eqn:E; simpl.
  - intros [= ->]. rewrite E. by rewrite set_pos_back.
  - intros H. rewrite E. by rewrite IH.
Qed.

(** After a simulated move the object is found at its new cell. *)
Lemma lookup_place_at e p w :
  lookup_element (Element.id e) (elements w) = Some e →
  lookup_element (Element.id e) (elements (place_at e p w)) = Some (Element.set_pos p e).
Proof.
  intros H. simpl. rewrite lookup_update_eq by done. by rewrite H.
Qed.

(** A simulated move to a free cell keeps I1. *)
Lemma place_at_I1 e p w :
  I1 w → lookup_element (Element.id e) (elements w) = Some e → free_cell w p →
  I1 (place_at e p w).
Proof.
  intros HI He Hp j a. simpl.
  destruct (decide (Element.id e = j)) as [<-|Hne].
  - rewrite lookup_update_eq by done. rewrite He. intros [= <-].
    rewrite set_pos_pos. by rewrite lookup_insert_eq.
  - rewrite lookup_update_ne by done. intros Ha.
    pose proof (HI _ _ Ha) as Hocc. pose proof (HI _ _ He) as Hocc_e.
    rewrite set_pos_pos.
    rewrite lookup_insert_ne.
    + rewrite lookup_delete_ne; [done|]. intros Heq. rewrite Heq in Hocc_e. congruence.
    + intros ->. unfold free_cell in Hp. congruence.
Qed.

(** Moving to a free cell and back restores the world exactly. *)
Lemma place_at_back e p w :
  I1 w → lookup_element (Element.id e) (elements w) = Some e → free_cell w p →
  place_at (Element.set_pos p e) (Element.pos e) (place_at e p w) = w.
Proof.
  intros HI He Hp. pose proof (HI _ _ He) as Hocc.
  destruct w as [[wd ht wl occ] els]. unfold place_at, free_cell in *.
  cbn [grid elements] in *. rewrite set_pos_id.
  rewrite (update_element_back _ _ _ _ He).
  f_equal. unfold Grid.remove_element, Grid.add_element.
  cbn [Grid.width Grid.height Grid.walls Grid.occupancy] in *.
  rewrite !set_pos_pos, set_pos_back, set_pos_id. f_equal.
  rewrite delete_insert_eq.
  rewrite (delete_id (delete _ _)) by (apply lookup_delete_None; by right).
  rewrite insert_delete_eq. by apply insert_id.
Qed.

(** The other cells stay free or taken as they were, so a list of free
    cells can be tried one after the other. *)
Lemma simulate_move_spec i p w :
  I1 w → free_cell w p →
  ∀ e, lookup_element i (elements w) = Some e →
  simulate_move i p w = (Ok (Element.pos e), place_at e p w)
  ∧ I1 (place_at e p w)
  ∧ simulate_move i (Element.pos e) (place_at e p w) = (Ok p, w).
Proof.
  intros HI Hp e He. pose proof (lookup_element_id _ _ _ He) as Hid. subst i.
  unfold simulate_move. rewrite He. split; [done|]. split; [by apply place_at_I1|].
  rewrite lookup_place_at by done. rewrite set_pos_pos.
  by rewrite place_at_back.
Qed.

Lemma place_at_present e p w j :
  present j w → present j (place_at e p w).
Proof.
  unfold present. simpl. intros [a Ha].
  destruct (decide (Element.id e = j)) as [<-|Hne].
  - rewrite lookup_update_eq by done. rewrite Ha. by eexists.
  - rewrite lookup_update_ne by done. by eexists.
Qed.

Lemma bind_ok {A B} (m : M A) (k : A → M B) w a w1 :
  m w = (Ok a, w1) → bind m k w = k a w1.
Proof. unfold bind. by intros ->. Qed.

Lemma bind_raise {A B} (m : M A) (k : A → M B) w e w1 :
  m w = (Raise e, w1) → bind m k w = (Raise e, w1).
Proof. unfold bind. by intros ->. Qed.

Lemma get_element_ok i w e :
  lookup_element i (elements w) = Some e → get_element i w = (Ok e, w).
Proof. unfold get_element. by intros ->. Qed.

Lemma not_is_element_free w p :
  Grid.is_element (grid w) p.1 p.2 = false → free_cell w p.
Proof.
  unfold Grid.is_element, free_cell. destruct p as [px py]. simpl.
  intros H. apply bool_decide_eq_false in H.
  destruct (Grid.occupancy (grid w) !! (px, py)) eqn:E; [|done].
  exfalso. apply H. by eexists.
Qed.

Lemma free_neighbors_free w px py topology :
  Forall (free_cell w) (Grid.free_neighbors (grid w) px py topology).
Proof.
  apply Forall_forall. intros p Hp. unfold Grid.free_neighbors in Hp.
  apply list_elem_of_filter in Hp as [Hp _].
  apply andb_true_iff in Hp as [_ Hp]. apply negb_true_iff in Hp.
  by apply not_is_element_free.
Qed.

Lemma upward_Forall (P : Z * Z → Prop) row moves :
  Forall P moves → Forall P (upward row moves).
Proof.
  rewrite !Forall_forall. intros H p Hp. apply H.
  unfold upward in Hp. by apply list_elem_of_filter in Hp as [_ Hp].
Qed.

(** Taking an element off the grid and putting it back, as done around
    the call of the baseline path finder. *)
Lemma remove_add_element w i e :
  I1 w → lookup_element i (elements w) = Some e →
  mkWorld (Grid.add_element (Grid.remove_element (grid w) e) e) (elements w) = w.
Proof.
  intros HI He. pose proof (HI _ _ He) as Hocc.
  pose proof (lookup_element_id _ _ _ He) as <-.
  destruct w as [[wd ht wl occ] els]. unfold Grid.add_element, Grid.remove_element.
  simpl in *. do 2 f_equal. rewrite insert_delete_eq. by apply insert_id.
Qed.

Lemma I1b_correct w : I1b w = true → I1 w.
Proof.
  unfold I1b, I1. intros H i e He.
  pose proof (lookup_element_id _ _ _ He) as <-.
  unfold lookup_element in He. apply find_some in He as [Hin _].
  rewrite forallb_forall in H. apply H in Hin. by apply bool_decide_eq_true in Hin.
Qed.

(** ** Minimax leaves the world as it found it *)

Module MinimaxFrame.
Import Minimax.

Lemma max_loop_returns child i moves :
  (∀ a b w, I1 w → present i w → returns_restoring (child a b) w) →
  ∀ value alpha beta w, I1 w → present i w → Forall (free_cell w) moves →
  returns_restoring (max_loop child i moves value alpha beta) w.
Proof.
  intros Hchild. induction moves as [|p rest IH]; intros value alpha beta w HI Hi Hfree.
  - by eexists.
  - apply Forall_cons in Hfree as [Hp Hrest]. destruct Hi as [e He].
    destruct (simulate_move_spec i p w HI Hp e He) as (Hgo & HI1 & Hback).
    pose proof (lookup_element_id _ _ _ He) as Hid.
    assert (present i (place_at e p w)) as Hi1.
    { apply place_at_present. by eexists. }
    destruct (Hchild alpha beta _ HI1 Hi1) as [mv Hmv].
    unfold returns_restoring. cbn [max_loop]. rewrite (bind_ok _ _ _ _ _ Hgo), (bind_ok _ _ _ _ _ Hmv),
      (bind_ok _ _ _ _ _ Hback).
    destruct (Val.leb _ _); [by eexists|].
    apply IH; [done| by eexists | done].
Qed.

Lemma min_loop_returns child i j moves :
  (∀ a b w, I1 w → present i w → returns_restoring (child a b) w) →
  ∀ value alpha beta w e, I1 w → present i w →
  lookup_element j (elements w) = Some e →
  Forall (λ p, free_cell w p ∨ p = Element.pos e) moves →
  returns_restoring (min_loop child j moves value alpha beta) w.
Proof.
  intros Hchild. induction moves as [|p rest IH]; intros value alpha beta w e HI Hi He Hmoves.
  - by eexists.
  - apply Forall_cons in Hmoves as [Hp Hrest].
    unfold returns_restoring. cbn [min_loop]. rewrite (bind_ok _ _ _ _ _ (get_element_ok _ _ _ He)).
    assert (∃ mv,
      (if bool_decide (p = Element.pos e) then child alpha beta
       else bind (simulate_move j p) (λ old,
              bind (child alpha beta) (λ move_value,
                bind (simulate_move j old) (λ _, ret move_value)))) w = (Ok mv, w))
      as [mv Hmv].
    { case_bool_decide as Hstay.
      - by apply Hchild.
      - destruct Hp as [Hp|Hp]; [|done].
        destruct (simulate_move_spec j p w HI Hp e He) as (Hgo & HI1 & Hback).
        destruct (Hchild alpha beta _ HI1 (place_at_present _ _ _ _ Hi)) as [mv Hmv].
        exists mv.
        by rewrite (bind_ok _ _ _ _ _ Hgo), (bind_ok _ _ _ _ _ Hmv),
          (bind_ok _ _ _ _ _ Hback). }
    rewrite (bind_ok _ _ _ _ _ Hmv).
    destruct (Val.leb _ _); [by eexists|].
    by eapply IH.
Qed.

Lemma adversary_moves_ok w element adversary topology b :
  Forall (λ p, free_cell w p ∨ p = Element.pos adversary)
    (adversary_moves (grid w) element adversary topology b).
Proof.
  unfold adversary_moves.
  assert (Forall (λ p, free_cell w p ∨ p = Element.pos adversary)
            (filter (λ p, negb (Grid.is_wall (grid w) p.1 p.2)
                          && negb ((p.1 =? Element.x element) && (p.2 =? Element.y element))
                          && negb (Grid.is_element (grid w) p.1 p.2) = true)
               (Grid.get_neighbors (grid w) (Element.x adversary) (Element.y adversary) topology)
             ++ [Element.pos adversary])) as H.
  { apply Forall_app. split.
    - apply Forall_forall. intros p Hp. apply list_elem_of_filter in Hp as [Hp _].
      apply andb_true_iff in Hp as [_ Hp]. apply negb_true_iff in Hp.
      left. by apply not_is_element_free.
    - apply Forall_singleton. by right. }
  destruct (_ && _); [|done].
  apply Forall_app. split; [done|].
  apply Forall_replicate. by right.
Qed.

Lemma minimax_value_returns fuel :
  ∀ element_id adversaries depth max_depth is_max alpha beta topology goal_x goal_y b w,
  I1 w → present element_id w → (Z.to_nat (max_depth - depth) ≤ fuel)%nat →
  returns_restoring
    (minimax_value fuel element_id adversaries depth max_depth is_max alpha beta
       topology goal_x goal_y b) w.
Proof.
  induction fuel as [|fuel IH];
    intros element_id adversaries depth max_depth is_max alpha beta topology
      goal_x goal_y b w HI [element He] Hfuel.
  - unfold returns_restoring. cbn [minimax_value]. rewrite (bind_ok _ _ _ _ _ (get_element_ok _ _ _ He)).
    destruct (max_depth <=? depth) eqn:Hd; [by eexists|]. lia.
  - unfold returns_restoring. cbn [minimax_value]. rewrite (bind_ok _ _ _ _ _ (get_element_ok _ _ _ He)).
    destruct (max_depth <=? depth) eqn:Hd; [by eexists|].
    destruct (_ && _); [by eexists|].
    assert (∀ advs is_max a b' w', I1 w' → present element_id w' →
              returns_restoring
                (minimax_value fuel element_id advs (depth + 1) max_depth is_max a b'
                   topology goal_x goal_y b) w') as Hchild.
    { intros. apply IH; [done|done|lia]. }
    destruct is_max.
    + set (moves := if b then _ else _).
      assert (Forall (free_cell w) moves) as Hfree.
      { subst moves. destruct b; [|apply free_neighbors_free].
        pose proof (upward_Forall (free_cell w) (Element.y element) _
                      (free_neighbors_free w (Element.x element) (Element.y element) topology)) as Hup.
        destruct (upward _ _); [apply free_neighbors_free|done]. }
      destruct moves as [|p rest] eqn:Hm; [by eexists|].
      apply (max_loop_returns _ element_id (p :: rest)); [|done|by eexists|done].
      intros. by apply Hchild.
    + destruct adversaries as [|adversary_id remaining].
      * apply (Hchild [] true alpha beta w); [done|by eexists].
      * destruct (lookup_element adversary_id (elements w)) as [adversary|] eqn:Ha;
          [|by eexists].
        eapply (min_loop_returns _ element_id adversary_id);
          [|done|by eexists|done|apply adversary_moves_ok].
        intros. by apply Hchild.
Qed.

Lemma root_loop_returns child i original b start_y moves :
  (∀ a w, I1 w → present i w → returns_restoring (child a) w) →
  ∀ best_move best_value alpha nodes w e, I1 w →
  lookup_element i (elements w) = Some e → Element.pos e = original →
  Forall (free_cell w) moves →
  returns_restoring
    (root_loop child i original b start_y moves best_move best_value alpha nodes) w.
Proof.
  intros Hchild.
  induction moves as [|p rest IH]; intros best_move best_value alpha nodes w e HI He Ho Hfree.
  - by eexists.
  - apply Forall_cons in Hfree as [Hp Hrest].
    destruct (simulate_move_spec i p w HI Hp e He) as (Hgo & HI1 & Hback).
    rewrite Ho in Hback.
    assert (present i (place_at e p w)) as Hi1.
    { apply place_at_present. by eexists. }
    destruct (Hchild alpha _ HI1 Hi1) as [mv Hmv].
    unfold returns_restoring. cbn [root_loop].
    rewrite (bind_ok _ _ _ _ _ Hgo), (bind_ok _ _ _ _ _ Hmv), (bind_ok _ _ _ _ _ Hback).
    by eapply IH.
Qed.

Lemma minimax_pathfind_returns astar rnd start_x start_y goal_x goal_y i topology max_depth w :
  I1 w →
  returns_restoring
    (minimax_pathfind astar rnd start_x start_y goal_x goal_y i topology max_depth) w.
Proof.
  intros HI. unfold returns_restoring, minimax_pathfind.
  destruct (negb _ || negb _); [by eexists|].
  destruct (Grid.is_wall _ _ _ || _); [by eexists|].
  destruct (_ && _); [by eexists|].
  destruct (lookup_element i (elements w)) as [element|] eqn:He; [|by eexists].
  cbv zeta.
  set (depth' := if 10 <? _ then _ else _).
  set (b := 9 <=? Element.y element).
  set (adversaries := find_potential_adversaries _ _ _ _ _ _ _).
  destruct (if b then _ else None); [by eexists|].
  pose proof (free_neighbors_free w start_x start_y topology) as Hfree.
  destruct (Grid.free_neighbors (grid w) start_x start_y topology) as [|p rest] eqn:Hm;
    [by eexists|].
  assert (∃ r,
    (match (if b && coin rnd
            then match upward start_y (p :: rest) with
                 | [] => None
                 | up :: ups => Some (choice rnd up ups)
                 end
            else None) with
     | Some first => ret (Some first, 0)
     | None =>
         root_loop
           (λ alpha, minimax_value (Z.to_nat depth') i adversaries 1 depth' false alpha
                       PosInf topology goal_x goal_y b)
           i (Element.pos element) b start_y (p :: rest) None NegInf NegInf 0
     end) w = (Ok r, w)) as [[best nodes] Hsearch].
  { destruct (if b && coin rnd then _ else _); [by eexists|].
    eapply (root_loop_returns _ i); [|done|done|done|done].
    intros a w' HI' Hi'. apply minimax_value_returns; [done|done|lia]. }
  rewrite (bind_ok _ _ _ _ _ Hsearch).
  destruct best as [best_move|]; [|by eexists].
  destruct b; [by eexists|].
  rewrite He. eexists. f_equal. by eapply remove_add_element.
Qed.

End MinimaxFrame.

(** ** Composition lemmas for calls that may raise *)

Lemma outcome_ret {A} flag (a : A) w : returns_or_raises flag (ret a) w.
Proof. left. by eexists. Qed.

Lemma outcome_bind {A B} flag (m : M A) (k : A → M B) w :
  returns_or_raises flag m w →
  (∀ a, m w = (Ok a, w) → returns_or_raises flag (k a) w) →
  returns_or_raises flag (bind m k) w.
Proof.
  intros [[a Ha]|[Hflag (x & w' & Hx)]] Hk.
  - destruct (Hk a Ha) as [[b Hb]|[Hflag (x & w' & Hx)]].
    + left. exists b. by rewrite (bind_ok _ _ _ _ _ Ha).
    + right. split; [done|]. exists x, w'. by rewrite (bind_ok _ _ _ _ _ Ha).
  - right. split; [done|]. exists x, w'. by rewrite (bind_raise _ _ _ _ _ Hx).
Qed.

(** Simulate a move to a free cell, run [child] in the changed world,
    move back to [back] (the cell the element came from), continue. *)
Lemma outcome_simulated {A B} flag i p (back : Z * Z → Z * Z)
    (child : M A) (k : Z * Z → A → M B) w e :
  I1 w → free_cell w p → lookup_element i (elements w) = Some e →
  back (Element.pos e) = Element.pos e →
  (I1 (place_at e p w) → returns_or_raises flag child (place_at e p w)) →
  (∀ a, returns_or_raises flag (k (Element.pos e) a) w) →
  returns_or_raises flag
    (bind (simulate_move i p) (λ old,
       bind child (λ a, bind (simulate_move i (back old)) (λ _, k old a)))) w.
Proof.
  intros HI Hp He Hbk Hchild Hk.
  destruct (simulate_move_spec i p w HI Hp e He) as (Hgo & HI1 & Hback).
  rewrite <- Hbk in Hback.
  destruct (Hchild HI1) as [[a Ha]|[Hflag (x & w' & Hx)]].
  - destruct (Hk a) as [[b Hb]|[Hflag (x & w' & Hx)]].
    + left. exists b.
      by rewrite (bind_ok _ _ _ _ _ Hgo), (bind_ok _ _ _ _ _ Ha), (bind_ok _ _ _ _ _ Hback).
    + right. split; [done|]. exists x, w'.
      by rewrite (bind_ok _ _ _ _ _ Hgo), (bind_ok _ _ _ _ _ Ha), (bind_ok _ _ _ _ _ Hback).
  - right. split; [done|]. exists x, w'.
    by rewrite (bind_ok _ _ _ _ _ Hgo), (bind_raise _ _ _ _ _ Hx).
Qed.

Lemma outcome_get_element flag i w e :
  lookup_element i (elements w) = Some e →
  returns_or_raises flag (get_element i) w.
Proof. intros He. left. exists e. by apply get_element_ok. Qed.

(** ** Expectimax: the heuristic raises for a bottom-row element *)

Module ExpectimaxFrame.
Import Expectimax.

Lemma evaluate_state_bottom g element goal_x goal_y interfering els :
  evaluate_state g element goal_x goal_y interfering els true
  = Raise (NameError "start_y").
Proof. reflexivity. Qed.

Lemma evaluate_state_top g element goal_x goal_y interfering els :
  ∃ q, evaluate_state g element goal_x goal_y interfering els false = Ok q.
Proof. unfold evaluate_state. by eexists. Qed.

Lemma lift_evaluate_state {B} (f : Qc → B) g element goal_x goal_y interfering els b w :
  returns_or_raises b
    (lift f (evaluate_state g element goal_x goal_y interfering els b)) w.
Proof.
  destruct b.
  - right. split; [done|]. rewrite evaluate_state_bottom. by eexists _, _.
  - left. destruct (evaluate_state_top g element goal_x goal_y interfering els) as [q ->].
    by eexists.
Qed.

Lemma max_loop_outcome flag child i moves :
  (∀ w, I1 w → present i w → returns_or_raises flag child w) →
  ∀ value w, I1 w → present i w → Forall (free_cell w) moves →
  returns_or_raises flag (max_loop child i moves value) w.
Proof.
  intros Hchild. induction moves as [|p rest IH]; intros value w HI Hi Hfree.
  - apply outcome_ret.
  - apply Forall_cons in Hfree as [Hp Hrest]. destruct Hi as [e He].
    cbn [max_loop].
    apply (outcome_simulated flag i p (λ old, old) child
             (λ old a, max_loop child i rest (QVal.max value a)) w e); try done.
    + intros HI1. apply Hchild; [done|]. apply place_at_present. by eexists.
    + intros a. apply IH; [done|by eexists|done].
Qed.

Lemma chance_loop_outcome flag next i j weights total moves :
  (∀ w, I1 w → present i w → returns_or_raises flag next w) →
  ∀ total_value w e, I1 w → present i w → lookup_element j (elements w) = Some e →
  Forall (λ p, free_cell w p ∨ p = Element.pos e) moves →
  returns_or_raises flag (chance_loop next j weights total moves total_value) w.
Proof.
  intros Hnext. induction moves as [|p rest IH]; intros total_value w e HI Hi He Hmoves.
  - apply outcome_ret.
  - apply Forall_cons in Hmoves as [Hp Hrest]. cbn [chance_loop].
    destruct (negligible _); [by eapply IH|].
    apply outcome_bind; [by eapply outcome_get_element|].
    intros e' He'. rewrite (get_element_ok _ _ _ He) in He'.
    injection He' as <-.
    apply outcome_bind.
    + case_bool_decide as Hstay; [by apply Hnext|].
      destruct Hp as [Hp|Hp]; [|done].
      apply (outcome_simulated flag j p (λ old, old) next (λ _ a, ret a) w e); try done.
      * intros HI1. apply Hnext; [done|]. by apply place_at_present.
      * intros a. apply outcome_ret.
    + intros mv _. by eapply IH.
Qed.

Lemma chance_moves_ok w element other topology :
  Forall (λ p, free_cell w p ∨ p = Element.pos other)
    (chance_moves (grid w) element other topology).
Proof.
  unfold chance_moves. apply Forall_app. split.
  - apply Forall_forall. intros p Hp. apply list_elem_of_filter in Hp as [Hp _].
    apply andb_true_iff in Hp as [_ Hp]. apply negb_true_iff in Hp.
    left. by apply not_is_element_free.
  - apply Forall_singleton. by right.
Qed.

Lemma expectimax_value_outcome fuel :
  ∀ element_id interfering depth max_depth node_type topology goal_x goal_y b w,
  I1 w → present element_id w →
  (Z.to_nat (max_depth - depth) + length interfering ≤ fuel)%nat →
  returns_or_raises b
    (expectimax_value fuel element_id interfering depth max_depth node_type
       topology goal_x goal_y b) w.
Proof.
  induction fuel as [|fuel IH];
    intros element_id interfering depth max_depth node_type topology
      goal_x goal_y b w HI [element He] Hfuel.
  - cbn [expectimax_value].
    apply outcome_bind; [by eapply outcome_get_element|].
    intros e' He'. rewrite (get_element_ok _ _ _ He) in He'. injection He' as <-.
    unfold returns_or_raises, returns_restoring, raises. cbv beta.
    destruct (max_depth <=? depth) eqn:Hd; [|lia].
    apply (lift_evaluate_state FinQ).
  - cbn [expectimax_value].
    apply outcome_bind; [by eapply outcome_get_element|].
    intros e' He'. rewrite (get_element_ok _ _ _ He) in He'. injection He' as <-.
    unfold returns_or_raises, returns_restoring, raises. cbv beta.
    destruct (max_depth <=? depth) eqn:Hd; [apply (lift_evaluate_state FinQ)|].
    destruct (_ && _); [left; by eexists|].
    destruct node_type.
    + set (moves := if b then _ else _).
      assert (Forall (free_cell w) moves) as Hfree.
      { subst moves. destruct b; [|apply free_neighbors_free].
        pose proof (upward_Forall (free_cell w) (Element.y element) _
                      (free_neighbors_free w (Element.x element) (Element.y element) topology)) as Hup.
        destruct (upward _ _); [apply free_neighbors_free|done]. }
      destruct moves as [|p rest] eqn:Hm;
        [apply (lift_evaluate_state (λ v, FinQ (v - Q2Qc 20)))|].
      apply (max_loop_outcome b _ element_id (p :: rest)); [|done|by eexists|done].
      intros w' HI' Hi'. apply IH; [done|done|lia].
    + destruct interfering as [|other_id remaining].
      * apply (IH element_id [] (depth + 1) max_depth max_node); [done|by eexists|simpl; lia].
      * set (next := match remaining with [] => _ | _ => _ end).
        assert (∀ w', I1 w' → present element_id w' → returns_or_raises b next w') as Hnext.
        { intros w' HI' Hi'. subst next. destruct remaining as [|r rs].
          - apply IH; [done|done|simpl in *; lia].
          - apply IH; [done|done|simpl in *; lia]. }
        destruct (lookup_element other_id (elements w)) as [other|] eqn:Ho.
        -- eapply (chance_loop_outcome b next element_id other_id);
             [done|done|by eexists|done|apply chance_moves_ok].
        -- apply Hnext; [done|by eexists].
Qed.

Lemma root_loop_outcome flag child i original b start_y moves :
  (∀ w, I1 w → present i w → returns_or_raises flag child w) →
  ∀ best_move best_value nodes w e, I1 w →
  lookup_element i (elements w) = Some e → Element.pos e = original →
  Forall (free_cell w) moves →
  returns_or_raises flag
    (root_loop child i original b start_y moves best_move best_value nodes) w.
Proof.
  intros Hchild.
  induction moves as [|p rest IH]; intros best_move best_value nodes w e HI He Ho Hfree.
  - apply outcome_ret.
  - apply Forall_cons in Hfree as [Hp Hrest]. cbn [root_loop].
    apply (outcome_simulated flag i p (λ _, original) child
             (λ _ value,
                root_loop child i original b start_y rest
                  (if QVal.ltb best_value
                        (if b && (p.2 <? start_y) then QVal.add value (Q2Qc 100) else value)
                   then Some p else best_move)
                  (if QVal.ltb best_value
                        (if b && (p.2 <? start_y) then QVal.add value (Q2Qc 100) else value)
                   then (if b && (p.2 <? start_y) then QVal.add value (Q2Qc 100) else value)
                   else best_value)
                  (nodes + 1)) w e); try done.
    + intros HI1. apply Hchild; [done|]. apply place_at_present. by eexists.
    + intros a. by eapply IH.
Qed.

Lemma expectimax_pathfind_outcome astar rnd start_x start_y goal_x goal_y i topology
    max_depth w :
  I1 w →
  returns_or_raises (in_bottom_rows i w)
    (expectimax_pathfind astar rnd start_x start_y goal_x goal_y i topology max_depth) w.
Proof.
  intros HI.
  unfold expectimax_pathfind, in_bottom_rows, returns_or_raises, returns_restoring, raises.
  cbv beta.
  destruct (negb _ || negb _); [left; by eexists|].
  destruct (Grid.is_wall _ _ _ || _); [left; by eexists|].
  destruct (_ && _); [left; by eexists|].
  destruct (lookup_element i (elements w)) as [element|] eqn:He; [|left; by eexists].
  cbv zeta.
  set (depth' := if 15 <? _ then _ else _).
  set (b := Grid.height (grid w) - 3 <=? Element.y element).
  set (interfering := find_interfering_elements _ _ _ _ _ _ _).
  destruct (if b then _ else None); [left; by eexists|].
  pose proof (free_neighbors_free w start_x start_y topology) as Hfree.
  destruct (Grid.free_neighbors (grid w) start_x start_y topology) as [|p rest] eqn:Hm;
    [left; by eexists|].
  apply (outcome_bind b).
  - eapply (root_loop_outcome b _ i); [|done|done|done|done].
    intros w' HI' Hi'. apply expectimax_value_outcome; [done|done|lia].
  - intros [best nodes] _.
    destruct best as [best_move|]; [|apply outcome_ret].
    destruct b; [apply outcome_ret|].
    left. unfold returns_restoring. cbv beta. rewrite He.
    eexists. f_equal. by eapply remove_add_element.
Qed.

End ExpectimaxFrame.

(** * The claims about the two path finders *)

Lemma returns_or_raises_ok {A} flag (m : M A) w :
  returns_or_raises flag m w → ∀ a w', m w = (Ok a, w') → w' = w.
Proof.
  intros [[b Hb]|[_ (x & w'' & Hx)]] a w' H; congruence.
Qed.

Lemma returns_or_raises_false {A} (m : M A) w :
  returns_or_raises false m w → returns_restoring m w.
Proof. by intros [H|[? _]]. Qed.

(** C1 (amended). Started in a world that satisfies I1 (every element
    stands on the grid, on the cell marked with its id): every call of
    [minimax_pathfind] and every branch of [minimax_value] (with its
    alpha-beta cuts) returns, and the grid occupancy and every element are
    then exactly as before; every call of [expectimax_pathfind] and every
    branch of [expectimax_value] that returns leaves them exactly as
    before, and it does return when the bottom-row flag is off. *)
Theorem search_restores_world
    astar rnd start_x start_y goal_x goal_y element_id topology max_depth (w : World) :
  I1 w →
  returns_restoring
    (Minimax.minimax_pathfind astar rnd start_x start_y goal_x goal_y element_id
       topology max_depth) w
  ∧ (∀ r w',
       Expectimax.expectimax_pathfind astar rnd start_x start_y goal_x goal_y element_id
         topology max_depth w = (Ok r, w') → w' = w)
  ∧ (in_bottom_rows element_id w = false →
     returns_restoring
       (Expectimax.expectimax_pathfind astar rnd start_x start_y goal_x goal_y element_id
          topology max_depth) w)
  ∧ (∀ fuel adversaries depth is_max alpha beta bottom_row_priority,
       present element_id w →
       (Z.to_nat (max_depth - depth) ≤ fuel)%nat →
       returns_restoring
         (Minimax.minimax_value fuel element_id adversaries depth max_depth is_max
            alpha beta topology goal_x goal_y bottom_row_priority) w)
  ∧ (∀ fuel interfering depth node_type,
       present element_id w →
       (Z.to_nat (max_depth - depth) + length interfering ≤ fuel)%nat →
       (∀ is_bottom_row v w',
          Expectimax.expectimax_value fuel element_id interfering depth max_depth
            node_type topology goal_x goal_y is_bottom_row w = (Ok v, w') → w' = w)
       ∧ returns_restoring
           (Expectimax.expectimax_value fuel element_id interfering depth max_depth
              node_type topology goal_x goal_y false) w).
Proof.
  intros HI. split; [by apply MinimaxFrame.minimax_pathfind_returns|].
  pose proof (ExpectimaxFrame.expectimax_pathfind_outcome astar rnd start_x start_y
                goal_x goal_y element_id topology max_depth w HI) as Hx.
  split; [by apply (returns_or_raises_ok _ _ _ Hx)|].
  split.
  { intros Hb. rewrite Hb in Hx. by apply returns_or_raises_false. }
  split.
  - intros. by apply MinimaxFrame.minimax_value_returns.
  - intros fuel interfering depth node_type Hi Hfuel. split.
    + intros b. eapply returns_or_raises_ok.
      by apply ExpectimaxFrame.expectimax_value_outcome.
    + apply returns_or_raises_false.
      by apply ExpectimaxFrame.expectimax_value_outcome.
Qed.

Lemma search_restores_world_witness :
  I1 Scenario.midfield
  ∧ returns_restoring
      (Minimax.minimax_pathfind Scenario.no_path Scenario.rnd0 5 5 5 2 0 moore 3)
      Scenario.midfield
  ∧ returns_restoring
      (Expectimax.expectimax_pathfind Scenario.no_path Scenario.rnd0 5 5 5 2 0 moore 3)
      Scenario.midfield
  ∧ returns_restoring
      (Minimax.minimax_value 3 0 [1] 1 3 false NegInf PosInf moore 5 2 false)
      Scenario.midfield
  ∧ returns_restoring
      (Expectimax.expectimax_value 3 0 [1] 1 3 chance_node moore 5 2 false)
      Scenario.midfield.
Proof.
  assert (I1 Scenario.midfield) as HI by (apply I1b_correct; reflexivity).
  destruct (search_restores_world Scenario.no_path Scenario.rnd0 5 5 5 2 0 moore 3
              Scenario.midfield HI) as (Hm & _ & Hx & Hmv & Hxv).
  assert (present 0 Scenario.midfield) as Hp by (by eexists).
  split; [done|]. split; [done|]. split; [by apply Hx|]. split.
  - apply Hmv; [done|simpl; lia].
  - apply (Hxv 3%nat [1] 1 chance_node Hp). simpl; lia.
Defined.

(** C1 as stated fails: started as the callers start a search, with
    the element taken off the grid and still stored at (5, 5), a call of
    either path finder and a branch of either search return with cell
    (5, 5) marked with the element, which it was not before. *)
Lemma search_marks_cell_of_lifted_element :
  Grid.occupancy (grid Scenario.lifted) !! (5, 5) = None
  ∧ lookup_element 0 (elements Scenario.lifted) = Some (Element.mk 0 5 5 (Some 5) (Some 2))
  ∧ fst (Minimax.minimax_pathfind Scenario.no_path Scenario.rnd0 5 5 5 2 0 vonNeumann 2
           Scenario.lifted) = Ok (Some [(5, 5); (5, 4)], 4)
  ∧ Grid.occupancy
      (grid (snd (Minimax.minimax_pathfind Scenario.no_path Scenario.rnd0 5 5 5 2 0
                    vonNeumann 2 Scenario.lifted))) !! (5, 5) = Some 0
  ∧ fst (Expectimax.expectimax_pathfind Scenario.no_path Scenario.rnd0 5 5 5 2 0 vonNeumann 2
           Scenario.lifted) = Ok (Some [(5, 5); (5, 4)], 4)
  ∧ Grid.occupancy
      (grid (snd (Expectimax.expectimax_pathfind Scenario.no_path Scenario.rnd0 5 5 5 2 0
                    vonNeumann 2 Scenario.lifted))) !! (5, 5) = Some 0
  ∧ fst (Minimax.minimax_value 2 0 [1] 0 2 true NegInf PosInf vonNeumann 5 2 false
           Scenario.lifted) = Ok (Fin (-5))
  ∧ Grid.occupancy
      (grid (snd (Minimax.minimax_value 2 0 [1] 0 2 true NegInf PosInf vonNeumann 5 2 false
                    Scenario.lifted))) !! (5, 5) = Some 0.
Proof. repeat split; vm_compute; reflexivity. Qed.

(** ** Terminal nodes *)

Lemma minimax_value_at_limit fuel element_id adversaries depth max_depth is_max alpha beta
    topology goal_x goal_y b w element :
  lookup_element element_id (elements w) = Some element → max_depth ≤ depth →
  Minimax.minimax_value fuel element_id adversaries depth max_depth is_max alpha beta
    topology goal_x goal_y b w
  = (Ok (Fin (Minimax.evaluate_state (grid w) element goal_x goal_y adversaries
                (elements w) b)), w).
Proof.
  intros He Hd. apply Z.leb_le in Hd.
  destruct fuel; cbn [Minimax.minimax_value];
    rewrite (bind_ok _ _ _ _ _ (get_element_ok _ _ _ He)); by rewrite Hd.
Qed.

Lemma minimax_value_on_goal fuel element_id adversaries depth max_depth is_max alpha beta
    topology b w element :
  lookup_element element_id (elements w) = Some element → depth < max_depth →
  Minimax.minimax_value fuel element_id adversaries depth max_depth is_max alpha beta
    topology (Element.x element) (Element.y element) b w
  = (Ok (Fin 1000), w).
Proof.
  intros He Hd. apply Z.leb_gt in Hd.
  destruct fuel; cbn [Minimax.minimax_value];
    rewrite (bind_ok _ _ _ _ _ (get_element_ok _ _ _ He)); by rewrite Hd, !Z.eqb_refl.
Qed.

Lemma expectimax_value_at_limit fuel element_id interfering depth max_depth node_type
    topology goal_x goal_y b w element :
  lookup_element element_id (elements w) = Some element → max_depth ≤ depth →
  Expectimax.expectimax_value fuel element_id interfering depth max_depth node_type
    topology goal_x goal_y b w
  = Expectimax.lift FinQ
      (Expectimax.evaluate_state (grid w) element goal_x goal_y interfering
         (elements w) b) w.
Proof.
  intros He Hd. apply Z.leb_le in Hd.
  destruct fuel; cbn [Expectimax.expectimax_value];
    rewrite (bind_ok _ _ _ _ _ (get_element_ok _ _ _ He)); by rewrite Hd.
Qed.

Lemma expectimax_value_on_goal fuel element_id interfering depth max_depth node_type
    topology b w element :
  lookup_element element_id (elements w) = Some element → depth < max_depth →
  Expectimax.expectimax_value fuel element_id interfering depth max_depth node_type
    topology (Element.x element) (Element.y element) b w
  = (Ok (FinQ (Q2Qc 1000)), w).
Proof.
  intros He Hd. apply Z.leb_gt in Hd.
  destruct fuel; cbn [Expectimax.expectimax_value];
    rewrite (bind_ok _ _ _ _ _ (get_element_ok _ _ _ He)); by rewrite Hd, !Z.eqb_refl.
Qed.

(** The heuristic of a search without bottom-row priority stays far below
    1000 away from the goal. *)
Lemma get_neighbors_vonNeumann_length g px py :
  (length (Grid.get_neighbors g px py vonNeumann) ≤ 4)%nat.
Proof.
  unfold Grid.get_neighbors. etrans; [apply length_filter|]. by rewrite length_map.
Qed.

Lemma penalty_nonpos (step : Z → Z → Z) (l : list Z) :
  (∀ acc a, step acc a ≤ acc) → ∀ acc, foldl step acc l ≤ acc.
Proof.
  intros Hstep. induction l as [|a l IH]; intros acc; simpl; [lia|].
  specialize (IH (step acc a)). specialize (Hstep acc a). lia.
Qed.

Lemma minimax_evaluate_state_le g element goal_x goal_y adversaries els :
  (Element.x element, Element.y element) ≠ (goal_x, goal_y) →
  Minimax.evaluate_state g element goal_x goal_y adversaries els false ≤ 10.
Proof.
  intros Hne. unfold Minimax.evaluate_state. cbv zeta. rewrite !andb_false_l.
  set (free := filter _ _).
  assert (Z.of_nat (length free) ≤ 4) as Hfree.
  { subst free. pose proof (get_neighbors_vonNeumann_length g (Element.x element) (Element.y element)).
    pose proof (length_filter (λ p : Z * Z,
      negb (Grid.is_wall g p.1 p.2) && negb (Grid.is_element g p.1 p.2) = true)
      (Grid.get_neighbors g (Element.x element) (Element.y element) vonNeumann)). lia. }
  set (pen := foldl _ 0 adversaries).
  assert (pen ≤ 0) as Hpen.
  { subst pen. apply penalty_nonpos. intros acc a.
    destruct (lookup_element a els); [|lia]. cbv zeta.
    destruct (_ <=? 2) eqn:E; [|lia]. apply Z.leb_le in E. lia. }
  assert (1 ≤ Z.abs (Element.x element - goal_x) + Z.abs (Element.y element - goal_y)) as Hd.
  { destruct (decide (Element.x element = goal_x)), (decide (Element.y element = goal_y));
      [congruence|lia..]. }
  repeat match goal with |- context [if ?c then _ else _] => destruct c end; lia.
Qed.

Lemma expectimax_evaluate_state_le g element goal_x goal_y interfering els :
  (Element.x element, Element.y element) ≠ (goal_x, goal_y) →
  ∃ v, Expectimax.evaluate_state g element goal_x goal_y interfering els false
       = Ok (Qc_of_Z v) ∧ v ≤ 10.
Proof.
  intros Hne. unfold Expectimax.evaluate_state. cbv zeta. rewrite !andb_false_l.
  eexists. split; [reflexivity|].
  set (free := filter _ _).
  assert (Z.of_nat (length free) ≤ 4) as Hfree.
  { subst free. pose proof (get_neighbors_vonNeumann_length g (Element.x element) (Element.y element)).
    pose proof (length_filter (λ p : Z * Z,
      negb (Grid.is_wall g p.1 p.2) && negb (Grid.is_element g p.1 p.2) = true)
      (Grid.get_neighbors g (Element.x element) (Element.y element) vonNeumann)). lia. }
  set (pen := foldl _ 0 interfering).
  assert (pen ≤ 0) as Hpen.
  { subst pen. apply penalty_nonpos. intros acc a.
    destruct (lookup_element a els); [|lia]. cbv zeta. rewrite !andb_false_l.
    destruct (_ <=? 2) eqn:E; [|lia]. apply Z.leb_le in E. lia. }
  assert (1 ≤ Z.abs (Element.x element - goal_x) + Z.abs (Element.y element - goal_y)) as Hd.
  { destruct (decide (Element.x element = goal_x)), (decide (Element.y element = goal_y));
      [congruence|lia..]. }
  repeat match goal with |- context [if ?c then _ else _] => destruct c end; lia.
Qed.

(** C3 (as amended). At a node where the depth limit is reached the
    value is the heuristic evaluation of the state, also when the element
    stands on its goal; below the depth limit a node whose element stands
    on its goal has the value 1000.  Without bottom-row priority the
    heuristic of a state off the goal is at most 10. *)
Theorem terminal_node_values
    fuel element_id others depth max_depth topology goal_x goal_y (w : World) element :
  lookup_element element_id (elements w) = Some element →
  (max_depth ≤ depth →
     (∀ is_max alpha beta b,
        Minimax.minimax_value fuel element_id others depth max_depth is_max alpha beta
          topology goal_x goal_y b w
        = (Ok (Fin (Minimax.evaluate_state (grid w) element goal_x goal_y others
                      (elements w) b)), w))
     ∧ (∀ node_type b,
          Expectimax.expectimax_value fuel element_id others depth max_depth node_type
            topology goal_x goal_y b w
          = Expectimax.lift FinQ
              (Expectimax.evaluate_state (grid w) element goal_x goal_y others
                 (elements w) b) w))
  ∧ (depth < max_depth → Element.pos element = (goal_x, goal_y) →
     (∀ is_max alpha beta b,
        Minimax.minimax_value fuel element_id others depth max_depth is_max alpha beta
          topology goal_x goal_y b w = (Ok (Fin 1000), w))
     ∧ (∀ node_type b,
          Expectimax.expectimax_value fuel element_id others depth max_depth node_type
            topology goal_x goal_y b w = (Ok (FinQ (Q2Qc 1000)), w)))
  ∧ (Element.pos element ≠ (goal_x, goal_y) →
     Minimax.evaluate_state (grid w) element goal_x goal_y others (elements w) false ≤ 10
     ∧ ∃ v, Expectimax.evaluate_state (grid w) element goal_x goal_y others
              (elements w) false = Ok (Qc_of_Z v) ∧ v ≤ 10).
Proof.
  intros He. split; [|split].
  - intros Hd. split; intros.
    + by apply minimax_value_at_limit.
    + by apply expectimax_value_at_limit.
  - intros Hd [= <- <-]. split; intros.
    + by apply minimax_value_on_goal.
    + by apply expectimax_value_on_goal.
  - intros Hne. split.
    + by apply minimax_evaluate_state_le.
    + by apply expectimax_evaluate_state_le.
Qed.

Lemma terminal_node_values_witness :
  lookup_element 0 (elements Scenario.on_goal) = Some (Element.mk 0 5 2 (Some 5) (Some 2))
  ∧ Minimax.minimax_value 2 0 [] 1 2 true NegInf PosInf vonNeumann 5 2 false Scenario.on_goal
    = (Ok (Fin 1000), Scenario.on_goal)
  ∧ Expectimax.expectimax_value 2 0 [] 1 2 max_node vonNeumann 5 2 false Scenario.on_goal
    = (Ok (FinQ (Q2Qc 1000)), Scenario.on_goal).
Proof.
  assert (lookup_element 0 (elements Scenario.on_goal)
          = Some (Element.mk 0 5 2 (Some 5) (Some 2))) as He by reflexivity.
  destruct (terminal_node_values 2 0 [] 1 2 vonNeumann 5 2 Scenario.on_goal _ He)
    as (_ & Hgoal & _).
  destruct (Hgoal ltac:(lia) eq_refl) as [Hm Hx].
  split; [done|]. split; [apply Hm|apply Hx].
Defined.

(** C3 as stated fails: at the depth limit an element on its goal is
    valued by the heuristic (20 here), not 1000; and with bottom-row
    priority the heuristic of a state off the goal can be exactly 1000. *)
Lemma goal_at_depth_limit_is_not_1000 :
  lookup_element 0 (elements Scenario.on_goal) = Some (Element.mk 0 5 2 (Some 5) (Some 2))
  ∧ fst (Minimax.minimax_value 2 0 [] 2 2 true NegInf PosInf vonNeumann 5 2 false
           Scenario.on_goal) = Ok (Fin 20)
  ∧ fst (Expectimax.expectimax_value 2 0 [] 2 2 max_node vonNeumann 5 2 false
           Scenario.on_goal) = Ok (FinQ (Qc_of_Z 20))
  ∧ lookup_element 0 (elements Scenario.tall) = Some (Element.mk 0 5 71 (Some 5) (Some 2))
  ∧ fst (Minimax.minimax_value 2 0 [] 2 2 true NegInf PosInf vonNeumann 5 2 true
           Scenario.tall) = Ok (Fin 1000).
Proof. repeat split; vm_compute; reflexivity. Qed.

(** ** Early returns of the path finders *)

(** C6. Both path finders return [(None, 0)] when the start or the goal
    is out of bounds or a wall, and the one-cell path when start and goal
    are the same valid cell; neither case raises. *)
Theorem pathfind_early_returns
    astar rnd start_x start_y goal_x goal_y element_id topology max_depth (w : World) :
  (Grid.is_valid_position (grid w) start_x start_y = false
   ∨ Grid.is_valid_position (grid w) goal_x goal_y = false
   ∨ Grid.is_wall (grid w) start_x start_y = true
   ∨ Grid.is_wall (grid w) goal_x goal_y = true →
   Minimax.minimax_pathfind astar rnd start_x start_y goal_x goal_y element_id
     topology max_depth w = (Ok (None, 0), w)
   ∧ Expectimax.expectimax_pathfind astar rnd start_x start_y goal_x goal_y element_id
       topology max_depth w = (Ok (None, 0), w))
  ∧ (Grid.is_valid_position (grid w) start_x start_y = true →
     Grid.is_wall (grid w) start_x start_y = false →
     start_x = goal_x → start_y = goal_y →
     Minimax.minimax_pathfind astar rnd start_x start_y goal_x goal_y element_id
       topology max_depth w = (Ok (Some [(start_x, start_y)], 1), w)
     ∧ Expectimax.expectimax_pathfind astar rnd start_x start_y goal_x goal_y element_id
         topology max_depth w = (Ok (Some [(start_x, start_y)], 1), w)).
Proof.
  split.
  - intros H. unfold Minimax.minimax_pathfind, Expectimax.expectimax_pathfind.
    destruct (Grid.is_valid_position (grid w) start_x start_y) eqn:Hs,
             (Grid.is_valid_position (grid w) goal_x goal_y) eqn:Hg; simpl; try done.
    destruct (Grid.is_wall (grid w) start_x start_y) eqn:Hws,
             (Grid.is_wall (grid w) goal_x goal_y) eqn:Hwg; simpl; try done.
    destruct H as [?|[?|[?|?]]]; congruence.
  - intros Hs Hws <- <-. unfold Minimax.minimax_pathfind, Expectimax.expectimax_pathfind.
    by rewrite Hs, Hws, !Z.eqb_refl.
Qed.

Lemma pathfind_early_returns_witness :
  (Minimax.minimax_pathfind Scenario.no_path Scenario.rnd0 5 5 0 3 0 vonNeumann 2
     Scenario.midfield = (Ok (None, 0), Scenario.midfield)
   ∧ Expectimax.expectimax_pathfind Scenario.no_path Scenario.rnd0 5 5 0 3 0 vonNeumann 2
       Scenario.midfield = (Ok (None, 0), Scenario.midfield))
  ∧ (Minimax.minimax_pathfind Scenario.no_path Scenario.rnd0 5 5 5 5 0 vonNeumann 2
       Scenario.midfield = (Ok (Some [(5, 5)], 1), Scenario.midfield)
     ∧ Expectimax.expectimax_pathfind Scenario.no_path Scenario.rnd0 5 5 5 5 0 vonNeumann 2
         Scenario.midfield = (Ok (Some [(5, 5)], 1), Scenario.midfield)).
Proof.
  split.
  - apply (pathfind_early_returns Scenario.no_path Scenario.rnd0 5 5 0 3 0 vonNeumann 2
             Scenario.midfield).
    right. right. right. reflexivity.
  - apply (pathfind_early_returns Scenario.no_path Scenario.rnd0 5 5 5 5 0 vonNeumann 2
             Scenario.midfield); reflexivity.
Defined.

(** C10. With valid, distinct start and goal cells, a known element and
    no legal first move, both path finders return the one-cell path with
    one node explored. *)
Theorem pathfind_waits_when_enclosed
    astar rnd start_x start_y goal_x goal_y element_id topology max_depth (w : World) :
  Grid.is_valid_position (grid w) start_x start_y = true →
  Grid.is_valid_position (grid w) goal_x goal_y = true →
  Grid.is_wall (grid w) start_x start_y = false →
  Grid.is_wall (grid w) goal_x goal_y = false →
  (start_x, start_y) ≠ (goal_x, goal_y) →
  present element_id w →
  Grid.free_neighbors (grid w) start_x start_y topology = [] →
  Minimax.minimax_pathfind astar rnd start_x start_y goal_x goal_y element_id
    topology max_depth w = (Ok (Some [(start_x, start_y)], 1), w)
  ∧ Expectimax.expectimax_pathfind astar rnd start_x start_y goal_x goal_y element_id
      topology max_depth w = (Ok (Some [(start_x, start_y)], 1), w).
Proof.
  intros Hs Hg Hws Hwg Hne [element He] Hfree.
  assert ((start_x =? goal_x) && (start_y =? goal_y) = false) as Hsg.
  { apply andb_false_iff.
    destruct (decide (start_x = goal_x)) as [->|];
      [right; apply Z.eqb_neq; congruence | left; by apply Z.eqb_neq]. }
  unfold Minimax.minimax_pathfind, Expectimax.expectimax_pathfind.
  rewrite Hs, Hg, Hws, Hwg, Hsg, He, Hfree. simpl.
  split; by repeat match goal with |- context [if ?c then _ else _] => destruct c end.
Qed.

Lemma pathfind_waits_when_enclosed_witness :
  Minimax.minimax_pathfind Scenario.no_path Scenario.rnd0 5 10 5 2 0 vonNeumann 2
    Scenario.enclosed = (Ok (Some [(5, 10)], 1), Scenario.enclosed)
  ∧ Expectimax.expectimax_pathfind Scenario.no_path Scenario.rnd0 5 10 5 2 0 vonNeumann 2
      Scenario.enclosed = (Ok (Some [(5, 10)], 1), Scenario.enclosed).
Proof.
  apply (pathfind_waits_when_enclosed Scenario.no_path Scenario.rnd0 5 10 5 2 0 vonNeumann 2
           Scenario.enclosed); try reflexivity.
  - intros [=].
  - by eexists.
Defined.

(** ** The escape fast path of bottom-row elements *)

Lemma choice_elem_of {A} (rnd : Rand) (a : A) (l : list A) : choice rnd a l ∈ a :: l.
Proof.
  unfold choice. apply list_elem_of_In. apply nth_In.
  apply Nat.mod_upper_bound. simpl. lia.
Qed.

Lemma escape_move_elem_of rnd topology start_x start_y goal_x up ups :
  Expectimax.escape_move rnd topology start_x start_y goal_x up ups ∈ up :: ups.
Proof.
  unfold Expectimax.escape_move.
  destruct (_ && _).
  - destruct (1 <? Z.abs _); [|by left].
    destruct (filter _ (up :: ups)) as [|d ds] eqn:Hf; [by left|].
    pose proof (choice_elem_of rnd d ds) as Hc. rewrite <- Hf in Hc.
    by apply list_elem_of_filter in Hc as [_ Hc].
  - case_bool_decide; [done|by left].
Qed.

Lemma upward_elem_of row moves p :
  p ∈ upward row moves → p ∈ moves ∧ p.2 < row.
Proof. unfold upward. intros H. by apply list_elem_of_filter in H as [? ?]. Qed.

(** C4 (as amended). A bottom-row element that has a legal upward first
    move gets one at once, with one node explored and without a search:
    from [expectimax_pathfind] whenever its row is one of the bottom three
    of the grid; from [minimax_pathfind] whenever its row index is at
    least 9 and either no element stands in its column between it and the
    goal row, or the topology is Moore and it has at least two upward
    moves. *)
Theorem escape_fast_path
    astar rnd start_x start_y goal_x goal_y element_id topology max_depth
    (w : World) element :
  Grid.is_valid_position (grid w) start_x start_y = true →
  Grid.is_valid_position (grid w) goal_x goal_y = true →
  Grid.is_wall (grid w) start_x start_y = false →
  Grid.is_wall (grid w) goal_x goal_y = false →
  (start_x, start_y) ≠ (goal_x, goal_y) →
  lookup_element element_id (elements w) = Some element →
  upward start_y (Grid.free_neighbors (grid w) start_x start_y topology) ≠ [] →
  (Grid.height (grid w) - 3 ≤ Element.y element →
   ∃ first,
     first ∈ Grid.free_neighbors (grid w) start_x start_y topology ∧ first.2 < start_y
     ∧ Expectimax.expectimax_pathfind astar rnd start_x start_y goal_x goal_y element_id
         topology max_depth w = (Ok (Some [(start_x, start_y); first], 1), w))
  ∧ (9 ≤ Element.y element →
     Minimax.vertical_blocked (grid w) start_x start_y goal_y = false
     ∨ (topology = moore
        ∧ (2 ≤ length (upward start_y
                         (Grid.free_neighbors (grid w) start_x start_y topology)))%nat) →
     ∃ first,
       first ∈ Grid.free_neighbors (grid w) start_x start_y topology ∧ first.2 < start_y
       ∧ Minimax.minimax_pathfind astar rnd start_x start_y goal_x goal_y element_id
           topology max_depth w = (Ok (Some [(start_x, start_y); first], 1), w)).
Proof.
  intros Hs Hg Hws Hwg Hne He Hup.
  assert ((start_x =? goal_x) && (start_y =? goal_y) = false) as Hsg.
  { apply andb_false_iff.
    destruct (decide (start_x = goal_x)) as [->|];
      [right; apply Z.eqb_neq; congruence | left; by apply Z.eqb_neq]. }
  destruct (upward start_y (Grid.free_neighbors (grid w) start_x start_y topology))
    as [|up ups] eqn:Hups; [done|].
  split.
  - intros Hrow. apply Z.leb_le in Hrow.
    exists (Expectimax.escape_move rnd topology start_x start_y goal_x up ups).
    pose proof (escape_move_elem_of rnd topology start_x start_y goal_x up ups) as Hin.
    rewrite <- Hups in Hin. apply upward_elem_of in Hin as [Hin Hlt].
    split; [done|]. split; [done|].
    unfold Expectimax.expectimax_pathfind.
    rewrite Hs, Hg, Hws, Hwg, Hsg, He. simpl. by rewrite Hrow, Hups.
  - intros Hrow Hcase. apply Z.leb_le in Hrow.
    unfold Minimax.minimax_pathfind.
    rewrite Hs, Hg, Hws, Hwg, Hsg, He. cbv zeta. cbn [negb orb andb].
    rewrite Hrow, Hups.
    destruct (Minimax.vertical_blocked (grid w) start_x start_y goal_y) eqn:Hvb.
    + destruct Hcase as [?|[-> Hlen]]; [done|].
      assert ((1 <? Z.of_nat (length (up :: ups))) = true) as ->.
      { apply Z.ltb_lt. lia. }
      rewrite bool_decide_eq_true_2 by done. cbn [andb].
      exists (choice rnd up ups).
      pose proof (choice_elem_of rnd up ups) as Hin.
      rewrite <- Hups in Hin. apply upward_elem_of in Hin as [Hin Hlt]. done.
    + cbn [negb orb andb]. exists up.
      assert (up ∈ up :: ups) as Hin by (by left).
      rewrite <- Hups in Hin. apply upward_elem_of in Hin as [Hin Hlt]. done.
Qed.

Lemma escape_fast_path_witness :
  (∃ first,
     first ∈ Grid.free_neighbors (grid Scenario.blocked_column) 5 10 vonNeumann
     ∧ first.2 < 10
     ∧ Expectimax.expectimax_pathfind Scenario.no_path Scenario.rnd0 5 10 5 2 0
         vonNeumann 2 Scenario.blocked_column
       = (Ok (Some [(5, 10); first], 1), Scenario.blocked_column))
  ∧ (∃ first,
       first ∈ Grid.free_neighbors (grid Scenario.blocked_column) 5 10 moore
       ∧ first.2 < 10
       ∧ Minimax.minimax_pathfind Scenario.no_path Scenario.rnd0 5 10 5 2 0
           moore 2 Scenario.blocked_column
         = (Ok (Some [(5, 10); first], 1), Scenario.blocked_column)).
Proof.
  split.
  - apply (escape_fast_path Scenario.no_path Scenario.rnd0 5 10 5 2 0 vonNeumann 2
             Scenario.blocked_column (Element.mk 0 5 10 (Some 5) (Some 2)));
      try reflexivity; [intros [=] | vm_compute; intros [=] | simpl; lia].
  - apply (escape_fast_path Scenario.no_path Scenario.rnd0 5 10 5 2 0 moore 2
             Scenario.blocked_column (Element.mk 0 5 10 (Some 5) (Some 2)));
      try reflexivity; [intros [=] | vm_compute; intros [=] | simpl; lia |].
    right. split; [done|]. vm_compute. lia.
Defined.

(** C4 as stated fails for [minimax_pathfind]: element 0 stands in the
    bottom three rows and has the legal upward move (5, 9), but another
    element stands higher up in its column; under von Neumann topology
    the search runs (three nodes) and a sideways first move is returned. *)
Lemma minimax_bottom_row_searches :
  in_bottom_rows 0 Scenario.blocked_column = true
  ∧ upward 10 (Grid.free_neighbors (grid Scenario.blocked_column) 5 10 vonNeumann)
    = [(5, 9)]
  ∧ fst (Minimax.minimax_pathfind Scenario.no_path Scenario.rnd0 5 10 5 2 0 vonNeumann 2
           Scenario.blocked_column)
    = Ok (Some [(5, 10); (6, 10)], 3).
Proof. repeat split; vm_compute; reflexivity. Qed.

(** ** The distribution at a chance node *)

Module ChanceNode.
Import Expectimax.

Lemma steps_NoDup topology : NoDup (Grid.steps topology).
Proof.
  destruct topology;
    [apply (bool_decide_unpack (NoDup (Grid.steps vonNeumann)))
    |apply (bool_decide_unpack (NoDup (Grid.steps moore)))]; by vm_compute.
Qed.

Lemma steps_nonzero topology : (0, 0) ∉ Grid.steps topology.
Proof.
  destruct topology;
    [apply (bool_decide_unpack ((0, 0) ∉ Grid.steps vonNeumann))
    |apply (bool_decide_unpack ((0, 0) ∉ Grid.steps moore))]; by vm_compute.
Qed.

Lemma get_neighbors_NoDup g px py topology :
  NoDup (Grid.get_neighbors g px py topology).
Proof.
  unfold Grid.get_neighbors. apply NoDup_filter.
  change (NoDup ((λ d : Z * Z, (px + d.1, py + d.2)) <$> Grid.steps topology)).
  apply NoDup_fmap_2; [|apply steps_NoDup].
  intros [a b] [c d] [= H1 H2]. simpl in *. f_equal; lia.
Qed.

Lemma get_neighbors_not_self g px py topology :
  (px, py) ∉ Grid.get_neighbors g px py topology.
Proof.
  unfold Grid.get_neighbors. intros H. apply list_elem_of_filter in H as [_ H].
  change ((px, py) ∈ (λ d : Z * Z, (px + d.1, py + d.2)) <$> Grid.steps topology) in H.
  apply list_elem_of_fmap in H as ([a b] & [= H1 H2] & Hd). simpl in *.
  assert (a = 0) as -> by lia. assert (b = 0) as -> by lia.
  by apply (steps_nonzero topology).
Qed.

Lemma chance_moves_NoDup g element other topology :
  NoDup (chance_moves g element other topology).
Proof.
  unfold chance_moves. apply NoDup_app. split; [|split].
  - apply NoDup_filter, get_neighbors_NoDup.
  - intros p Hp Hs. apply list_elem_of_singleton in Hs as ->.
    apply list_elem_of_filter in Hp as [_ Hp].
    by apply get_neighbors_not_self in Hp.
  - apply NoDup_singleton.
Qed.

Lemma move_weights_other (g : Grid.t) (other : Element.t) (m : gmap (Z * Z) Qc)
    (moves : list (Z * Z)) (p : Z * Z) :
  p ∉ moves →
  foldl (λ (weights : gmap (Z * Z) Qc) (p : Z * Z), <[p := move_weight g other p]> weights) m moves !! p = m !! p.
Proof.
  revert m. induction moves as [|a rest IH]; intros m Hp; simpl; [done|].
  apply not_elem_of_cons in Hp as [Hne Hp].
  rewrite IH by done. by rewrite lookup_insert_ne.
Qed.

Lemma move_weights_lookup_acc (g : Grid.t) (other : Element.t) (m : gmap (Z * Z) Qc)
    (moves : list (Z * Z)) (p : Z * Z) :
  p ∈ moves →
  foldl (λ (weights : gmap (Z * Z) Qc) (p : Z * Z), <[p := move_weight g other p]> weights) m moves !! p
  = Some (move_weight g other p).
Proof.
  revert m. induction moves as [|a rest IH]; intros m Hp; simpl.
  - by apply not_elem_of_nil in Hp.
  - destruct (decide (p ∈ rest)) as [Hin|Hnin]; [by apply IH|].
    apply elem_of_cons in Hp as [->|Hp]; [|done].
    rewrite move_weights_other by done. by rewrite lookup_insert_eq.
Qed.

Lemma move_weights_lookup (g : Grid.t) (other : Element.t) (moves : list (Z * Z)) (p : Z * Z) :
  p ∈ moves → move_weights g other moves !! p = Some (move_weight g other p).
Proof. apply move_weights_lookup_acc. Qed.

Lemma total_weight_insert (m : gmap (Z * Z) Qc) p v :
  m !! p = None → total_weight (<[p := v]> m) = (v + total_weight m)%Qc.
Proof.
  intros Hp. unfold total_weight. rewrite map_fold_insert_L; [done| |done].
  intros. ring.
Qed.

Lemma total_weight_acc (g : Grid.t) (other : Element.t) (moves : list (Z * Z)) :
  NoDup moves → ∀ m : gmap (Z * Z) Qc, (∀ p, p ∈ moves → m !! p = None) →
  total_weight (foldl (λ (weights : gmap (Z * Z) Qc) (p : Z * Z), <[p := move_weight g other p]> weights) m moves)
  = (qsum (map (move_weight g other) moves) + total_weight m)%Qc.
Proof.
  induction 1 as [|a rest Ha Hrest IH]; intros m Hm; simpl.
  - ring.
  - rewrite IH.
    + rewrite total_weight_insert by (apply Hm; by left). ring.
    + intros p Hp. rewrite lookup_insert_ne; [apply Hm; by right|].
      intros ->. done.
Qed.

Lemma total_weight_move_weights (g : Grid.t) (other : Element.t) (moves : list (Z * Z)) :
  NoDup moves →
  total_weight (move_weights g other moves) = qsum (map (move_weight g other) moves).
Proof.
  intros Hnd. unfold move_weights. rewrite total_weight_acc; [|done|done].
  unfold total_weight at 1. rewrite map_fold_empty. ring.
Qed.

Lemma move_weight_pos g other p : (0 < move_weight g other p)%Qc.
Proof. unfold move_weight. repeat case_match; done. Qed.

Lemma qsum_pos (l : list Qc) :
  l ≠ [] → Forall (λ q, 0 < q)%Qc l → (0 < qsum l)%Qc.
Proof.
  intros Hne Hall. destruct Hall as [|q l Hq Hl]; [done|]. simpl.
  apply Qcplus_pos_nonneg; [done|]. clear Hne Hq.
  induction Hl as [|r l Hr Hl IH]; simpl; [done|].
  apply Qcplus_nonneg_nonneg; [by apply Qclt_le_weak|done].
Qed.

Lemma qsum_scale (l : list Qc) (c : Qc) :
  qsum (map (λ q, q / c)%Qc l) = (qsum l / c)%Qc.
Proof.
  induction l as [|q l IH]; simpl.
  - unfold Qcdiv. ring.
  - rewrite IH. unfold Qcdiv. ring.
Qed.

Lemma probabilities_sum (g : Grid.t) (other : Element.t) (moves : list (Z * Z)) :
  NoDup moves → moves ≠ [] →
  qsum (map (probability (move_weights g other moves)
               (total_weight (move_weights g other moves))) moves) = 1%Qc.
Proof.
  intros Hnd Hne. rewrite total_weight_move_weights by done.
  set (total := qsum (map (move_weight g other) moves)).
  assert (0 < total)%Qc as Hpos.
  { subst total. apply qsum_pos; [by destruct moves|].
    apply Forall_forall. intros q Hq. apply list_elem_of_In, in_map_iff in Hq as (p & <- & _).
    apply move_weight_pos. }
  transitivity (qsum (map (λ q, q / total)%Qc (map (move_weight g other) moves))).
  - rewrite map_map. f_equal. apply map_ext_in. intros p Hp.
    unfold probability. rewrite move_weights_lookup; [done|by apply list_elem_of_In].
  - rewrite qsum_scale. fold total. unfold Qcdiv. apply Qcmult_inv_r.
    intros Hz. rewrite Hz in Hpos. by apply (irreflexivity Qclt) in Hpos.
Qed.

End ChanceNode.

(** C5. At a chance node the moves are the legal moves of the
    interfering element followed by "stay"; "stay" weighs 3 when that
    element is in the bottom three rows and 3/2 otherwise, every other
    move weighs 1; the probabilities (weight over total weight) sum to 1;
    a branch whose probability is below 1/100 adds nothing to the sum, and
    every other branch adds its probability times the value of the branch.
    The chance node of [expectimax_value] is the loop over exactly these
    moves, weights and total. *)
Theorem chance_node_distribution (g : Grid.t) (element other : Element.t) topology :
  let moves := Expectimax.chance_moves g element other topology in
  let weights := Expectimax.move_weights g other moves in
  let total := Expectimax.total_weight weights in
  (∀ p, p ∈ moves ↔
        p = Element.pos other
        ∨ (p ∈ Grid.get_neighbors g (Element.x other) (Element.y other) topology
           ∧ Grid.is_wall g p.1 p.2 = false
           ∧ p ≠ Element.pos element
           ∧ Grid.is_element g p.1 p.2 = false))
  ∧ weights !! Element.pos other
    = Some (if Grid.height g - 3 <=? Element.y other then Q2Qc 3 else Q2Qc (3 # 2))
  ∧ (∀ p, p ∈ moves → p ≠ Element.pos other → weights !! p = Some 1%Qc)
  ∧ Expectimax.qsum (map (Expectimax.probability weights total) moves) = 1%Qc
  ∧ (∀ next other_id p rest total_value,
       (Expectimax.probability weights total p < Q2Qc (1 # 100))%Qc →
       Expectimax.chance_loop next other_id weights total (p :: rest) total_value
       = Expectimax.chance_loop next other_id weights total rest total_value)
  ∧ (∀ next other_id rest total_value (w : World),
       lookup_element other_id (elements w) = Some other →
       ¬ (Expectimax.probability weights total (Element.pos other) < Q2Qc (1 # 100))%Qc →
       Expectimax.chance_loop next other_id weights total (Element.pos other :: rest)
         total_value w
       = bind next (λ move_value,
           Expectimax.chance_loop next other_id weights total rest
             (QVal.add_scaled total_value
                (Expectimax.probability weights total (Element.pos other)) move_value)) w)
  ∧ (∀ fuel element_id other_id remaining depth max_depth goal_x goal_y is_bottom_row
       (w : World),
       grid w = g →
       lookup_element element_id (elements w) = Some element →
       lookup_element other_id (elements w) = Some other →
       depth < max_depth →
       Element.pos element ≠ (goal_x, goal_y) →
       ∃ next,
         Expectimax.expectimax_value (S fuel) element_id (other_id :: remaining) depth
           max_depth chance_node topology goal_x goal_y is_bottom_row w
         = Expectimax.chance_loop next other_id weights total moves (FinQ 0) w).
Proof.
  intros moves weights total.
  assert (Element.pos other ∈ moves) as Hstay.
  { subst moves. unfold Expectimax.chance_moves. apply elem_of_app. right. by left. }
  split; [|split; [|split; [|split; [|split; [|split]]]]].
  - intros p. subst moves. unfold Expectimax.chance_moves.
    rewrite elem_of_app, list_elem_of_filter, list_elem_of_singleton.
    split.
    + intros [[Hp Hin] | ->]; [right|by left].
      apply andb_true_iff in Hp as [Hp He]. apply andb_true_iff in Hp as [Hw Hs].
      apply negb_true_iff in Hw, Hs, He.
      split; [done|]. split; [done|]. split; [|done].
      intros ->. unfold Element.pos in Hs. simpl in Hs. by rewrite !Z.eqb_refl in Hs.
    + intros [->|(Hin & Hw & Hs & He)]; [by right|left].
      split; [|done]. rewrite Hw, He. simpl. rewrite andb_true_r.
      apply negb_true_iff, andb_false_iff.
      destruct p as [px py]. unfold Element.pos in Hs. simpl.
      destruct (decide (px = Element.x element)) as [->|];
        [right; apply Z.eqb_neq; congruence | left; by apply Z.eqb_neq].
  - subst weights. rewrite ChanceNode.move_weights_lookup by done.
    unfold Expectimax.move_weight, Element.pos. simpl. by rewrite !Z.eqb_refl.
  - intros p Hp Hne. subst weights. rewrite ChanceNode.move_weights_lookup by done.
    unfold Expectimax.move_weight.
    destruct ((p.1 =? Element.x other) && (p.2 =? Element.y other)) eqn:E; [|done].
    apply andb_true_iff in E as [E1 E2]. apply Z.eqb_eq in E1, E2.
    destruct p as [px py]. unfold Element.pos in Hne. simpl in *. congruence.
  - apply ChanceNode.probabilities_sum.
    + apply ChanceNode.chance_moves_NoDup.
    + intros Hnil. rewrite Hnil in Hstay. by apply not_elem_of_nil in Hstay.
  - intros next other_id p rest total_value Hp. cbn [Expectimax.chance_loop].
    unfold Expectimax.negligible. by rewrite bool_decide_eq_true_2.
  - intros next other_id rest total_value w Ho Hp. cbn [Expectimax.chance_loop].
    unfold Expectimax.negligible. rewrite bool_decide_eq_false_2 by done.
    rewrite (bind_ok _ _ _ _ _ (get_element_ok _ _ _ Ho)).
    by rewrite bool_decide_eq_true_2.
  - intros fuel element_id other_id remaining depth max_depth goal_x goal_y b w
      <- He Ho Hd Hne.
    eexists. cbn [Expectimax.expectimax_value].
    rewrite (bind_ok _ _ _ _ _ (get_element_ok _ _ _ He)).
    apply Z.leb_gt in Hd. rewrite Hd.
    assert ((Element.x element =? goal_x) && (Element.y element =? goal_y) = false) as ->.
    { apply andb_false_iff. unfold Element.pos in Hne.
      destruct (decide (Element.x element = goal_x)) as [Hx|];
        [right; apply Z.eqb_neq; congruence | left; by apply Z.eqb_neq]. }
    rewrite Ho. reflexivity.
Qed.

(** * The claims about the orchestrator *)

Module RoundFacts.
Import Simulation.

Lemma move_element_outcome i p w :
  present i w →
  ∃ (b : bool) w', move_element i p w = (Ok b, w')
                   ∧ (∀ j, present j w → present j w').
Proof.
  intros [e He]. unfold move_element.
  rewrite (bind_ok _ _ _ _ _ (get_element_ok _ _ _ He)).
  destruct (_ && _).
  - eexists _, _. split; [done|]. intros j Hj. by apply place_at_present.
  - by eexists _, _.
Qed.

Lemma commit_centralized_NoDup planned :
  ∀ taken round_moves w,
  (∀ i p, (i, p) ∈ planned → present i w) →
  NoDup (to <$> round_moves) →
  (∀ m, m ∈ round_moves → to m ∈ taken) →
  ∃ moves w',
    commit_centralized planned taken round_moves w = (Ok moves, w')
    ∧ NoDup (to <$> moves).
Proof.
  induction planned as [|[i pos] rest IH]; intros taken round_moves w Hpres Hnd Htaken.
  - by eexists _, _.
  - cbn [commit_centralized]. case_bool_decide as Hin.
    + apply IH; [|done|done]. intros j q Hj. apply (Hpres j q). by right.
    + assert (present i w) as Hi by (apply (Hpres i pos); by left).
      destruct (move_element_outcome i pos w Hi) as (b & w' & Hmove & Hkeep).
      rewrite (bind_ok _ _ _ _ _ Hmove).
      assert (∀ j q, (j, q) ∈ rest → present j w') as Hpres'.
      { intros j q Hj. apply Hkeep, (Hpres j q). by right. }
      destruct b; [|by apply IH].
      destruct (Hkeep i Hi) as [e' He'].
      rewrite (bind_ok _ _ _ _ _ (get_element_ok _ _ _ He')).
      apply IH; [done| |].
      * rewrite fmap_app. apply NoDup_app. split; [done|]. split; [|apply NoDup_singleton].
        intros q Hq Hq'. apply list_elem_of_singleton in Hq'. simpl in Hq'. subst q.
        apply list_elem_of_fmap in Hq as (m & -> & Hm). by apply Hin, Htaken.
      * intros m Hm. apply elem_of_app in Hm as [Hm|Hm].
        -- apply elem_of_union_r. by apply Htaken.
        -- apply list_elem_of_singleton in Hm as ->. by apply elem_of_union_l, elem_of_singleton.
Qed.

Lemma reserve_spec requested :
  ∀ (reservations : gmap (Z * Z) Z) (valid : list (Z * (Z * Z))),
  NoDup (snd <$> valid) →
  (∀ q, q ∈ snd <$> valid → is_Some (reservations !! q)) →
  NoDup (snd <$> reserve requested reservations valid)
  ∧ (∀ r, r ∈ reserve requested reservations valid → r ∈ valid ∨ r ∈ requested).
Proof.
  induction requested as [|[i next] rest IH]; intros reservations valid Hnd Hres.
  - split; [done|]. intros r Hr. by left.
  - cbn [reserve]. destruct (reservations !! next) eqn:Hnext.
    + destruct (IH reservations valid Hnd Hres) as [H1 H2]. split; [done|].
      intros r Hr. destruct (H2 r Hr); [by left|right; by right].
    + destruct (IH (<[next := i]> reservations) (valid ++ [(i, next)])) as [H1 H2].
      * rewrite fmap_app. apply NoDup_app. split; [done|]. split; [|apply NoDup_singleton].
        intros q Hq Hq'. apply list_elem_of_singleton in Hq'. simpl in Hq'. subst q.
        destruct (Hres _ Hq) as [? ?]. congruence.
      * intros q Hq. rewrite fmap_app in Hq. apply elem_of_app in Hq as [Hq|Hq].
        -- destruct (decide (next = q)) as [->|Hne].
           ++ rewrite lookup_insert_eq. by eexists.
           ++ rewrite lookup_insert_ne by done. by apply Hres.
        -- apply list_elem_of_singleton in Hq. simpl in Hq. subst q.
           rewrite lookup_insert_eq. by eexists.
      * split; [done|]. intros r Hr. destruct (H2 r Hr) as [Hr'|Hr'].
        -- apply elem_of_app in Hr' as [Hr'|Hr']; [by left|].
           apply list_elem_of_singleton in Hr' as ->. right. by left.
        -- right. by right.
Qed.

Lemma execute_spec valid :
  ∀ round_moves count blocked w,
  (∀ i p, (i, p) ∈ valid → present i w) →
  ∃ moves count' blocked' w' extra,
    execute valid round_moves count blocked w = (Ok (moves, count', blocked'), w')
    ∧ to <$> moves = (to <$> round_moves) ++ extra
    ∧ extra `sublist_of` (snd <$> valid).
Proof.
  induction valid as [|[i next] rest IH]; intros round_moves count blocked w Hpres.
  - eexists _, _, _, _, []. split; [done|]. split; [by rewrite app_nil_r|done].
  - assert (present i w) as Hi by (apply (Hpres i next); by left).
    destruct Hi as [e He]. cbn [execute].
    rewrite (bind_ok _ _ _ _ _ (get_element_ok _ _ _ He)).
    destruct (move_element_outcome i next w (ex_intro _ e He)) as (b & w' & Hmove & Hkeep).
    rewrite (bind_ok _ _ _ _ _ Hmove).
    assert (∀ j q, (j, q) ∈ rest → present j w') as Hpres'.
    { intros j q Hj. apply Hkeep, (Hpres j q). by right. }
    destruct b.
    + destruct (IH (round_moves ++ [mkMove i (Element.pos e) next]) (count + 1)
                  (blocked ∖ {[i]}) w' Hpres')
        as (moves & count' & blocked' & w'' & extra & Hrun & Hto & Hsub).
      eexists moves, count', blocked', w'', (next :: extra).
      split; [done|]. split.
      * rewrite Hto, fmap_app. simpl. by rewrite <- app_assoc.
      * simpl. by apply sublist_skip.
    + destruct (IH round_moves count blocked w' Hpres')
        as (moves & count' & blocked' & w'' & extra & Hrun & Hto & Hsub).
      eexists moves, count', blocked', w'', extra.
      split; [done|]. split; [done|]. simpl. by apply sublist_cons.
Qed.

End RoundFacts.

(** C2. In one round of parallel movement, in centralized and in
    independent mode, the moves that are committed have pairwise distinct
    destination cells. *)
Theorem reservation_uniqueness (requests : list (Z * (Z * Z))) (blocked : gset Z) (w : World) :
  (∀ i p, (i, p) ∈ requests → present i w) →
  (∃ moves w',
     Simulation.centralized_round requests w = (Ok moves, w')
     ∧ NoDup (to <$> moves))
  ∧ (∃ moves count blocked' w',
       Simulation.independent_round requests blocked w = (Ok (moves, count, blocked'), w')
       ∧ NoDup (to <$> moves)).
Proof.
  intros Hpres. split.
  - apply RoundFacts.commit_centralized_NoDup; [done|apply NoDup_nil_2|].
    intros m Hm. by apply not_elem_of_nil in Hm.
  - destruct (RoundFacts.reserve_spec requests ∅ []) as [Hnd Hfrom]; [apply NoDup_nil_2| |].
    { intros q Hq. by apply not_elem_of_nil in Hq. }
    destruct (RoundFacts.execute_spec (Simulation.reserve requests ∅ []) [] 0 blocked w)
      as (moves & count & blocked' & w' & extra & Hrun & Hto & Hsub).
    { intros i p Hip. destruct (Hfrom _ Hip) as [Hnil|Hreq].
      - by apply not_elem_of_nil in Hnil.
      - by apply (Hpres i p). }
    exists moves, count, blocked', w'. split; [done|].
    rewrite Hto. simpl. by eapply sublist_NoDup.
Qed.

Lemma reservation_uniqueness_witness :
  (∃ moves w',
     Simulation.centralized_round [(0, (5, 4)); (1, (5, 4)); (2, (5, 5))] Scenario.contested
     = (Ok moves, w')
     ∧ NoDup (to <$> moves))
  ∧ (∃ moves count blocked' w',
       Simulation.independent_round [(0, (5, 4)); (1, (5, 4)); (2, (5, 5))] ∅
         Scenario.contested = (Ok (moves, count, blocked'), w')
       ∧ NoDup (to <$> moves)).
Proof.
  apply (reservation_uniqueness [(0, (5, 4)); (1, (5, 4)); (2, (5, 5))] ∅ Scenario.contested).
  intros i p Hip. unfold present.
  repeat (apply elem_of_cons in Hip as [[= -> ->]|Hip]; [by eexists|]).
  by apply not_elem_of_nil in Hip.
Defined.

(** ** The success metric of independent mode *)

Lemma at_target_le_total els :
  Simulation.elements_at_target els ≤ Simulation.total_with_targets els.
Proof.
  unfold Simulation.elements_at_target, Simulation.total_with_targets.
  induction els as [|e els IH]; [done|].
  rewrite !filter_cons.
  destruct (decide (Element.has_target e && Element.at_target e = true)) as [H1|H1],
           (decide (Element.has_target e = true)) as [H2|H2]; simpl; try lia.
  apply andb_true_iff in H1 as [? ?]. done.
Qed.

(** The flag is computed with a strict comparison: it holds exactly when
    more than 95% of the elements with a target stand on it. *)
Lemma success_strict els :
  Simulation.success els = true ↔
  19 * Simulation.total_with_targets els < 20 * Simulation.elements_at_target els.
Proof.
  unfold Simulation.success, Simulation.success_rate.
  pose proof (at_target_le_total els) as Hle.
  set (total := Simulation.total_with_targets els) in *.
  set (hit := Simulation.elements_at_target els) in *.
  rewrite bool_decide_eq_true.
  destruct (0 <? total) eqn:Ht.
  - apply Z.ltb_lt in Ht.
    assert (0 < Qc_of_Z total)%Qc as Hpos.
    { rewrite <- Z2Qc_inj_0. by apply (proj1 (Z2Qc_inj_lt 0 total)). }
    assert (0 < Qc_of_Z 20)%Qc as H20 by done.
    assert (Q2Qc (95 # 100) = Qc_of_Z 19 / Qc_of_Z 20)%Qc as ->
      by (apply Qc_is_canon; reflexivity).
    assert (0 < Qc_of_Z total * Qc_of_Z 20)%Qc as Hprod.
    { by apply Qcmult_pos_pos. }
    rewrite (Qcmult_lt_mono_pos_r _ _ _ Hprod).
    assert (Qc_of_Z 19 / Qc_of_Z 20 * (Qc_of_Z total * Qc_of_Z 20)
            = Qc_of_Z (19 * total))%Qc as ->.
    { rewrite Z2Qc_inj_mul. field. intros Hz. by rewrite Hz in H20. }
    assert (Qc_of_Z hit / Qc_of_Z total * (Qc_of_Z total * Qc_of_Z 20)
            = Qc_of_Z (20 * hit))%Qc as ->.
    { rewrite Z2Qc_inj_mul. field. intros Hz. by rewrite Hz in Hpos. }
    by rewrite <- Z2Qc_inj_lt.
  - apply Z.ltb_ge in Ht. split; [done|lia].
Qed.

(** C7 fails on the code (the claim is right, the comparison is a slip):
    with 19 of 20 targeted elements on their target the rate is exactly
    19/20 = 95% and the success flag is false. *)
Theorem success_at_exactly_95_percent :
  Simulation.total_with_targets Scenario.nineteen_of_twenty = 20
  ∧ Simulation.elements_at_target Scenario.nineteen_of_twenty = 19
  ∧ Simulation.success_rate Scenario.nineteen_of_twenty = Q2Qc (95 # 100)
  ∧ Simulation.success Scenario.nineteen_of_twenty = false.
Proof.
  split; [by vm_compute|]. split; [by vm_compute|]. split.
  - apply Qc_is_canon. by vm_compute.
  - apply not_true_is_false. rewrite success_strict. by vm_compute.
Qed.

(** C9 fails on the code (the claim is right, the free name is a slip):
    for a bottom-row element the heuristic of Expectimax reads the name
    [start_y], bound nowhere, and raises; so does every node at the depth
    limit, and [expectimax_pathfind] itself for a bottom-row element that
    can only move sideways, leaving the element on a cell it tried. *)
Theorem expectimax_evaluate_state_raises :
  (∀ g element goal_x goal_y interfering els,
     Expectimax.evaluate_state g element goal_x goal_y interfering els true
     = Raise (NameError "start_y"))
  ∧ (∀ fuel element_id interfering depth max_depth node_type topology goal_x goal_y
       (w : World),
       present element_id w → max_depth ≤ depth →
       Expectimax.expectimax_value fuel element_id interfering depth max_depth node_type
         topology goal_x goal_y true w = (Raise (NameError "start_y"), w))
  ∧ fst (Expectimax.expectimax_pathfind Scenario.no_path Scenario.rnd0 5 10 5 2 0
           vonNeumann 2 Scenario.no_way_up) = Raise (NameError "start_y")
  ∧ lookup_element 0 (elements Scenario.no_way_up)
    = Some (Element.mk 0 5 10 (Some 5) (Some 2))
  ∧ lookup_element 0
      (elements (snd (Expectimax.expectimax_pathfind Scenario.no_path Scenario.rnd0
                        5 10 5 2 0 vonNeumann 2 Scenario.no_way_up)))
    = Some (Element.mk 0 6 9 (Some 5) (Some 2)).
Proof.
  split; [intros; apply ExpectimaxFrame.evaluate_state_bottom|].
  split.
  - intros fuel element_id interfering depth max_depth node_type topology goal_x goal_y w
      [element He] Hd.
    rewrite (expectimax_value_at_limit _ _ _ _ _ _ _ _ _ _ _ _ He Hd).
    by rewrite ExpectimaxFrame.evaluate_state_bottom.
  - repeat split; by vm_compute.
Qed.

(** ** Target swapping *)

Module SwapFacts.
Import Simulation.

Lemma find_swap_spec blocked_objects others blocked other :
  find_swap blocked_objects others = Some (blocked, other) →
  blocked ∈ blocked_objects ∧ other ∈ others ∧ swap_improves blocked other = true.
Proof.
  induction blocked_objects as [|b rest IH]; simpl; [done|].
  destruct (List.find (swap_improves b) others) as [o|] eqn:Hfind.
  - intros [= -> ->]. apply find_some in Hfind as [Hin Himp].
    split; [by left|]. split; [by apply list_elem_of_In|done].
  - intros H. destruct (IH H) as (? & ? & ?). split; [by right|done].
Qed.

Lemma blocked_objects_spec blocked_elements els b :
  b ∈ blocked_objects blocked_elements els →
  Element.id b ∈ blocked_elements
  ∧ lookup_element (Element.id b) els = Some b
  ∧ Element.has_target b = true.
Proof.
  unfold blocked_objects. intros H. apply list_elem_of_filter in H as [Ht H].
  apply list_elem_of_omap in H as (eid & Heid & Hb).
  pose proof (lookup_element_id _ _ _ Hb) as ->. done.
Qed.

Lemma unsettled_others_spec blocked_elements els o :
  o ∈ unsettled_others blocked_elements els →
  o ∈ els ∧ (Element.id o ∉ blocked_elements)
  ∧ Element.has_target o = true ∧ Element.at_target o = false.
Proof.
  unfold unsettled_others. intros H. apply list_elem_of_filter in H as [Hc H].
  apply andb_true_iff in Hc as [Hc Hs]. apply andb_true_iff in Hc as [Hb Ht].
  apply negb_true_iff in Hb, Hs. apply bool_decide_eq_false in Hb. done.
Qed.

Lemma swap_improves_spec b o :
  swap_improves b o = true →
  ∃ btx bty otx oty,
    Element.target_x b = Some btx ∧ Element.target_y b = Some bty
    ∧ Element.target_x o = Some otx ∧ Element.target_y o = Some oty
    ∧ manhattan (Element.pos b) (otx, oty) + manhattan (Element.pos o) (btx, bty)
      < manhattan (Element.pos b) (btx, bty) + manhattan (Element.pos o) (otx, oty).
Proof.
  unfold swap_improves, Element.distance_to_target, manhattan, Element.pos.
  destruct (Element.target_x b) as [btx|]; [|done].
  destruct (Element.target_y b) as [bty|]; [|done].
  destruct (Element.target_x o) as [otx|]; [|done].
  destruct (Element.target_y o) as [oty|]; [|done].
  simpl. intros H. apply Z.ltb_lt in H. by eexists _, _, _, _.
Qed.

Lemma lookup_element_NoDup els e :
  NoDup (Element.id <$> els) → e ∈ els → lookup_element (Element.id e) els = Some e.
Proof.
  unfold lookup_element.
  induction els as [|a rest IH]; intros Hnd He; [by apply not_elem_of_nil in He|].
  rewrite fmap_cons in Hnd. apply NoDup_cons in Hnd as [Ha Hnd]. simpl.
  destruct (Element.id a =? Element.id e) eqn:E.
  - apply Z.eqb_eq in E. apply elem_of_cons in He as [->|He]; [done|].
    exfalso. apply Ha. rewrite E. apply list_elem_of_fmap. by exists e.
  - apply Z.eqb_neq in E. apply elem_of_cons in He as [->|He]; [done|]. by apply IH.
Qed.

Lemma exchange_targets_lookup b o els :
  lookup_element (Element.id b) els = Some b → Element.id o ≠ Element.id b →
  lookup_element (Element.id b) (exchange_targets b o els)
  = Some (Element.set_target (Element.target_x o) (Element.target_y o) b)
  ∧ (∀ o', lookup_element (Element.id o) els = Some o' →
           lookup_element (Element.id o) (exchange_targets b o els)
           = Some (Element.set_target (Element.target_x b) (Element.target_y b) o'))
  ∧ (∀ j, j ≠ Element.id b → j ≠ Element.id o →
          lookup_element j (exchange_targets b o els) = lookup_element j els).
Proof.
  intros Hb Hne. unfold exchange_targets. split; [|split].
  - rewrite lookup_update_ne by done. rewrite lookup_update_eq by done. by rewrite Hb.
  - intros o' Ho. rewrite lookup_update_eq by done.
    rewrite lookup_update_ne by done. by rewrite Ho.
  - intros j Hjb Hjo. rewrite lookup_update_ne by done. by rewrite lookup_update_ne.
Qed.

Lemma swap_block_spec topology current_step t els :
  fst (fst (swap_block topology current_step t els))
  = swap_attempted topology current_step (blocked_elements t)
  ∧ (swap_attempted topology current_step (blocked_elements t) = false →
     swap_block topology current_step t els = (false, t, els))
  ∧ (swap_attempted topology current_step (blocked_elements t) = true →
     ∀ target_swapped els',
       _swap_targets_for_blocked_elements (blocked_elements t) els = (target_swapped, els') →
       swap_block topology current_step t els
       = (true, if target_swapped then mkTracking ∅ ∅ [] else t, els')).
Proof.
  unfold swap_block, swap_attempted, swap_frequency. cbv zeta.
  destruct ((100 <? current_step) && negb (bool_decide (blocked_elements t = []))); simpl;
    [|done].
  destruct topology; simpl.
  - destruct (current_step mod 15 =? 0); [|done].
    destruct (_swap_targets_for_blocked_elements _ _) as [[] els1]; simpl;
      (split; [done|]; split; [done|]; by intros _ ? ? [= <- <-]).
  - destruct (current_step mod 20 =? 0); [|done].
    destruct (_swap_targets_for_blocked_elements _ _) as [[] els1]; simpl;
      (split; [done|]; split; [done|]; by intros _ ? ? [= <- <-]).
Qed.

End SwapFacts.

(** C8 (amended). A call of the swap step changes nothing unless it
    finds a blocked element with a target and an element that is not
    blocked, has a target and is off it, such that exchanging their targets
    strictly reduces the sum of their Manhattan distances; it then
    exchanges the targets of that one pair and of no other: the blocked
    element holds the other's former target, the other holds the blocked
    element's, and every other element is as before.  The block of the loop
    that invokes the step reaches the call exactly on the ticks after tick
    100 on which some element is blocked and the tick is a multiple of 15
    (von Neumann) or 20 (Moore); on every other tick the block changes
    nothing, and after a successful swap it clears the stuck counters, the
    position histories and the blocked set. *)
Theorem target_swap_step (blocked_elements : list Z) (els : list Element.t) :
  (∀ els', Simulation._swap_targets_for_blocked_elements blocked_elements els
           = (false, els') → els' = els)
  ∧ (∀ els', Simulation._swap_targets_for_blocked_elements blocked_elements els
             = (true, els') →
     ∃ b o btx bty otx oty,
       Element.id b ∈ blocked_elements
       ∧ lookup_element (Element.id b) els = Some b
       ∧ o ∈ els ∧ (Element.id o ∉ blocked_elements) ∧ Element.at_target o = false
       ∧ Element.target_x b = Some btx ∧ Element.target_y b = Some bty
       ∧ Element.target_x o = Some otx ∧ Element.target_y o = Some oty
       ∧ manhattan (Element.pos b) (otx, oty) + manhattan (Element.pos o) (btx, bty)
         < manhattan (Element.pos b) (btx, bty) + manhattan (Element.pos o) (otx, oty)
       ∧ els' = Simulation.exchange_targets b o els
       ∧ lookup_element (Element.id b) els'
         = Some (Element.set_target (Some otx) (Some oty) b)
       ∧ (NoDup (Element.id <$> els) →
          lookup_element (Element.id o) els'
          = Some (Element.set_target (Some btx) (Some bty) o))
       ∧ (∀ j, j ≠ Element.id b → j ≠ Element.id o →
               lookup_element j els' = lookup_element j els))
  ∧ (∀ topology current_step,
       Simulation.swap_attempted topology current_step blocked_elements = true ↔
       100 < current_step ∧ blocked_elements ≠ []
       ∧ current_step mod (match topology with vonNeumann => 15 | moore => 20 end) = 0)
  ∧ (∀ topology current_step stuck_counter position_history,
       let t := Simulation.mkTracking stuck_counter position_history blocked_elements in
       fst (fst (Simulation.swap_block topology current_step t els))
       = Simulation.swap_attempted topology current_step blocked_elements
       ∧ (Simulation.swap_attempted topology current_step blocked_elements = false →
          Simulation.swap_block topology current_step t els = (false, t, els))
       ∧ (Simulation.swap_attempted topology current_step blocked_elements = true →
          ∀ target_swapped els',
            Simulation._swap_targets_for_blocked_elements blocked_elements els
            = (target_swapped, els') →
            Simulation.swap_block topology current_step t els
            = (true, if target_swapped then Simulation.mkTracking ∅ ∅ [] else t, els'))).
Proof.
  split; [|split; [|split]].
  - intros els'. unfold Simulation._swap_targets_for_blocked_elements.
    destruct blocked_elements; [by intros [= <-]|].
    destruct (Simulation.blocked_objects _ _); [by intros [= <-]|].
    destruct (Simulation.unsettled_others _ _); [by intros [= <-]|].
    destruct (Simulation.find_swap _ _) as [[? ?]|]; [done|by intros [= <-]].
  - intros els'. unfold Simulation._swap_targets_for_blocked_elements.
    destruct blocked_elements as [|b0 bs] eqn:Hbl; [done|]. rewrite <- Hbl.
    destruct (Simulation.blocked_objects _ _) as [|bo bos] eqn:Hbo; [done|]. rewrite <- Hbo.
    destruct (Simulation.unsettled_others _ _) as [|oo oos] eqn:Hoo; [done|]. rewrite <- Hoo.
    destruct (Simulation.find_swap _ _) as [[b o]|] eqn:Hfind; [|done].
    intros [= <-].
    apply SwapFacts.find_swap_spec in Hfind as (Hb & Ho & Himp).
    apply SwapFacts.blocked_objects_spec in Hb as (Hb1 & Hb2 & Hb3).
    apply SwapFacts.unsettled_others_spec in Ho as (Ho1 & Ho2 & Ho3 & Ho4).
    apply SwapFacts.swap_improves_spec in Himp
      as (btx & bty & otx & oty & H1 & H2 & H3 & H4 & Hlt).
    assert (Element.id o ≠ Element.id b) as Hne by (intros Heq; by rewrite Heq in Ho2).
    destruct (SwapFacts.exchange_targets_lookup b o els Hb2 Hne) as (Lb & Lo & Lrest).
    exists b, o, btx, bty, otx, oty.
    repeat (split; [done|]). split; [by rewrite Lb, H3, H4|]. split; [|done].
    intros Hnd. rewrite (Lo o) by (by apply SwapFacts.lookup_element_NoDup).
    by rewrite H1, H2.
  - intros topology current_step. unfold Simulation.swap_attempted, Simulation.swap_frequency.
    rewrite !andb_true_iff, negb_true_iff, bool_decide_eq_false, Z.ltb_lt, Z.eqb_eq.
    destruct topology; tauto.
  - intros topology current_step stuck_counter position_history t.
    apply (SwapFacts.swap_block_spec topology current_step t els).
Qed.

Lemma target_swap_step_witness :
  Simulation._swap_targets_for_blocked_elements [0] Scenario.crossed
  = (true, [Element.mk 0 1 1 (Some 1) (Some 2); Element.mk 1 5 4 (Some 5) (Some 5)])
  ∧ ∃ b o btx bty otx oty,
      Element.id b ∈ [0]
      ∧ lookup_element (Element.id b) Scenario.crossed = Some b
      ∧ o ∈ Scenario.crossed ∧ (Element.id o ∉ [0]) ∧ Element.at_target o = false
      ∧ Element.target_x b = Some btx ∧ Element.target_y b = Some bty
      ∧ Element.target_x o = Some otx ∧ Element.target_y o = Some oty
      ∧ manhattan (Element.pos b) (otx, oty) + manhattan (Element.pos o) (btx, bty)
        < manhattan (Element.pos b) (btx, bty) + manhattan (Element.pos o) (otx, oty)
      ∧ [Element.mk 0 1 1 (Some 1) (Some 2); Element.mk 1 5 4 (Some 5) (Some 5)]
        = Simulation.exchange_targets b o Scenario.crossed
      ∧ lookup_element (Element.id b)
          [Element.mk 0 1 1 (Some 1) (Some 2); Element.mk 1 5 4 (Some 5) (Some 5)]
        = Some (Element.set_target (Some otx) (Some oty) b)
      ∧ (NoDup (Element.id <$> Scenario.crossed) →
         lookup_element (Element.id o)
           [Element.mk 0 1 1 (Some 1) (Some 2); Element.mk 1 5 4 (Some 5) (Some 5)]
         = Some (Element.set_target (Some btx) (Some bty) o))
      ∧ (∀ j, j ≠ Element.id b → j ≠ Element.id o →
              lookup_element j
                [Element.mk 0 1 1 (Some 1) (Some 2); Element.mk 1 5 4 (Some 5) (Some 5)]
              = lookup_element j Scenario.crossed).
Proof.
  split; [reflexivity|].
  apply (proj1 (proj2 (target_swap_step [0] Scenario.crossed))). reflexivity.
Defined.

(** C8 as stated fails: the step is not invoked every 15 (von Neumann)
    or 20 (Moore) ticks.  With element 0 blocked and a swap that would
    succeed, the block does nothing on ticks 15, 90 (von Neumann) and 100
    (Moore), which are not after tick 100; and on tick 120 it does nothing
    when no element is blocked. *)
Lemma swap_not_invoked_before_tick_100 :
  Simulation._swap_targets_for_blocked_elements [0] Scenario.crossed
  = (true, [Element.mk 0 1 1 (Some 1) (Some 2); Element.mk 1 5 4 (Some 5) (Some 5)])
  ∧ 15 mod 15 = 0
  ∧ Simulation.swap_block vonNeumann 15 (Simulation.mkTracking ∅ ∅ [0]) Scenario.crossed
    = (false, Simulation.mkTracking ∅ ∅ [0], Scenario.crossed)
  ∧ 90 mod 15 = 0
  ∧ Simulation.swap_block vonNeumann 90 (Simulation.mkTracking ∅ ∅ [0]) Scenario.crossed
    = (false, Simulation.mkTracking ∅ ∅ [0], Scenario.crossed)
  ∧ 100 mod 20 = 0
  ∧ Simulation.swap_block moore 100 (Simulation.mkTracking ∅ ∅ [0]) Scenario.crossed
    = (false, Simulation.mkTracking ∅ ∅ [0], Scenario.crossed)
  ∧ 120 mod 15 = 0
  ∧ Simulation.swap_block vonNeumann 120 (Simulation.mkTracking ∅ ∅ []) Scenario.crossed
    = (false, Simulation.mkTracking ∅ ∅ [], Scenario.crossed)
  ∧ Simulation.swap_block vonNeumann 105 (Simulation.mkTracking ∅ ∅ [0]) Scenario.crossed
    = (true, Simulation.mkTracking ∅ ∅ [],
       [Element.mk 0 1 1 (Some 1) (Some 2); Element.mk 1 5 4 (Some 5) (Some 5)]).
Proof. repeat split. Qed.

(** * Further properties of the search helpers *)

(** ** Sorting by score *)

Lemma insert_desc_perm {A} (key : A → Z) a l : insert_desc key a l ≡ₚ a :: l.
Proof.
  induction l as [|b l IH]; simpl; [done|].
  destruct (key a <? key b); [|done].
  rewrite IH. apply Permutation_swap.
Qed.

Lemma sort_desc_perm {A} (key : A → Z) l : sort_desc key l ≡ₚ l.
Proof.
  induction l as [|a l IH]; simpl; [done|].
  rewrite insert_desc_perm. by rewrite IH.
Qed.

Lemma descending_cons {A} (key : A → Z) a l :
  descending key (a :: l) ↔ (∀ b, b ∈ l → key b ≤ key a) ∧ descending key l.
Proof.
  split.
  - intros H. split.
    + intros b Hb. apply list_elem_of_lookup in Hb as [j Hj].
      by apply (H 0%nat (S j) a b); [lia|..].
    + intros i j x y Hij Hx Hy. by apply (H (S i) (S j) x y); [lia|..].
  - intros [Hhd Htl] i j x y Hij Hx Hy.
    destruct j as [|j]; [lia|]. simpl in Hy.
    destruct i as [|i]; simpl in Hx.
    + injection Hx as <-. apply Hhd. by eapply list_elem_of_lookup_2.
    + by apply (Htl i j x y); [lia|..].
Qed.

Lemma insert_desc_descending {A} (key : A → Z) a l :
  descending key l → descending key (insert_desc key a l).
Proof.
  induction l as [|b l IH]; intros Hl; simpl.
  - apply descending_cons. split; [|done]. intros b Hb. by apply not_elem_of_nil in Hb.
  - apply descending_cons in Hl as [Hb Hl].
    destruct (key a <? key b) eqn:E.
    + apply Z.ltb_lt in E. apply descending_cons. split; [|by apply IH].
      intros c Hc. rewrite insert_desc_perm in Hc.
      apply elem_of_cons in Hc as [->|Hc]; [lia|by apply Hb].
    + apply Z.ltb_ge in E. apply descending_cons. split.
      * intros c Hc. apply elem_of_cons in Hc as [->|Hc]; [done|].
        specialize (Hb c Hc). lia.
      * apply descending_cons. done.
Qed.

Lemma sort_desc_descending {A} (key : A → Z) l : descending key (sort_desc key l).
Proof.
  induction l as [|a l IH]; simpl.
  - intros i j a b _ Ha. by rewrite lookup_nil in Ha.
  - by apply insert_desc_descending.
Qed.

(** Keeping the first [n] of a list sorted by score keeps the best [n]. *)
Lemma take_sort_desc_best {A} (key : A → Z) (n : nat) l :
  take n (sort_desc key l) ++ drop n (sort_desc key l) ≡ₚ l
  ∧ (∀ a b, a ∈ take n (sort_desc key l) → b ∈ drop n (sort_desc key l) → key b ≤ key a).
Proof.
  split; [by rewrite take_drop, sort_desc_perm|].
  intros a b Ha Hb.
  apply list_elem_of_lookup in Ha as [i Hi]. apply list_elem_of_lookup in Hb as [j Hj].
  pose proof (lookup_lt_Some _ _ _ Hi) as Hlen. rewrite length_take in Hlen.
  rewrite lookup_take_lt in Hi by lia. rewrite lookup_drop in Hj.
  apply (sort_desc_descending key l i (n + j)%nat a b); [lia|done|done].
Qed.

(** ** Which elements a search treats as adversaries *)

Lemma adversary_candidate_spec element_id sx sy gx gy b x0 x1 y0 y1 other c :
  Minimax.adversary_candidate element_id sx sy gx gy b x0 x1 y0 y1 other = Some c →
  c.1 = Element.id other ∧ Element.id other ≠ element_id ∧ unsettled other
  ∧ x0 ≤ Element.x other ≤ x1 ∧ y0 ≤ Element.y other ≤ y1.
Proof.
  unfold Minimax.adversary_candidate, unsettled, Element.pos.
  destruct (Element.id other =? element_id) eqn:Hid; [done|]. apply Z.eqb_neq in Hid.
  destruct (negb _) eqn:Hbox; [done|]. apply negb_false_iff in Hbox.
  repeat (apply andb_true_iff in Hbox as [Hbox ?]).
  destruct (Element.target_x other) as [tx|]; [|done].
  destruct (Element.target_y other) as [ty|]; [|done].
  destruct (negb (negb _ || negb _)) eqn:Hat; [done|].
  apply negb_false_iff, orb_true_iff in Hat.
  assert ((Element.x other, Element.y other) ≠ (tx, ty)) as Hne.
  { intros [= Hx Hy]. destruct Hat as [Hat|Hat]; apply negb_true_iff, Z.eqb_neq in Hat; done. }
  intros Hc.
  assert (c.1 = Element.id other) as Hc1.
  { repeat match type of Hc with
           | (if ?t then _ else _) = _ => destruct t
           end; by inversion Hc. }
  split; [done|]. split; [done|]. split; [by eexists _, _|]. lia.
Qed.

Lemma interference_candidate_spec element_id sx sy gx gy b x0 x1 y0 y1 other c :
  Expectimax.interference_candidate element_id sx sy gx gy b x0 x1 y0 y1 other = Some c →
  c.1 = Element.id other ∧ Element.id other ≠ element_id ∧ unsettled other
  ∧ x0 ≤ Element.x other ≤ x1 ∧ y0 ≤ Element.y other ≤ y1.
Proof.
  unfold Expectimax.interference_candidate, unsettled, Element.pos.
  destruct (Element.id other =? element_id) eqn:Hid; [done|]. apply Z.eqb_neq in Hid.
  destruct (negb _) eqn:Hbox; [done|]. apply negb_false_iff in Hbox.
  repeat (apply andb_true_iff in Hbox as [Hbox ?]).
  destruct (Element.target_x other) as [tx|]; [|done].
  destruct (Element.target_y other) as [ty|]; [|done].
  destruct (negb _ || negb _) eqn:Hat; [|done].
  apply orb_true_iff in Hat.
  assert ((Element.x other, Element.y other) ≠ (tx, ty)) as Hne.
  { intros [= Hx Hy]. destruct Hat as [Hat|Hat]; apply negb_true_iff, Z.eqb_neq in Hat; done. }
  intros [= <-]. simpl.
  split; [done|]. split; [done|]. split; [by eexists _, _|]. lia.
Qed.

Lemma omap_ids_NoDup (f : Element.t → option (Z * Z)) els :
  (∀ e c, f e = Some c → c.1 = Element.id e) →
  NoDup (Element.id <$> els) → NoDup ((omap f els).*1).
Proof.
  intros Hf. induction els as [|e els IH]; simpl; [done|].
  rewrite NoDup_cons. intros [Hnotin Hnd].
  destruct (f e) as [c|] eqn:Hc; [|by apply IH].
  simpl. apply NoDup_cons. split; [|by apply IH].
  rewrite (Hf _ _ Hc). intros Hin. apply Hnotin.
  apply list_elem_of_fmap in Hin as (c' & Hc' & Hin).
  apply list_elem_of_omap in Hin as (e' & He' & Hfe').
  apply list_elem_of_fmap. exists e'. split; [|done].
  rewrite Hc'. by apply Hf.
Qed.

(** What the selection of a scored candidate list keeps: at most [n]
    ids, each of a candidate, without repetition when the candidates have
    none, and never a candidate scored below one that is left out. *)
Lemma selection_spec (n : nat) (cands : list (Z * Z)) :
  let result := map fst (take n (sort_desc snd cands)) in
  (length result ≤ n)%nat
  ∧ (∀ i, i ∈ result → i ∈ cands.*1)
  ∧ (NoDup (cands.*1) → NoDup result)
  ∧ (∃ kept dropped,
       result = kept.*1 ∧ kept ++ dropped ≡ₚ cands
       ∧ (length kept = n `min` length cands)%nat
       ∧ ∀ k d, k ∈ kept → d ∈ dropped → d.2 ≤ k.2).
Proof.
  intros result. subst result.
  change (map fst (take n (sort_desc snd cands))) with ((take n (sort_desc snd cands)).*1).
  destruct (take_sort_desc_best snd n cands) as [Hperm Hbest].
  assert (take n (sort_desc snd cands) `sublist_of` sort_desc snd cands) as Hsub
    by apply sublist_take.
  split; [|split; [|split]].
  - rewrite length_fmap, length_take. lia.
  - intros i Hi. apply list_elem_of_fmap in Hi as (c & -> & Hc).
    apply list_elem_of_fmap. exists c. split; [done|].
    rewrite <- (sort_desc_perm snd cands). by apply (sublist_subseteq _ _ Hsub).
  - intros Hnd. rewrite fmap_take.
    apply (sublist_NoDup _ ((sort_desc snd cands).*1)); [|apply sublist_take].
    by rewrite (sort_desc_perm snd cands).
  - exists (take n (sort_desc snd cands)), (drop n (sort_desc snd cands)).
    split; [done|]. split; [done|]. split; [|done].
    rewrite length_take. by rewrite (sort_desc_perm snd cands).
Qed.

Lemma selected_from_candidates (f : Element.t → option (Z * Z)) (els : list Element.t)
    (element_id : Z) (n : nat) :
  (∀ e c, f e = Some c →
          c.1 = Element.id e ∧ Element.id e ≠ element_id ∧ unsettled e) →
  let result := map fst (take n (sort_desc snd (omap f els))) in
  (length result ≤ n)%nat
  ∧ (∀ i, i ∈ result →
          i ≠ element_id
          ∧ ∃ other, other ∈ els ∧ Element.id other = i ∧ unsettled other)
  ∧ (NoDup (Element.id <$> els) → NoDup result)
  ∧ (∃ kept dropped,
       result = kept.*1 ∧ kept ++ dropped ≡ₚ omap f els
       ∧ (length kept = n `min` length (omap f els))%nat
       ∧ ∀ k d, k ∈ kept → d ∈ dropped → d.2 ≤ k.2).
Proof.
  intros Hf result.
  destruct (selection_spec n (omap f els)) as (Hlen & Hin & Hnd & Hbest).
  split; [done|]. split; [|split; [|done]].
  - intros i Hi. apply Hin in Hi.
    apply list_elem_of_fmap in Hi as (c & -> & Hc).
    apply list_elem_of_omap in Hc as (e & He & Hfe).
    destruct (Hf _ _ Hfe) as (Hid & Hne & Hun).
    rewrite Hid. split; [done|]. by exists e.
  - intros Hids. apply Hnd. apply omap_ids_NoDup; [|done].
    intros e c Hc. by destruct (Hf _ _ Hc).
Qed.

(** X1. [find_potential_adversaries] returns at most two ids (three
    with bottom-row priority); never the id of the searching element; only
    ids of elements that have a target and are off it; no id twice; and the
    ids it keeps are those of the highest-scored candidates: no candidate
    left out has a higher threat level than one that is kept. *)
Theorem potential_adversaries_selection
    (els : list Element.t) (element_id start_x start_y goal_x goal_y : Z) (b : bool) :
  let result :=
    Minimax.find_potential_adversaries els element_id start_x start_y goal_x goal_y b in
  let candidates := minimax_candidates els element_id start_x start_y goal_x goal_y b in
  (length result ≤ if b then 3 else 2)%nat
  ∧ (∀ i, i ∈ result →
          i ≠ element_id
          ∧ ∃ other, other ∈ els ∧ Element.id other = i ∧ unsettled other)
  ∧ (NoDup (Element.id <$> els) → NoDup result)
  ∧ (∃ kept dropped,
       result = kept.*1 ∧ kept ++ dropped ≡ₚ candidates
       ∧ (length kept = (if b then 3 else 2) `min` length candidates)%nat
       ∧ ∀ k d, k ∈ kept → d ∈ dropped → d.2 ≤ k.2).
Proof.
  intros result candidates. subst result candidates.
  unfold Minimax.find_potential_adversaries, minimax_candidates. cbv zeta.
  apply selected_from_candidates.
  intros e c Hc. apply adversary_candidate_spec in Hc. tauto.
Qed.

(** X2. [find_interfering_elements] returns at most two ids (three for
    a bottom-row element); never the id of the searching element; only ids
    of elements that have a target and are off it; no id twice; and the ids
    it keeps are those of the highest-scored candidates. *)
Theorem interfering_elements_selection
    (els : list Element.t) (element_id start_x start_y goal_x goal_y : Z) (b : bool) :
  let result :=
    Expectimax.find_interfering_elements els element_id start_x start_y goal_x goal_y b in
  let candidates := expectimax_candidates els element_id start_x start_y goal_x goal_y b in
  (length result ≤ if b then 3 else 2)%nat
  ∧ (∀ i, i ∈ result →
          i ≠ element_id
          ∧ ∃ other, other ∈ els ∧ Element.id other = i ∧ unsettled other)
  ∧ (NoDup (Element.id <$> els) → NoDup result)
  ∧ (∃ kept dropped,
       result = kept.*1 ∧ kept ++ dropped ≡ₚ candidates
       ∧ (length kept = (if b then 3 else 2) `min` length candidates)%nat
       ∧ ∀ k d, k ∈ kept → d ∈ dropped → d.2 ≤ k.2).
Proof.
  intros result candidates. subst result candidates.
  unfold Expectimax.find_interfering_elements, expectimax_candidates. cbv zeta.
  apply selected_from_candidates.
  intros e c Hc. apply interference_candidate_spec in Hc. tauto.
Qed.

(** ** The scores that rank the other elements *)

(** X3. The threat level of [calculate_threat_level] lies between 5
    and 105, and between 5 and 55 without bottom-row priority: every
    candidate scores strictly above zero. *)
Theorem threat_level_bounds
    (our_start_x our_start_y our_goal_x our_goal_y
     their_start_x their_start_y their_goal_x their_goal_y : Z) (b : bool) :
  5 ≤ Minimax.calculate_threat_level our_start_x our_start_y our_goal_x our_goal_y
        their_start_x their_start_y their_goal_x their_goal_y b
    ≤ (if b then 105 else 55).
Proof.
  unfold Minimax.calculate_threat_level. cbv zeta.
  destruct b; cbn [andb]; repeat case_match; lia.
Qed.

(** X4. For a bottom-row element [calculate_interference_score] adds
    exactly 50 to the score of an element above it and at most one column
    away, and nothing otherwise: the branch that would add 40 is never
    taken.  Without the bottom-row part the score lies between 5 and 70. *)
Theorem interference_score_bottom_row
    (our_start_x our_start_y our_goal_x our_goal_y
     their_x their_y their_target_x their_target_y : Z) (b : bool) :
  let base :=
    Expectimax.calculate_interference_score our_start_x our_start_y our_goal_x our_goal_y
      their_x their_y their_target_x their_target_y false in
  Expectimax.calculate_interference_score our_start_x our_start_y our_goal_x our_goal_y
    their_x their_y their_target_x their_target_y b
  = base + (if b && (their_y <? our_start_y) && (Z.abs (their_x - our_start_x) <=? 1)
            then 50 else 0)
  ∧ 5 ≤ base ≤ 70.
Proof.
  unfold Expectimax.calculate_interference_score. cbv zeta.
  match goal with |- context [(if ?c then 30 else 0)] => generalize c end.
  intros on_our_path. split.
  - destruct b; cbn [andb]; [|lia].
    destruct (their_y <? our_start_y) eqn:Hy; cbn [andb]; [|lia].
    destruct (Z.abs (their_x - our_start_x) <=? 1) eqn:Hx; [lia|].
    destruct (their_x =? our_start_x) eqn:Heq; [|lia].
    apply Z.eqb_eq in Heq. apply Z.leb_gt in Hx. lia.
  - destruct on_our_path; repeat case_match; lia.
Qed.

(** ** The chance node never skips a move *)

Lemma qsum_ones {A} (f : A → Qc) (l : list A) :
  (∀ a, a ∈ l → f a = 1%Qc) →
  Expectimax.qsum (map f l) = Qc_of_Z (Z.of_nat (length l)).
Proof.
  induction l as [|a l IH]; intros Hf; [symmetry; apply Z2Qc_inj_0|].
  cbn [map Expectimax.qsum foldr length].
  change (foldr Qcplus 0%Qc (map f l)) with (Expectimax.qsum (map f l)).
  rewrite IH by (intros b Hb; apply Hf; by right).
  rewrite (Hf a) by (by left).
  rewrite Nat2Z.inj_succ, <- Z.add_1_l. by rewrite Z2Qc_inj_add.
Qed.

Lemma get_neighbors_length g px py topology :
  (length (Grid.get_neighbors g px py topology) ≤ 8)%nat.
Proof.
  unfold Grid.get_neighbors. etrans; [apply length_filter|].
  rewrite length_map. by destruct topology; cbn; lia.
Qed.

Lemma chance_total_weight g element other topology :
  let moves := Expectimax.chance_moves g element other topology in
  let total := Expectimax.total_weight (Expectimax.move_weights g other moves) in
  (0 < total)%Qc ∧ (total ≤ Qc_of_Z 11)%Qc.
Proof.
  intros moves total. subst total.
  rewrite ChanceNode.total_weight_move_weights by apply ChanceNode.chance_moves_NoDup.
  subst moves. unfold Expectimax.chance_moves. cbv zeta.
  set (valid := filter _ _).
  assert (length valid ≤ 8)%nat as Hlen.
  { subst valid. etrans; [apply length_filter|apply get_neighbors_length]. }
  rewrite map_app.
  assert (∀ l1 l2, Expectimax.qsum (l1 ++ l2) = (Expectimax.qsum l1 + Expectimax.qsum l2)%Qc) as Happ.
  { induction l1 as [|q l1 IH]; intros l2; simpl; [ring|]. rewrite IH. ring. }
  rewrite Happ. rewrite qsum_ones.
  - cbn [map Expectimax.qsum foldr].
    assert (0 < Expectimax.move_weight g other (Element.pos other)
            ∧ Expectimax.move_weight g other (Element.pos other) ≤ Qc_of_Z 3)%Qc as [Hw0 Hw3].
    { split; [apply ChanceNode.move_weight_pos|].
      unfold Expectimax.move_weight. repeat case_match; done. }
    assert (0 ≤ Qc_of_Z (Z.of_nat (length valid)))%Qc as Hn0.
    { rewrite <- Z2Qc_inj_0. apply (proj1 (Z2Qc_inj_le _ _)). lia. }
    assert (Qc_of_Z (Z.of_nat (length valid)) ≤ Qc_of_Z 8)%Qc as Hn8.
    { apply (proj1 (Z2Qc_inj_le _ _)). lia. }
    rewrite Qcplus_0_r. split.
    + apply Qcplus_nonneg_pos; done.
    + replace (Qc_of_Z 11) with (Qc_of_Z 8 + Qc_of_Z 3)%Qc
        by (by rewrite <- Z2Qc_inj_add).
      by apply Qcplus_le_compat.
  - intros p Hp. subst valid. apply list_elem_of_filter in Hp as [_ Hp].
    unfold Expectimax.move_weight.
    destruct ((p.1 =? Element.x other) && (p.2 =? Element.y other)) eqn:E; [|done].
    apply andb_true_iff in E as [E1 E2]. apply Z.eqb_eq in E1, E2.
    destruct p as [a c]. simpl in *. subst a c.
    by apply ChanceNode.get_neighbors_not_self in Hp.
Qed.

(** X5. At a chance node every move, "stay" included, has probability
    at least 1/11, so the test [probability < 0.01] never holds and no move
    is left out of the expected value. *)
Theorem chance_node_skips_no_move (g : Grid.t) (element other : Element.t) topology :
  let moves := Expectimax.chance_moves g element other topology in
  let weights := Expectimax.move_weights g other moves in
  let total := Expectimax.total_weight weights in
  ∀ p, p ∈ moves →
       (Q2Qc (1 # 11) ≤ Expectimax.probability weights total p)%Qc
       ∧ Expectimax.negligible (Expectimax.probability weights total p) = false.
Proof.
  intros moves weights total p Hp.
  destruct (chance_total_weight g element other topology) as [Hpos Hle].
  fold moves in Hpos, Hle. fold weights in Hpos, Hle. fold total in Hpos, Hle.
  assert (Q2Qc (1 # 11) ≤ Expectimax.probability weights total p)%Qc as Hprob.
  { unfold Expectimax.probability. subst weights.
    rewrite ChanceNode.move_weights_lookup by done. simpl.
    assert (1 ≤ Expectimax.move_weight g other p)%Qc as Hw.
    { unfold Expectimax.move_weight. repeat case_match; done. }
    apply (Qcmult_le_mono_pos_r _ _ total Hpos).
    unfold Qcdiv. rewrite <- Qcmult_assoc, (Qcmult_comm (/ total)), Qcmult_inv_r.
    - rewrite Qcmult_1_r. etrans; [|apply Hw].
      etrans; [apply Qcmult_le_mono_nonneg_l; [done|apply Hle]|].
      assert (Q2Qc (1 # 11) * Qc_of_Z 11 = 1)%Qc as -> by (apply Qc_is_canon; reflexivity).
      done.
    - intros Hz. rewrite Hz in Hpos. by apply (irreflexivity Qclt) in Hpos. }
  split; [done|]. unfold Expectimax.negligible. apply bool_decide_eq_false.
  intros Hlt. apply Qclt_not_le in Hlt. apply Hlt. etrans; [|apply Hprob]. done.
Qed.

Lemma chance_node_skips_no_move_witness :
  (6, 4) ∈ Expectimax.chance_moves (grid Scenario.midfield)
             (Element.mk 0 5 5 (Some 5) (Some 2)) (Element.mk 1 6 4 (Some 3) (Some 4)) moore
  ∧ Qcle (Q2Qc (1 # 11))
      (Expectimax.probability
         (Expectimax.move_weights (grid Scenario.midfield) (Element.mk 1 6 4 (Some 3) (Some 4))
            (Expectimax.chance_moves (grid Scenario.midfield)
               (Element.mk 0 5 5 (Some 5) (Some 2)) (Element.mk 1 6 4 (Some 3) (Some 4)) moore))
         (Expectimax.total_weight
            (Expectimax.move_weights (grid Scenario.midfield)
               (Element.mk 1 6 4 (Some 3) (Some 4))
               (Expectimax.chance_moves (grid Scenario.midfield)
                  (Element.mk 0 5 5 (Some 5) (Some 2)) (Element.mk 1 6 4 (Some 3) (Some 4))
                  moore)))
         (6, 4))
  ∧ Expectimax.negligible
      (Expectimax.probability
         (Expectimax.move_weights (grid Scenario.midfield) (Element.mk 1 6 4 (Some 3) (Some 4))
            (Expectimax.chance_moves (grid Scenario.midfield)
               (Element.mk 0 5 5 (Some 5) (Some 2)) (Element.mk 1 6 4 (Some 3) (Some 4)) moore))
         (Expectimax.total_weight
            (Expectimax.move_weights (grid Scenario.midfield)
               (Element.mk 1 6 4 (Some 3) (Some 4))
               (Expectimax.chance_moves (grid Scenario.midfield)
                  (Element.mk 0 5 5 (Some 5) (Some 2)) (Element.mk 1 6 4 (Some 3) (Some 4))
                  moore)))
         (6, 4)) = false.
Proof.
  assert ((6, 4) ∈ Expectimax.chance_moves (grid Scenario.midfield)
             (Element.mk 0 5 5 (Some 5) (Some 2)) (Element.mk 1 6 4 (Some 3) (Some 4)) moore)
    as Hin.
  { unfold Expectimax.chance_moves. cbv zeta. apply elem_of_app. right.
    by apply list_elem_of_singleton. }
  split; [done|].
  by apply (chance_node_skips_no_move (grid Scenario.midfield)
              (Element.mk 0 5 5 (Some 5) (Some 2)) (Element.mk 1 6 4 (Some 3) (Some 4)) moore).
Defined.

(** ** The rounds of parallel movement *)

Lemma reserve_acc requested :
  ∀ (reservations : gmap (Z * Z) Z) (valid : list (Z * (Z * Z))),
  Simulation.reserve requested reservations valid
  = valid ++ Simulation.reserve requested reservations [].
Proof.
  induction requested as [|[i next] rest IH]; intros reservations valid.
  - simpl. by rewrite app_nil_r.
  - cbn [Simulation.reserve]. destruct (reservations !! next).
    + apply IH.
    + rewrite IH. rewrite (IH _ ([] ++ _)). simpl. by rewrite <- app_assoc.
Qed.

Lemma reserve_first requested :
  ∀ (reservations : gmap (Z * Z) Z),
  Simulation.reserve requested reservations [] `sublist_of` requested
  ∧ ∀ i c, (i, c) ∈ Simulation.reserve requested reservations [] ↔
           ∃ l1 l2, requested = l1 ++ (i, c) :: l2 ∧ (c ∉ l1.*2) ∧ reservations !! c = None.
Proof.
  induction requested as [|[j d] rest IH]; intros reservations.
  - split; [done|]. intros i c. split.
    + intros H. by apply not_elem_of_nil in H.
    + intros (l1 & l2 & H & _). by destruct l1.
  - cbn [Simulation.reserve]. destruct (reservations !! d) as [k|] eqn:Hd.
    + destruct (IH reservations) as [Hsub Hiff]. split; [by apply sublist_cons|].
      intros i c. rewrite Hiff. split.
      * intros (l1 & l2 & -> & Hc & Hnone). exists ((j, d) :: l1), l2.
        split; [done|]. split; [|done]. rewrite fmap_cons. simpl.
        apply not_elem_of_cons. split; [|done]. intros ->. congruence.
      * intros (l1 & l2 & Heq & Hc & Hnone). destruct l1 as [|a l1].
        -- simplify_eq/=.
        -- simplify_eq/=. exists l1, l2.
           split; [done|]. split; [|done].
           by apply not_elem_of_cons in Hc as [_ Hc].
    + rewrite reserve_acc. simpl.
      destruct (IH (<[d := j]> reservations)) as [Hsub Hiff]. split; [by apply sublist_skip|].
      intros i c. rewrite elem_of_cons, Hiff. split.
      * intros [[= -> ->]|(l1 & l2 & -> & Hc & Hnone)].
        -- exists [], rest. split; [done|]. split; [apply not_elem_of_nil|done].
        -- apply lookup_insert_None in Hnone as [Hnone Hne].
           exists ((j, d) :: l1), l2. split; [done|]. split; [|done].
           rewrite fmap_cons. simpl. apply not_elem_of_cons. done.
      * intros (l1 & l2 & Heq & Hc & Hnone). destruct l1 as [|a l1].
        -- simplify_eq/=. by left.
        -- simplify_eq/=. right. exists l1, l2.
           apply not_elem_of_cons in Hc as [Hne Hc].
           split; [done|]. split; [done|]. by apply lookup_insert_None.
Qed.

(** X6. The reservation pass is first come, first served: the granted
    requests are a sub-list of the requests, in their order, and a request
    is granted exactly when no earlier request of the round names the same
    cell.  So every requested cell is granted to its first requester. *)
Theorem reserve_first_come_first_served (requests : list (Z * (Z * Z))) :
  let granted := Simulation.reserve requests ∅ [] in
  granted `sublist_of` requests
  ∧ (∀ i c, (i, c) ∈ granted ↔
            ∃ l1 l2, requests = l1 ++ (i, c) :: l2 ∧ c ∉ l1.*2)
  ∧ (∀ c, c ∈ requests.*2 → c ∈ granted.*2).
Proof.
  intros granted. subst granted.
  destruct (reserve_first requests ∅) as [Hsub Hiff].
  assert (∀ i c, (i, c) ∈ Simulation.reserve requests ∅ [] ↔
                 ∃ l1 l2, requests = l1 ++ (i, c) :: l2 ∧ c ∉ l1.*2) as Hiff'.
  { intros i c. rewrite Hiff. split.
    - intros (l1 & l2 & ? & ? & _). by exists l1, l2.
    - intros (l1 & l2 & ? & ?). exists l1, l2. by rewrite lookup_empty. }
  split; [done|]. split; [done|].
  intros c Hc. clear Hsub Hiff.
  assert (∃ i l1 l2, requests = l1 ++ (i, c) :: l2 ∧ c ∉ l1.*2) as (i & l1 & l2 & Heq & Hnot).
  { clear Hiff'. induction requests as [|[j d] rest IH].
    - by apply not_elem_of_nil in Hc.
    - destruct (decide (d = c)) as [->|Hne].
      + exists j, [], rest. split; [done|]. apply not_elem_of_nil.
      + rewrite fmap_cons in Hc. apply elem_of_cons in Hc as [Hc|Hc]; [simpl in Hc; congruence|].
        destruct (IH Hc) as (i & l1 & l2 & -> & Hnot).
        exists i, ((j, d) :: l1), l2. split; [done|].
        rewrite fmap_cons. apply not_elem_of_cons. simpl. split; [congruence|done]. }
  apply list_elem_of_fmap. exists (i, c). split; [done|]. apply Hiff'. by exists l1, l2.
Qed.

Lemma move_element_eq i p w e :
  lookup_element i (elements w) = Some e →
  Simulation.move_element i p w
  = if Grid.is_valid_position (grid w) p.1 p.2 && negb (Grid.is_wall (grid w) p.1 p.2)
       && negb (Grid.is_element (grid w) p.1 p.2)
    then (Ok true, place_at e p w) else (Ok false, w).
Proof.
  intros He. unfold Simulation.move_element.
  by rewrite (bind_ok _ _ _ _ _ (get_element_ok _ _ _ He)).
Qed.

Lemma move_element_absent {A} i p (k : bool → M A) w :
  lookup_element i (elements w) = None →
  bind (Simulation.move_element i p) k w = (Raise (KeyError i), w).
Proof.
  intros He. unfold Simulation.move_element, bind, get_element. by rewrite He.
Qed.

Lemma commit_centralized_from_to planned :
  ∀ taken round_moves w moves w',
  Simulation.commit_centralized planned taken round_moves w = (Ok moves, w') →
  (∀ m, m ∈ round_moves → from m = to m) →
  ∀ m, m ∈ moves → from m = to m.
Proof.
  induction planned as [|[i pos] rest IH]; intros taken round_moves w moves w' Hrun Hold.
  - injection Hrun as <- <-. done.
  - cbn [Simulation.commit_centralized] in Hrun. case_bool_decide as Hin.
    + by eapply IH.
    + destruct (lookup_element i (elements w)) as [e|] eqn:He.
      * pose proof (lookup_element_id _ _ _ He) as Hid.
        unfold bind at 1 in Hrun. rewrite (move_element_eq _ _ _ _ He) in Hrun.
        destruct (_ && _); [|by eapply IH].
        assert (lookup_element i (elements (place_at e pos w)) = Some (Element.set_pos pos e))
          as He'.
        { rewrite <- Hid. apply lookup_place_at. by rewrite Hid. }
        rewrite (bind_ok _ _ _ _ _ (get_element_ok _ _ _ He')) in Hrun.
        eapply IH; [done|]. intros m Hm. apply elem_of_app in Hm as [Hm|Hm]; [by apply Hold|].
        apply list_elem_of_singleton in Hm as ->. simpl. apply set_pos_pos.
      * by rewrite move_element_absent in Hrun.
Qed.

(** X7. In centralized mode with parallel movement the position of an
    element is read after the element has been moved: every move the round
    records has [from] equal to [to]. *)
Theorem centralized_round_from_is_to
    (planned_moves : list (Z * (Z * Z))) (w w' : World) (moves : list Move) :
  Simulation.centralized_round planned_moves w = (Ok moves, w') →
  ∀ m, m ∈ moves → from m = to m.
Proof.
  intros Hrun. eapply commit_centralized_from_to; [done|].
  intros m Hm. by apply not_elem_of_nil in Hm.
Qed.

Lemma centralized_round_from_is_to_witness :
  ∃ moves w',
    Simulation.centralized_round [(0, (5, 4)); (1, (5, 4)); (2, (5, 5))] Scenario.contested
    = (Ok moves, w')
    ∧ moves ≠ []
    ∧ ∀ m, m ∈ moves → from m = to m.
Proof.
  eexists _, _. split; [by vm_compute|]. split; [done|].
  eapply (centralized_round_from_is_to [(0, (5, 4)); (1, (5, 4)); (2, (5, 5))]
            Scenario.contested).
  by vm_compute.
Defined.

Lemma place_at_grid_shape e p w :
  Grid.width (grid (place_at e p w)) = Grid.width (grid w)
  ∧ Grid.height (grid (place_at e p w)) = Grid.height (grid w)
  ∧ Grid.walls (grid (place_at e p w)) = Grid.walls (grid w).
Proof. done. Qed.

Lemma execute_full valid :
  ∀ round_moves count blocked w,
  I1 w → NoDup valid.*1 → (∀ i p, (i, p) ∈ valid → present i w) →
  ∃ new blocked' w',
    Simulation.execute valid round_moves count blocked w
    = (Ok (round_moves ++ new, count + Z.of_nat (length new), blocked'), w')
    ∧ I1 w'
    ∧ blocked' = blocked ∖ list_to_set (agentId <$> new)
    ∧ ((λ m, (agentId m, to m)) <$> new) `sublist_of` valid
    ∧ (∀ m, m ∈ new →
         ∃ e, lookup_element (agentId m) (elements w) = Some e
              ∧ from m = Element.pos e ∧ from m ≠ to m
              ∧ lookup_element (agentId m) (elements w')
                = Some (Element.set_pos (to m) e))
    ∧ (∀ j, j ∉ agentId <$> new →
            lookup_element j (elements w') = lookup_element j (elements w))
    ∧ Grid.width (grid w') = Grid.width (grid w)
    ∧ Grid.height (grid w') = Grid.height (grid w)
    ∧ Grid.walls (grid w') = Grid.walls (grid w).
Proof.
  induction valid as [|[i next] rest IH]; intros round_moves count blocked w HI Hnd Hpres.
  - exists [], blocked, w. simpl. rewrite app_nil_r, Z.add_0_r.
    split; [done|]. split; [done|]. split; [by rewrite difference_empty_L|]. split; [done|].
    split; [intros m Hm; by apply not_elem_of_nil in Hm|]. done.
  - rewrite fmap_cons in Hnd. apply NoDup_cons in Hnd as [Hi Hnd]. simpl in Hi.
    destruct (Hpres i next) as [e He]; [by left|].
    pose proof (lookup_element_id _ _ _ He) as Hid.
    cbn [Simulation.execute].
    rewrite (bind_ok _ _ _ _ _ (get_element_ok _ _ _ He)).
    unfold bind at 1. rewrite (move_element_eq _ _ _ _ He).
    destruct (_ && _) eqn:Hok.
    + apply andb_true_iff in Hok as [_ Hfree]. apply negb_true_iff in Hfree.
      apply (not_is_element_free w next) in Hfree.
      assert (lookup_element (Element.id e) (elements w) = Some e) as He0 by (by rewrite Hid).
      assert (I1 (place_at e next w)) as HI1 by (by apply place_at_I1).
      assert (∀ j, j ≠ i → lookup_element j (elements (place_at e next w))
                           = lookup_element j (elements w)) as Hother.
      { intros j Hj. unfold place_at. simpl. rewrite Hid. by apply lookup_update_ne. }
      destruct (IH (round_moves ++ [mkMove i (Element.pos e) next]) (count + 1)
                  (blocked ∖ {[i]}) (place_at e next w) HI1 Hnd)
        as (new & blocked' & w' & Hrun & HI' & Hbl & Hsub & Hmoves & Hrest & Hw & Hh & Hwalls).
      { intros j q Hj. apply place_at_present. apply (Hpres j q). by right. }
      assert (i ∉ agentId <$> new) as Hinew.
      { intros Hin. apply Hi. apply list_elem_of_fmap in Hin as (m & -> & Hm).
        apply list_elem_of_fmap. exists (agentId m, to m). split; [done|].
        eapply elem_of_sublist; [|done]. apply list_elem_of_fmap. by exists m. }
      exists (mkMove i (Element.pos e) next :: new), blocked', w'.
      split.
      { rewrite Hrun. rewrite <- app_assoc. simpl length.
        rewrite Nat2Z.inj_succ.
        by replace (count + 1 + Z.of_nat (length new))
             with (count + Z.succ (Z.of_nat (length new))) by lia. }
      split; [done|]. split.
      { rewrite Hbl. rewrite fmap_cons, list_to_set_cons. simpl.
        by rewrite difference_difference_l_L. }
      split; [rewrite fmap_cons; by apply sublist_skip|].
      split.
      { intros m Hm. apply elem_of_cons in Hm as [->|Hm].
        - exists e. simpl. split; [done|]. split; [done|]. split.
          + intros Heq. pose proof (HI _ _ He) as Hocc. unfold free_cell in Hfree.
            rewrite <- Heq in Hfree. congruence.
          + rewrite (Hrest i Hinew). rewrite <- Hid. apply lookup_place_at. done.
        - destruct (Hmoves m Hm) as (em & Hem & Hfrom & Hne & Hem').
          exists em. split; [|done]. rewrite <- Hem. symmetry. apply Hother.
          intros Heq. apply Hinew. rewrite <- Heq. apply list_elem_of_fmap. by exists m. }
      split.
      { intros j Hj. rewrite fmap_cons in Hj. apply not_elem_of_cons in Hj as [Hji Hj].
        simpl in Hji. rewrite (Hrest j Hj). by apply Hother. }
      by rewrite Hw, Hh, Hwalls.
    + destruct (IH round_moves count blocked w HI Hnd)
        as (new & blocked' & w' & Hrun & HI' & Hbl & Hsub & Hmoves & Hrest & Hshape).
      { intros j q Hj. apply (Hpres j q). by right. }
      exists new, blocked', w'. split; [done|]. split; [done|]. split; [done|].
      split; [by apply sublist_cons|]. done.
Qed.

(** X8. One round of independent mode, for requests of distinct
    elements in a world that satisfies I1: the round returns; I1 holds
    afterwards; the counter equals the number of recorded moves; every
    recorded move carries out a granted request, starts at the cell the
    element stood on before the round, ends on a different cell, and leaves
    the element on that cell; every element without a recorded move is
    untouched; the elements that moved leave the blocked set and nothing
    else does; the size of the grid and its walls are unchanged. *)
Theorem independent_round_effect
    (requests : list (Z * (Z * Z))) (blocked : gset Z) (w : World) :
  I1 w → NoDup requests.*1 → (∀ i p, (i, p) ∈ requests → present i w) →
  ∃ moves blocked' w',
    Simulation.independent_round requests blocked w
    = (Ok (moves, Z.of_nat (length moves), blocked'), w')
    ∧ I1 w'
    ∧ blocked' = blocked ∖ list_to_set (agentId <$> moves)
    ∧ ((λ m, (agentId m, to m)) <$> moves) `sublist_of` Simulation.reserve requests ∅ []
    ∧ (∀ m, m ∈ moves →
         ∃ e, lookup_element (agentId m) (elements w) = Some e
              ∧ from m = Element.pos e ∧ from m ≠ to m
              ∧ lookup_element (agentId m) (elements w')
                = Some (Element.set_pos (to m) e))
    ∧ (∀ j, j ∉ agentId <$> moves →
            lookup_element j (elements w') = lookup_element j (elements w))
    ∧ Grid.width (grid w') = Grid.width (grid w)
    ∧ Grid.height (grid w') = Grid.height (grid w)
    ∧ Grid.walls (grid w') = Grid.walls (grid w).
Proof.
  intros HI Hnd Hpres. unfold Simulation.independent_round.
  destruct (reserve_first requests ∅) as [Hsub _].
  destruct (execute_full (Simulation.reserve requests ∅ []) [] 0 blocked w HI)
    as (new & blocked' & w' & Hrun & Hrest).
  - apply (sublist_NoDup _ (requests.*1)); [done|]. by apply fmap_sublist.
  - intros i p Hip. apply (Hpres i p). by eapply elem_of_sublist.
  - exists new, blocked', w'. split; [|done]. by rewrite Hrun.
Qed.

Lemma independent_round_effect_witness :
  ∃ moves blocked' w',
    Simulation.independent_round [(0, (5, 4)); (1, (5, 4)); (2, (5, 5))] {[1; 2]}
      Scenario.contested
    = (Ok (moves, Z.of_nat (length moves), blocked'), w')
    ∧ I1 w'
    ∧ blocked' = {[1; 2]} ∖ list_to_set (agentId <$> moves)
    ∧ ((λ m, (agentId m, to m)) <$> moves)
        `sublist_of` Simulation.reserve [(0, (5, 4)); (1, (5, 4)); (2, (5, 5))] ∅ []
    ∧ (∀ m, m ∈ moves →
         ∃ e, lookup_element (agentId m) (elements Scenario.contested) = Some e
              ∧ from m = Element.pos e ∧ from m ≠ to m
              ∧ lookup_element (agentId m) (elements w')
                = Some (Element.set_pos (to m) e))
    ∧ (∀ j, j ∉ agentId <$> moves →
            lookup_element j (elements w') = lookup_element j (elements Scenario.contested))
    ∧ Grid.width (grid w') = Grid.width (grid Scenario.contested)
    ∧ Grid.height (grid w') = Grid.height (grid Scenario.contested)
    ∧ Grid.walls (grid w') = Grid.walls (grid Scenario.contested).
Proof.
  apply (independent_round_effect [(0, (5, 4)); (1, (5, 4)); (2, (5, 5))] {[1; 2]}
           Scenario.contested).
  - apply I1b_correct. by vm_compute.
  - apply (bool_decide_unpack _). by vm_compute.
  - intros i p Hip. unfold present.
    repeat (apply elem_of_cons in Hip as [[= -> ->]|Hip]; [by eexists|]).
    by apply not_elem_of_nil in Hip.
Defined.

(** ** The closing metrics of the two modes *)

Lemma at_target_count_total els :
  at_target_count els ≤ total_elements els
  ∧ (all_at_target els = true ↔ at_target_count els = total_elements els).
Proof.
  unfold at_target_count, total_elements, all_at_target.
  induction els as [|e els [IHle IHiff]]; [done|].
  rewrite !filter_cons.
  destruct (decide (Element.has_target e = true)) as [Ht|Ht].
  - rewrite Ht. cbn [andb forallb length].
    destruct (Element.at_target e) eqn:Ha.
    + rewrite decide_True by done. cbn [andb length]. rewrite !Nat2Z.inj_succ.
      split; [lia|]. rewrite IHiff. lia.
    + rewrite decide_False by done. cbn [andb]. rewrite Nat2Z.inj_succ.
      split; [lia|]. split; [done|lia].
  - apply not_true_is_false in Ht. rewrite Ht. cbn [andb].
    rewrite decide_False by done. done.
Qed.

Lemma ratio_bounds (a b : Z) :
  0 ≤ a ≤ b → 0 < b →
  (0 ≤ Qc_of_Z a / Qc_of_Z b)%Qc ∧ (Qc_of_Z a / Qc_of_Z b ≤ 1)%Qc
  ∧ ((Qc_of_Z a / Qc_of_Z b)%Qc = 1%Qc ↔ a = b).
Proof.
  intros [Ha Hab] Hb.
  assert (0 < Qc_of_Z b)%Qc as Hpos.
  { rewrite <- Z2Qc_inj_0. by apply (proj1 (Z2Qc_inj_lt 0 b)). }
  assert (Qc_of_Z b ≠ 0%Qc) as Hnz.
  { intros Hz. rewrite Hz in Hpos. by apply (irreflexivity Qclt) in Hpos. }
  assert (Qc_of_Z a / Qc_of_Z b * Qc_of_Z b = Qc_of_Z a)%Qc as Hmul by (by field).
  split; [|split].
  - apply (Qcmult_le_mono_pos_r _ _ _ Hpos). rewrite Hmul, Qcmult_0_l.
    rewrite <- Z2Qc_inj_0. by apply (proj1 (Z2Qc_inj_le 0 a)).
  - apply (Qcmult_le_mono_pos_r _ _ _ Hpos). rewrite Hmul, Qcmult_1_l.
    by apply (proj1 (Z2Qc_inj_le a b)).
  - split.
    + intros H1. rewrite H1, Qcmult_1_l in Hmul. by apply Z2Qc_inj.
    + intros ->. by field.
Qed.

(** X9. The closing metrics of centralized mode: the success flag is
    true exactly when every element that has a target stands on it, that
    is when the count of elements on target equals the count of elements
    with a target; the rate lies between 0 and 1 and, when some element
    has a target, is 1 exactly when the flag is true.  When no element has
    a target the flag is true although the rate is 0. *)
Theorem centralized_metrics (els : list Element.t) :
  (all_at_target els = true ↔ at_target_count els = total_elements els)
  ∧ (0 ≤ centralized_success_rate els)%Qc ∧ (centralized_success_rate els ≤ 1)%Qc
  ∧ (0 < total_elements els →
     (all_at_target els = true ↔ centralized_success_rate els = 1%Qc))
  ∧ (total_elements els = 0 →
     all_at_target els = true ∧ centralized_success_rate els = 0%Qc).
Proof.
  destruct (at_target_count_total els) as [Hle Hiff].
  assert (0 ≤ at_target_count els) as H0 by (unfold at_target_count; lia).
  unfold centralized_success_rate.
  split; [done|]. destruct (0 <? total_elements els) eqn:Ht.
  - apply Z.ltb_lt in Ht.
    destruct (ratio_bounds (at_target_count els) (total_elements els)) as (B0 & B1 & B2);
      [done|done|].
    split; [done|]. split; [done|]. split; [|lia].
    intros _. by rewrite Hiff, B2.
  - apply Z.ltb_ge in Ht. split; [done|]. split; [done|]. split; [lia|].
    intros Hz. split; [|done]. apply Hiff. lia.
Qed.

(** X10. The closing metrics of independent mode, and how its flag
    relates to the one of centralized mode on the same final state: the
    rate lies between 0 and 1 and is 1 exactly when some element has a
    target and all that have one stand on it; then both modes report
    success.  When no element has a target, independent mode reports
    failure (rate 0) where centralized mode reports success. *)
Theorem independent_metrics (els : list Element.t) :
  (0 ≤ Simulation.success_rate els)%Qc ∧ (Simulation.success_rate els ≤ 1)%Qc
  ∧ (Simulation.success_rate els = 1%Qc ↔
     0 < Simulation.total_with_targets els
     ∧ Simulation.elements_at_target els = Simulation.total_with_targets els)
  ∧ (Simulation.success_rate els = 1%Qc →
     Simulation.success els = true ∧ all_at_target els = true)
  ∧ (Simulation.total_with_targets els = 0 →
     Simulation.success els = false ∧ all_at_target els = true).
Proof.
  destruct (at_target_count_total els) as [Hle Hiff].
  change (at_target_count els) with (Simulation.elements_at_target els) in *.
  change (total_elements els) with (Simulation.total_with_targets els) in *.
  assert (0 ≤ Simulation.elements_at_target els) as H0
    by (unfold Simulation.elements_at_target; lia).
  assert (Simulation.success_rate els = 1%Qc ↔
          0 < Simulation.total_with_targets els
          ∧ Simulation.elements_at_target els = Simulation.total_with_targets els) as Hone.
  { unfold Simulation.success_rate. destruct (0 <? Simulation.total_with_targets els) eqn:Ht.
    - apply Z.ltb_lt in Ht.
      destruct (ratio_bounds (Simulation.elements_at_target els)
                  (Simulation.total_with_targets els)) as (_ & _ & B2); [done|done|].
      rewrite B2. tauto.
    - apply Z.ltb_ge in Ht. split; [done|lia]. }
  split; [|split; [|split; [done|split]]].
  - unfold Simulation.success_rate. destruct (0 <? Simulation.total_with_targets els) eqn:Ht;
      [|done].
    apply Z.ltb_lt in Ht. by apply ratio_bounds.
  - unfold Simulation.success_rate. destruct (0 <? Simulation.total_with_targets els) eqn:Ht;
      [|done].
    apply Z.ltb_lt in Ht. by apply ratio_bounds.
  - intros H1. apply Hone in H1 as [Hpos Heq]. split; [|by apply Hiff].
    apply success_strict. lia.
  - intros Hz. split; [|apply Hiff; lia].
    apply not_true_is_false. rewrite success_strict. lia.
Qed.

(** ** A target swap lowers the distance that remains *)

Lemma total_distance_update i f els e :
  lookup_element i els = Some e →
  total_distance (update_element i f els)
  = total_distance els - Element.distance_to_target e + Element.distance_to_target (f e).
Proof.
  unfold lookup_element. induction els as [|a rest IH]; [done|]. simpl.
  destruct (Element.id a =? i).
  - intros [= ->]. simpl. lia.
  - intros H. simpl. rewrite (IH H). lia.
Qed.

Lemma update_element_keeps i f els :
  (∀ e, Element.id (f e) = Element.id e ∧ Element.pos (f e) = Element.pos e) →
  Element.id <$> update_element i f els = Element.id <$> els
  ∧ Element.pos <$> update_element i f els = Element.pos <$> els.
Proof.
  intros Hf. induction els as [|a rest [IH1 IH2]]; [done|]. cbn [update_element].
  destruct (Element.id a =? i); rewrite !fmap_cons.
  - destruct (Hf a) as [-> ->]. done.
  - by rewrite IH1, IH2.
Qed.

(** X11. A successful target swap strictly lowers the sum of the
    distances of all elements to their targets (so swaps cannot go on for
    ever), and moves no element: the ids and the positions are as before. *)
Theorem swap_lowers_total_distance
    (blocked_elements : list Z) (els els' : list Element.t) :
  NoDup (Element.id <$> els) →
  Simulation._swap_targets_for_blocked_elements blocked_elements els = (true, els') →
  total_distance els' < total_distance els
  ∧ Element.id <$> els' = Element.id <$> els
  ∧ Element.pos <$> els' = Element.pos <$> els.
Proof.
  intros Hnd Hswap.
  unfold Simulation._swap_targets_for_blocked_elements in Hswap.
  destruct blocked_elements as [|b0 bs] eqn:Hbl; [done|]. rewrite <- Hbl in Hswap.
  destruct (Simulation.blocked_objects _ _) as [|bo bos] eqn:Hbo; [done|].
  rewrite <- Hbo in Hswap.
  destruct (Simulation.unsettled_others _ _) as [|oo oos] eqn:Hoo; [done|].
  rewrite <- Hoo in Hswap.
  destruct (Simulation.find_swap _ _) as [[b o]|] eqn:Hfind; [|done].
  injection Hswap as <-.
  apply SwapFacts.find_swap_spec in Hfind as (Hb & Ho & Himp).
  apply SwapFacts.blocked_objects_spec in Hb as (Hb1 & Hb2 & Hb3).
  apply SwapFacts.unsettled_others_spec in Ho as (Ho1 & Ho2 & Ho3 & Ho4).
  apply SwapFacts.swap_improves_spec in Himp
    as (btx & bty & otx & oty & H1 & H2 & H3 & H4 & Hlt).
  assert (Element.id b ≠ Element.id o) as Hne by (intros Heq; by rewrite <- Heq in Ho2).
  pose proof (SwapFacts.lookup_element_NoDup els o Hnd Ho1) as Ho'.
  assert (∀ tx ty e, Element.id (Element.set_target tx ty e) = Element.id e
                     ∧ Element.pos (Element.set_target tx ty e) = Element.pos e) as Hk by done.
  unfold Simulation.exchange_targets.
  destruct (update_element_keeps (Element.id b)
              (Element.set_target (Element.target_x o) (Element.target_y o)) els (Hk _ _))
    as [K1 K2].
  destruct (update_element_keeps (Element.id o)
              (Element.set_target (Element.target_x b) (Element.target_y b))
              (update_element (Element.id b)
                 (Element.set_target (Element.target_x o) (Element.target_y o)) els) (Hk _ _))
    as [K3 K4].
  split; [|split].
  - rewrite (total_distance_update _ _ _ o).
    + rewrite (total_distance_update _ _ _ b Hb2).
      unfold Element.distance_to_target, Element.set_target. simpl.
      rewrite H1, H2, H3, H4. simpl.
      unfold manhattan, Element.pos in Hlt. simpl in Hlt. lia.
    + by rewrite lookup_update_ne.
  - by rewrite K3, K1.
  - by rewrite K4, K2.
Qed.

Lemma swap_lowers_total_distance_witness :
  total_distance [Element.mk 0 1 1 (Some 1) (Some 2); Element.mk 1 5 4 (Some 5) (Some 5)]
  < total_distance Scenario.crossed
  ∧ Element.id <$> [Element.mk 0 1 1 (Some 1) (Some 2); Element.mk 1 5 4 (Some 5) (Some 5)]
    = Element.id <$> Scenario.crossed
  ∧ Element.pos <$> [Element.mk 0 1 1 (Some 1) (Some 2); Element.mk 1 5 4 (Some 5) (Some 5)]
    = Element.pos <$> Scenario.crossed.
Proof.
  apply (swap_lowers_total_distance [0] Scenario.crossed).
  - apply (bool_decide_unpack _). by vm_compute.
  - reflexivity.
Defined.

(** ** The order in which requests are served *)











(** ** Position history and pattern detection *)

Lemma last_n_app {A} (n : nat) (l k : list A) :
  length k = n → last_n n (l ++ k) = k.
Proof.
  intros Hk. unfold last_n. rewrite length_app, Hk.
  replace (length l + n - n)%nat with (length l) by lia. by rewrite drop_app_length.
Qed.

Lemma history_ok_singleton (p : Z * Z) : history_ok [p].
Proof.
  split; [done|]. split; [simpl; lia|]. intros i x y Hx Hy. by destruct i.
Qed.

Lemma history_snoc (h : list (Z * Z)) previous p :
  history_ok h → last h = Some previous → previous ≠ p →
  ∀ i x y, (h ++ [p]) !! i = Some x → (h ++ [p]) !! S i = Some y → x ≠ y.
Proof.
  intros (Hne & Hlen & Hadj) Hlast Hp i x y Hx Hy.
  destruct (decide (S i < length h)%nat).
  - rewrite lookup_app_l in Hx, Hy by lia. by eapply Hadj.
  - pose proof (lookup_lt_Some _ _ _ Hy) as Hlt. rewrite length_app in Hlt. simpl in Hlt.
    rewrite lookup_app_l in Hx by lia. rewrite last_lookup in Hlast.
    replace (pred (length h)) with i in Hlast by lia.
    rewrite lookup_app_r in Hy by lia.
    replace (S i - length h)%nat with 0%nat in Hy by lia. simpl in Hy. congruence.
Qed.

Lemma last_n_history (h : list (Z * Z)) :
  h ≠ [] →
  (∀ i x y, h !! i = Some x → h !! S i = Some y → x ≠ y) →
  history_ok (last_n 8 h) ∧ last (last_n 8 h) = last h.
Proof.
  intros Hne Hadj. unfold last_n.
  assert (0 < length h)%nat as Hpos by (destruct h; [done|simpl; lia]).
  assert (length (drop (length h - 8) h) = length h `min` 8)%nat as Hlen
    by (rewrite length_drop; lia).
  split; [split; [|split]|].
  - intros Hnil. rewrite Hnil in Hlen. simpl in Hlen. lia.
  - lia.
  - intros i x y. rewrite !lookup_drop.
    replace (length h - 8 + S i)%nat with (S (length h - 8 + i)) by lia. apply Hadj.
  - rewrite !last_lookup, lookup_drop, Hlen. f_equal. lia.
Qed.

(** X13. The per-tick update of an element's position history never
    fails on histories kept by the loop and keeps them well formed: every
    history stays non-empty, at most eight positions long and without a
    position recorded twice in a row; the element's history ends with its
    current position; its stuck counter is reset to 0 when the position
    changed and incremented when it did not; the entries of the other
    elements and the blocked set are untouched. *)
Theorem record_position_keeps_histories
    (element_id : Z) (current_pos : Z * Z) (t : Simulation.Tracking) :
  (∀ i h, Simulation.position_history t !! i = Some h → history_ok h) →
  ∃ t',
    record_position element_id current_pos t = Some t'
    ∧ (∀ i h, Simulation.position_history t' !! i = Some h → history_ok h)
    ∧ (∃ h, Simulation.position_history t' !! element_id = Some h
            ∧ last h = Some current_pos)
    ∧ (∀ h previous,
         Simulation.position_history t !! element_id = Some h → last h = Some previous →
         Simulation.stuck_counter t' !! element_id
         = Some (if bool_decide (previous = current_pos)
                 then default 0 (Simulation.stuck_counter t !! element_id) + 1 else 0))
    ∧ (Simulation.position_history t !! element_id = None →
       Simulation.stuck_counter t' = Simulation.stuck_counter t)
    ∧ (∀ i, i ≠ element_id →
            Simulation.position_history t' !! i = Simulation.position_history t !! i
            ∧ Simulation.stuck_counter t' !! i = Simulation.stuck_counter t !! i)
    ∧ Simulation.blocked_elements t' = Simulation.blocked_elements t.
Proof.
  intros Hok. unfold record_position.
  destruct (Simulation.position_history t !! element_id) as [h|] eqn:Hh.
  - destruct (Hok _ _ Hh) as (Hne & Hlen & Hadj).
    destruct (last h) as [previous|] eqn:Hlast; [|by destruct h using rev_ind; [|rewrite last_snoc in Hlast]].
    case_bool_decide as Hmoved.
    + pose proof (history_snoc h previous current_pos (Hok _ _ Hh) Hlast Hmoved) as Hadj'.
      assert (h ++ [current_pos] ≠ []) as Hne' by (by destruct h).
      assert (∃ h', (if (8 <? length (h ++ [current_pos]))%nat
                     then last_n 8 (h ++ [current_pos]) else h ++ [current_pos]) = h'
                    ∧ history_ok h' ∧ last h' = Some current_pos) as (h' & -> & Hok' & Hlast').
      { destruct (8 <? length (h ++ [current_pos]))%nat eqn:E.
        - eexists. split; [done|].
          destruct (last_n_history _ Hne' Hadj') as [H1 H2].
          split; [done|]. by rewrite H2, last_snoc.
        - eexists. split; [done|]. apply Nat.ltb_ge in E.
          split; [done|apply last_snoc]. }
      eexists. split; [done|]. simpl. split; [|split; [|split; [|split; [|split]]]].
      * intros i hi. destruct (decide (i = element_id)) as [->|Hi].
        -- rewrite lookup_insert_eq. by intros [= <-].
        -- rewrite lookup_insert_ne by done. apply Hok.
      * exists h'. by rewrite lookup_insert_eq.
      * intros h0 p0 [= <-] Hp0. rewrite Hlast in Hp0. injection Hp0 as <-.
        rewrite lookup_insert_eq. by rewrite bool_decide_eq_false_2.
      * done.
      * intros i Hi. by rewrite !lookup_insert_ne.
      * done.
    + subst previous.
      replace (8 <? length h)%nat with false by (symmetry; apply Nat.ltb_ge; lia).
      eexists. split; [done|]. simpl. split; [|split; [|split; [|split; [|split]]]].
      * intros i hi. destruct (decide (i = element_id)) as [->|Hi].
        -- rewrite lookup_insert_eq. intros [= <-]. by apply (Hok element_id).
        -- rewrite lookup_insert_ne by done. apply Hok.
      * exists h. by rewrite lookup_insert_eq.
      * intros h0 p0 [= <-] Hp0. rewrite Hlast in Hp0. injection Hp0 as <-.
        rewrite lookup_insert_eq. by rewrite bool_decide_eq_true_2.
      * done.
      * intros i Hi. by rewrite !lookup_insert_ne.
      * done.
  - eexists. split; [done|]. simpl. split; [|split; [|split; [|split; [|split]]]].
    + intros i hi. destruct (decide (i = element_id)) as [->|Hi].
      * rewrite lookup_insert_eq. intros [= <-]. apply history_ok_singleton.
      * rewrite lookup_insert_ne by done. apply Hok.
    + exists [current_pos]. by rewrite lookup_insert_eq.
    + done.
    + done.
    + intros i Hi. by rewrite lookup_insert_ne.
    + done.
Qed.

Lemma record_position_keeps_histories_witness :
  ∃ t',
    record_position 7 (3, 4) (Simulation.mkTracking ∅ {[7 := [(3, 3); (3, 4)]]} []) = Some t'
    ∧ (∀ i h, Simulation.position_history t' !! i = Some h → history_ok h)
    ∧ (∃ h, Simulation.position_history t' !! 7 = Some h ∧ last h = Some (3, 4))
    ∧ (∀ h previous,
         Simulation.position_history
           (Simulation.mkTracking ∅ {[7 := [(3, 3); (3, 4)]]} []) !! 7 = Some h →
         last h = Some previous →
         Simulation.stuck_counter t' !! 7
         = Some (if bool_decide (previous = (3, 4))
                 then default 0
                        (Simulation.stuck_counter
                           (Simulation.mkTracking ∅ {[7 := [(3, 3); (3, 4)]]} []) !! 7) + 1
                 else 0))
    ∧ (Simulation.position_history
         (Simulation.mkTracking ∅ {[7 := [(3, 3); (3, 4)]]} []) !! 7 = None →
       Simulation.stuck_counter t'
       = Simulation.stuck_counter (Simulation.mkTracking ∅ {[7 := [(3, 3); (3, 4)]]} []))
    ∧ (∀ i, i ≠ 7 →
            Simulation.position_history t' !! i
            = Simulation.position_history
                (Simulation.mkTracking ∅ {[7 := [(3, 3); (3, 4)]]} []) !! i
            ∧ Simulation.stuck_counter t' !! i
              = Simulation.stuck_counter
                  (Simulation.mkTracking ∅ {[7 := [(3, 3); (3, 4)]]} []) !! i)
    ∧ Simulation.blocked_elements t'
      = Simulation.blocked_elements (Simulation.mkTracking ∅ {[7 := [(3, 3); (3, 4)]]} []).
Proof.
  apply (record_position_keeps_histories 7 (3, 4)
           (Simulation.mkTracking ∅ {[7 := [(3, 3); (3, 4)]]} [])).
  intros i h. simpl. intros Hi. apply lookup_singleton_Some in Hi as [_ <-].
  split; [done|]. split; [simpl; lia|].
  intros j x y Hx Hy. destruct j as [|[|j]]; simpl in *; [congruence|done|done].
Defined.

Lemma positions_tail4 {A} (positions : list A) :
  (4 ≤ length positions)%nat → ∃ pre a b c d, positions = pre ++ [a; b; c; d].
Proof.
  intros Hlen. exists (take (length positions - 4) positions).
  pose proof (take_drop (length positions - 4) positions) as Hsplit.
  assert (length (drop (length positions - 4) positions) = 4%nat) as Hd
    by (rewrite length_drop; lia).
  destruct (drop (length positions - 4) positions) as [|a [|b [|c [|d [|? ?]]]]];
    simpl in Hd; try lia.
  by exists a, b, c, d.
Qed.

Lemma remove_dups_two (l : list (Z * Z)) a b :
  (∀ x, x ∈ l → x = a ∨ x = b) → (length (remove_dups l) ≤ 2)%nat.
Proof.
  intros Hl. change 2%nat with (length [a; b]). apply submseteq_length.
  apply NoDup_submseteq; [apply NoDup_remove_dups|].
  intros x Hx. apply (proj1 (elem_of_remove_dups _ _)) in Hx.
  destruct (Hl x Hx) as [->| ->]; [by left|right; by left].
Qed.

Lemma detect_pattern_shape topology (positions : list (Z * Z)) :
  (snd (detect_pattern topology positions) = 0
   ∨ snd (detect_pattern topology positions) = 2
   ∨ snd (detect_pattern topology positions) = 4)
  ∧ (fst (detect_pattern topology positions) = false
     ↔ snd (detect_pattern topology positions) = 0).
Proof.
  detect_pattern_tests.
  destruct (4 <=? length positions)%nat; [|intros; simpl; split; [by left|done]].
  intros [] [] [] []; simpl; (split; [by auto|split; congruence]).
Qed.

Lemma tail4_lookups {A} (pre : list A) a b c d :
  let positions := pre ++ [a; b; c; d] in
  positions !! (length positions - 4)%nat = Some a
  ∧ positions !! (length positions - 3)%nat = Some b
  ∧ positions !! (length positions - 2)%nat = Some c
  ∧ positions !! (length positions - 1)%nat = Some d
  ∧ last_n 4 positions = [a; b; c; d]
  ∧ last_n 3 positions = [b; c; d]
  ∧ last positions = Some d.
Proof.
  intros positions. subst positions. rewrite length_app. simpl length.
  repeat split.
  - rewrite lookup_app_r by lia. by replace (length pre + 4 - 4 - length pre)%nat with 0%nat by lia.
  - rewrite lookup_app_r by lia. by replace (length pre + 4 - 3 - length pre)%nat with 1%nat by lia.
  - rewrite lookup_app_r by lia. by replace (length pre + 4 - 2 - length pre)%nat with 2%nat by lia.
  - rewrite lookup_app_r by lia. by replace (length pre + 4 - 1 - length pre)%nat with 3%nat by lia.
  - by apply last_n_app.
  - change (pre ++ [a; b; c; d]) with (pre ++ [a] ++ [b; c; d]). rewrite app_assoc.
    by apply last_n_app.
  - change (pre ++ [a; b; c; d]) with (pre ++ [a; b; c] ++ [d]). rewrite app_assoc.
    apply last_snoc.
Qed.

Lemma detect_pattern_flag topology (positions : list (Z * Z)) :
  (4 ≤ length positions)%nat →
  fst (detect_pattern topology positions)
  = ((length (remove_dups (last_n 4 positions)) <=? 2)%nat
     && bool_decide (positions !! (length positions - 4)%nat
                     = positions !! (length positions - 2)%nat)
     && bool_decide (positions !! (length positions - 3)%nat
                     = positions !! (length positions - 1)%nat))
    || ((8 <=? length positions)%nat
        && bool_decide (last_n 4 positions = take 4 (last_n 8 positions)))
    || (bool_decide (topology = vonNeumann)
        && (length (remove_dups (last_n 3 positions)) <=? 2)%nat
        && (forallb (λ pos : Z * Z, bool_decide (Some pos.1 = fst <$> last positions))
              (last_n 3 positions)
            || forallb (λ pos : Z * Z, bool_decide (Some pos.2 = snd <$> last positions))
                 (last_n 3 positions))).
Proof.
  intros Hlen. detect_pattern_tests.
  replace (4 <=? length positions)%nat with true by (symmetry; by apply Nat.leb_le).
  by intros [] [] [] [].
Qed.

(** X14. The pattern detection on an element's recorded positions:
    with fewer than four positions nothing is reported; whenever the last
    four positions alternate between two cells (A, B, A, B) a deadlock is
    reported; under von Neumann topology a deadlock is already reported
    when the last three of at least four positions go to a cell in the same
    row or column and straight back (A, B, A); the reported pattern length
    is 0, 2 or 4 and is 0 exactly when no deadlock is reported; and under
    Moore topology a deadlock is reported only if the last four positions
    alternate or repeat the four before them. *)
Theorem detect_pattern_reports (topology : Topology) (positions : list (Z * Z)) :
  ((length positions < 4)%nat → detect_pattern topology positions = (false, 0))
  ∧ (∀ pre a b, positions = pre ++ [a; b; a; b] →
                fst (detect_pattern topology positions) = true)
  ∧ (∀ pre p q, positions = pre ++ [p; q; p] → pre ≠ [] → topology = vonNeumann →
                p.1 = q.1 ∨ p.2 = q.2 →
                fst (detect_pattern topology positions) = true)
  ∧ (snd (detect_pattern topology positions) = 0
     ∨ snd (detect_pattern topology positions) = 2
     ∨ snd (detect_pattern topology positions) = 4)
  ∧ (fst (detect_pattern topology positions) = false
     ↔ snd (detect_pattern topology positions) = 0)
  ∧ (topology = moore → fst (detect_pattern topology positions) = true →
     ∃ pre a b c d,
       positions = pre ++ [a; b; c; d]
       ∧ ((a = c ∧ b = d)
          ∨ ((8 ≤ length positions)%nat
             ∧ [a; b; c; d] = take 4 (last_n 8 positions)))).
Proof.
  split; [|split; [|split; [|split; [apply detect_pattern_shape|
                                      split; [apply detect_pattern_shape|]]]]].
  - intros Hlen. unfold detect_pattern. cbv zeta.
    by replace (4 <=? length positions)%nat with false by (symmetry; apply Nat.leb_gt; lia).
  - intros pre a b ->. rewrite detect_pattern_flag by (rewrite length_app; simpl; lia).
    destruct (tail4_lookups pre a b a b) as (L4 & L3 & L2 & L1 & T4 & _ & _).
    cbv zeta in *. rewrite L4, L3, L2, L1, T4.
    rewrite !bool_decide_eq_true_2 by done.
    replace (length (remove_dups [a; b; a; b]) <=? 2)%nat with true; [done|].
    symmetry. apply Nat.leb_le. apply (remove_dups_two _ a b).
    intros x Hx. repeat (apply elem_of_cons in Hx as [->|Hx]; [by auto|]).
    by apply not_elem_of_nil in Hx.
  - intros pre p q -> Hpre -> Hline.
    destruct pre as [|o pre _] using rev_ind; [done|]. rewrite <- app_assoc. simpl app.
    rewrite detect_pattern_flag by (rewrite length_app; simpl; lia).
    destruct (tail4_lookups pre o p q p) as (_ & _ & _ & _ & _ & T3 & Tl).
    cbv zeta in *. rewrite T3, Tl.
    replace (length (remove_dups [p; q; p]) <=? 2)%nat with true.
    + rewrite (bool_decide_eq_true_2 (vonNeumann = vonNeumann)) by done. simpl.
      rewrite !(bool_decide_eq_true_2 (Some p.1 = Some p.1)) by done.
      rewrite !(bool_decide_eq_true_2 (Some p.2 = Some p.2)) by done.
      destruct Hline as [Hx|Hy].
      * rewrite (bool_decide_eq_true_2 (Some q.1 = Some p.1)) by (by rewrite Hx).
        simpl. by rewrite !orb_true_r.
      * rewrite (bool_decide_eq_true_2 (Some q.2 = Some p.2)) by (by rewrite Hy).
        simpl. by rewrite !orb_true_r.
    + symmetry. apply Nat.leb_le. apply (remove_dups_two _ p q).
      intros x Hx. repeat (apply elem_of_cons in Hx as [->|Hx]; [by auto|]).
      by apply not_elem_of_nil in Hx.
  - intros -> Hflag.
    destruct (decide (4 ≤ length positions)%nat) as [Hlen|Hlen].
    + destruct (positions_tail4 positions Hlen) as (pre & a & b & c & d & Hpos).
      exists pre, a, b, c, d. split; [done|].
      rewrite detect_pattern_flag in Hflag by done.
      rewrite (bool_decide_eq_false_2 (moore = vonNeumann)) in Hflag by done.
      cbn [andb] in Hflag. rewrite orb_false_r in Hflag.
      apply orb_true_iff in Hflag as [H1|H2].
      * left. apply andb_true_iff in H1 as [H1 Hbd]. apply andb_true_iff in H1 as [_ Hac].
        apply bool_decide_eq_true in Hac, Hbd. rewrite Hpos in Hac, Hbd.
        destruct (tail4_lookups pre a b c d) as (L4 & L3 & L2 & L1 & _).
        cbv zeta in *. rewrite L4, L2 in Hac. rewrite L3, L1 in Hbd.
        split; congruence.
      * right. apply andb_true_iff in H2 as [H8 Heq].
        apply Nat.leb_le in H8. apply bool_decide_eq_true in Heq.
        split; [done|]. rewrite <- Heq. rewrite Hpos.
        by destruct (tail4_lookups pre a b c d) as (_ & _ & _ & _ & -> & _).
    + assert (detect_pattern moore positions = (false, 0)) as Hno.
      { unfold detect_pattern. cbv zeta.
        by replace (4 <=? length positions)%nat with false
          by (symmetry; apply Nat.leb_gt; lia). }
      by rewrite Hno in Hflag.
Qed.

(** ** The first step of a returned path *)

Lemma bind_ok_inv {A B} (m : M A) (k : A → M B) w b w' :
  bind m k w = (Ok b, w') → ∃ a w1, m w = (Ok a, w1) ∧ k a w1 = (Ok b, w').
Proof.
  unfold bind. destruct (m w) as [[a| |] w1]; [|done|done]. intros H. by exists a, w1.
Qed.

Lemma minimax_root_loop_member child i original b start_y moves :
  ∀ best best_value alpha n w r n' w',
  Minimax.root_loop child i original b start_y moves best best_value alpha n w
  = (Ok (r, n'), w') →
  r = best ∨ ∃ p, r = Some p ∧ p ∈ moves.
Proof.
  induction moves as [|p rest IH]; intros best best_value alpha n w r n' w' H.
  - injection H as <- _ _. by left.
  - cbn [Minimax.root_loop] in H.
    apply bind_ok_inv in H as (? & w1 & _ & H).
    apply bind_ok_inv in H as (value & w2 & _ & H).
    apply bind_ok_inv in H as (? & w3 & _ & H).
    apply IH in H as [->|(q & -> & Hq)].
    + destruct (Val.ltb _ _); [right; exists p; split; [done|by left]|by left].
    + right. exists q. split; [done|by right].
Qed.

Lemma expectimax_root_loop_member child i original b start_y moves :
  ∀ best best_value n w r n' w',
  Expectimax.root_loop child i original b start_y moves best best_value n w
  = (Ok (r, n'), w') →
  r = best ∨ ∃ p, r = Some p ∧ p ∈ moves.
Proof.
  induction moves as [|p rest IH]; intros best best_value n w r n' w' H.
  - injection H as <- _ _. by left.
  - cbn [Expectimax.root_loop] in H.
    apply bind_ok_inv in H as (? & w1 & _ & H).
    apply bind_ok_inv in H as (value & w2 & _ & H).
    apply bind_ok_inv in H as (? & w3 & _ & H).
    apply IH in H as [->|(q & -> & Hq)].
    + destruct (QVal.ltb _ _); [right; exists p; split; [done|by left]|by left].
    + right. exists q. split; [done|by right].
Qed.

Lemma extend_path_first start first sub nodes path n :
  extend_path [start; first] sub nodes = (Some path, n) →
  ∃ tl, path = start :: first :: tl.
Proof.
  unfold extend_path. destruct sub as [[[|? [|? ?]]|] ?]; intros [= <- _]; by eexists.
Qed.

Lemma free_neighbors_spec g px py topology p :
  p ∈ Grid.free_neighbors g px py topology →
  p ∈ Grid.get_neighbors g px py topology
  ∧ Grid.is_valid_position g p.1 p.2 = true
  ∧ Grid.is_wall g p.1 p.2 = false
  ∧ Grid.is_element g p.1 p.2 = false.
Proof.
  unfold Grid.free_neighbors. intros H. apply list_elem_of_filter in H as [Hfree Hn].
  apply andb_true_iff in Hfree as [Hw He]. apply negb_true_iff in Hw, He.
  split; [done|]. split; [|done].
  unfold Grid.get_neighbors in Hn. by apply list_elem_of_filter in Hn as [? _].
Qed.

(** The end of both path finders, once the search has chosen [best]:
    the path starts with the start cell and the chosen move. *)
Lemma path_of_best_move (astar_pathfind : Pathfinder) (b : bool)
    (start_x start_y goal_x goal_y element_id : Z) (topology : Topology)
    (valid : list (Z * Z)) best nodes_explored w1 path n w' :
  match best with
  | None => ret (None, nodes_explored)
  | Some best_move =>
      if b then ret (Some [(start_x, start_y); best_move], nodes_explored)
      else
        λ w,
        match lookup_element element_id (elements w) with
        | None => (Raise (KeyError element_id), w)
        | Some element =>
            (Ok (extend_path [(start_x, start_y); best_move]
                   (astar_pathfind (Grid.remove_element (grid w) element)
                      best_move.1 best_move.2 goal_x goal_y topology)
                   nodes_explored),
             mkWorld (Grid.add_element (Grid.remove_element (grid w) element) element)
                     (elements w))
        end
  end w1 = (Ok (Some path, n), w') →
  best = None ∨ (∃ p, best = Some p ∧ p ∈ valid) →
  ∃ rest, path = (start_x, start_y) :: rest
          ∧ ∀ first tl, rest = first :: tl → first ∈ valid.
Proof.
  intros H [->|(p & -> & Hp)]; [done|]. destruct b.
  - injection H as <- _ _. eexists. split; [done|]. by intros ? ? [= <- _].
  - destruct (lookup_element element_id (elements w1)); [|done].
    injection H as H _. apply extend_path_first in H as [? ->].
    eexists. split; [done|]. by intros ? ? [= <- _].
Qed.

Lemma minimax_first_step astar rnd start_x start_y goal_x goal_y i topology max_depth
    w path n w' :
  Minimax.minimax_pathfind astar rnd start_x start_y goal_x goal_y i topology max_depth w
  = (Ok (Some path, n), w') →
  ∃ rest, path = (start_x, start_y) :: rest
          ∧ ∀ first tl, rest = first :: tl →
                        first ∈ Grid.free_neighbors (grid w) start_x start_y topology.
Proof.
  intros H. unfold Minimax.minimax_pathfind in H. cbv zeta in H.
  destruct (negb _ || negb _); [done|].
  destruct (Grid.is_wall _ _ _ || _); [done|].
  destruct ((start_x =? goal_x) && (start_y =? goal_y)).
  { injection H as <- _ _. exists []. split; [done|]. by intros. }
  destruct (lookup_element i (elements w)) as [element|]; [|done].
  remember (Grid.free_neighbors (grid w) start_x start_y topology) as valid eqn:HV.
  clear HV.
  assert (∀ p, p ∈ upward start_y valid → p ∈ valid) as Hup.
  { intros p Hp. by apply upward_elem_of in Hp as [? _]. }
  destruct (9 <=? Element.y element) eqn:Hb; cbn [andb] in H.
  - destruct (upward start_y valid) as [|up ups] eqn:Hups.
    + destruct valid as [|v vs].
      { injection H as <- _ _. exists []. split; [done|]. by intros. }
      apply bind_ok_inv in H as ([best nodes] & w1 & Hsearch & H).
      assert (best = None ∨ ∃ p, best = Some p ∧ p ∈ v :: vs) as Hbest.
      { destruct (coin rnd); by apply minimax_root_loop_member in Hsearch. }
      by apply (path_of_best_move astar true start_x start_y goal_x goal_y i topology
                  _ _ _ _ _ _ _ H).
    + assert (∀ first, first ∈ up :: ups →
                ∃ rest, [(start_x, start_y); first] = (start_x, start_y) :: rest
                        ∧ ∀ f tl, rest = f :: tl → f ∈ valid) as Hfast.
      { intros first Hf. exists [first]. split; [done|].
        intros f tl [= <- _]. by apply Hup. }
      destruct (_ && _ && _).
      { injection H as <- _ _. apply Hfast, choice_elem_of. }
      destruct (negb _).
      { injection H as <- _ _. apply Hfast. by left. }
      destruct valid as [|v vs].
      { injection H as <- _ _. exists []. split; [done|]. by intros. }
      apply bind_ok_inv in H as ([best nodes] & w1 & Hsearch & H).
      assert (best = None ∨ ∃ p, best = Some p ∧ p ∈ v :: vs) as Hbest.
      { destruct (coin rnd).
        - injection Hsearch as <- _ _. right. eexists. split; [done|].
          apply Hup, choice_elem_of.
        - by apply minimax_root_loop_member in Hsearch. }
      by apply (path_of_best_move astar true start_x start_y goal_x goal_y i topology
                  _ _ _ _ _ _ _ H).
  - destruct valid as [|v vs].
    { injection H as <- _ _. exists []. split; [done|]. by intros. }
    apply bind_ok_inv in H as ([best nodes] & w1 & Hsearch & H).
    assert (best = None ∨ ∃ p, best = Some p ∧ p ∈ v :: vs) as Hbest.
    { by apply minimax_root_loop_member in Hsearch. }
    by apply (path_of_best_move astar false start_x start_y goal_x goal_y i topology
                _ _ _ _ _ _ _ H).
Qed.

Lemma expectimax_first_step astar rnd start_x start_y goal_x goal_y i topology max_depth
    w path n w' :
  Expectimax.expectimax_pathfind astar rnd start_x start_y goal_x goal_y i topology
    max_depth w = (Ok (Some path, n), w') →
  ∃ rest, path = (start_x, start_y) :: rest
          ∧ ∀ first tl, rest = first :: tl →
                        first ∈ Grid.free_neighbors (grid w) start_x start_y topology.
Proof.
  intros H. unfold Expectimax.expectimax_pathfind in H. cbv zeta in H.
  destruct (negb _ || negb _); [done|].
  destruct (Grid.is_wall _ _ _ || _); [done|].
  destruct ((start_x =? goal_x) && (start_y =? goal_y)).
  { injection H as <- _ _. exists []. split; [done|]. by intros. }
  destruct (lookup_element i (elements w)) as [element|]; [|done].
  remember (Grid.free_neighbors (grid w) start_x start_y topology) as valid eqn:HV.
  remember (Grid.height (grid w) - 3 <=? Element.y element) as b eqn:Hb.
  clear HV Hb.
  assert (∀ p, p ∈ upward start_y valid → p ∈ valid) as Hup.
  { intros p Hp. by apply upward_elem_of in Hp as [? _]. }
  assert (∀ best nodes w1,
            Expectimax.root_loop
              (Expectimax.expectimax_value
                 (Z.to_nat
                    (if 15 <? Z.of_nat (length (elements w)) then 1
                     else if 10 <? Z.of_nat (length (elements w)) then 2 else max_depth)
                  + length (Expectimax.find_interfering_elements (elements w) i
                              start_x start_y goal_x goal_y b))
                 i
                 (Expectimax.find_interfering_elements (elements w) i
                    start_x start_y goal_x goal_y b)
                 1
                 (if 15 <? Z.of_nat (length (elements w)) then 1
                  else if 10 <? Z.of_nat (length (elements w)) then 2 else max_depth)
                 max_node topology goal_x goal_y b)
              i (Element.pos element) b start_y valid None NegInfQ 0 w
            = (Ok (best, nodes), w1) →
            best = None ∨ ∃ p, best = Some p ∧ p ∈ valid) as Hloop.
  { intros best nodes w1 Hsearch. by apply expectimax_root_loop_member in Hsearch. }
  destruct b.
  - destruct (upward start_y valid) as [|up ups] eqn:Hups.
    + destruct valid as [|v vs].
      { injection H as <- _ _. exists []. split; [done|]. by intros. }
      apply bind_ok_inv in H as ([best nodes] & w1 & Hsearch & H).
      apply Hloop in Hsearch.
      by apply (path_of_best_move astar true start_x start_y goal_x goal_y i topology
                  _ _ _ _ _ _ _ H).
    + injection H as <- _ _. eexists. split; [done|]. intros f tl [= <- _].
      apply Hup. apply escape_move_elem_of.
  - destruct valid as [|v vs].
    { injection H as <- _ _. exists []. split; [done|]. by intros. }
    apply bind_ok_inv in H as ([best nodes] & w1 & Hsearch & H).
    apply Hloop in Hsearch.
    by apply (path_of_best_move astar false start_x start_y goal_x goal_y i topology
                _ _ _ _ _ _ _ H).
Qed.

(** X15. Whenever [minimax_pathfind] or [expectimax_pathfind] returns a
    path, the path starts with the start cell, and its second cell, if it
    has one, is a neighbour of the start cell under the topology that is in
    bounds, not a wall and not occupied in the grid as it was at the call. *)
Theorem first_step_is_legal
    (astar_pathfind : Pathfinder) (rnd : Rand) (start_x start_y goal_x goal_y : Z)
    (element_id : Z) (topology : Topology) (max_depth : Z) (w w' : World)
    (path : list (Z * Z)) (nodes_explored : Z) :
  Minimax.minimax_pathfind astar_pathfind rnd start_x start_y goal_x goal_y element_id
    topology max_depth w = (Ok (Some path, nodes_explored), w')
  ∨ Expectimax.expectimax_pathfind astar_pathfind rnd start_x start_y goal_x goal_y
      element_id topology max_depth w = (Ok (Some path, nodes_explored), w') →
  ∃ rest,
    path = (start_x, start_y) :: rest
    ∧ ∀ first tl,
        rest = first :: tl →
        first ∈ Grid.get_neighbors (grid w) start_x start_y topology
        ∧ Grid.is_valid_position (grid w) first.1 first.2 = true
        ∧ Grid.is_wall (grid w) first.1 first.2 = false
        ∧ Grid.is_element (grid w) first.1 first.2 = false.
Proof.
  intros H.
  assert (∃ rest, path = (start_x, start_y) :: rest
                  ∧ ∀ first tl, rest = first :: tl →
                      first ∈ Grid.free_neighbors (grid w) start_x start_y topology)
    as (rest & -> & Hrest).
  { destruct H as [H|H];
      [by eapply minimax_first_step|by eapply expectimax_first_step]. }
  exists rest. split; [done|]. intros first tl Heq.
  by apply free_neighbors_spec, (Hrest first tl).
Qed.

Lemma first_step_is_legal_witness :
  ∃ rest,
    [(5, 5); (5, 4)] = (5, 5) :: rest
    ∧ ∀ first tl,
        rest = first :: tl →
        first ∈ Grid.get_neighbors (grid Scenario.midfield) 5 5 vonNeumann
        ∧ Grid.is_valid_position (grid Scenario.midfield) first.1 first.2 = true
        ∧ Grid.is_wall (grid Scenario.midfield) first.1 first.2 = false
        ∧ Grid.is_element (grid Scenario.midfield) first.1 first.2 = false.
Proof.
  apply (first_step_is_legal Scenario.no_path Scenario.rnd0 5 5 5 2 0 vonNeumann 2
           Scenario.midfield Scenario.midfield [(5, 5); (5, 4)] 4).
  left. by vm_compute.
Defined.
